(** * LightSeed: quadtree spatial index and peer fan-out selection

    A shallow embedding of [src/lightseed.js].

    Conventions of the embedding.
    - JavaScript numbers that hold coordinates, velocities, latencies and
      configuration constants are idealised as real numbers [R] in the
      modules [QuadTree] and [LightSeed]; rounding, infinities and NaN of
      IEEE doubles are outside that model.  Statements about values there
      assume that no denominator is zero.
    - What [insert] accepts depends on rounding: a node of width [w] at [x]
      has empty quadrants once [x + w / 2] rounds to [x].  The index and the
      store are therefore embedded a second time, in the modules [QuadTreeA]
      and [LightSeedA], over an arithmetic that is a parameter ([Arith]);
      its instances are the real numbers and the binary64 doubles of
      JavaScript (primitive floats).  What is proved of that embedding holds
      of both, and runs in doubles are evaluated.
    - Peer identifiers are array indices ([@param {number} idx - Peer index]),
      modelled as [nat].  The peer store [this.peers] is a JavaScript array
      with holes: a [list (option Peer)], where writing past the end extends
      the array with holes.
    - Objects mutated in place ([QuadTree], [LightSeed]) are modelled by
      explicit state passing: an operation returns the new object.
    - [QuadTree.insert] is not structurally recursive (it recurses into
      children it has just created), so the embedding carries fuel; [None]
      stands for a recursion that never returns.  With a positive capacity
      the fuel that [insert] takes is enough in every arithmetic.  With
      capacity 0 every call creates the level below: over the real numbers
      the recursion on a point of the region never returns; in doubles it
      ends with false once the regions are empty, after some 2100 halvings
      at most, and [QuadTreeA.insert] carries the fuel for them. *)

From Stdlib Require Import Reals Lra Lia String.
From Stdlib Require ZArith Floats.PrimFloat Floats.SpecFloat Floats.FloatAxioms.
From stdpp Require Import base list.

Open Scope R_scope.

(** ** Comparisons of numbers as booleans *)

Definition Rleb (a b : R) : bool := if Rle_dec a b then true else false.
Definition Rltb (a b : R) : bool := if Rlt_dec a b then true else false.

(** ** Helper functions for vector operations *)

Definition norm (vec : R * R) : R := sqrt (vec.1 ^ 2 + vec.2 ^ 2).
Definition dot (vec1 vec2 : R * R) : R := vec1.1 * vec2.1 + vec1.2 * vec2.2.
Definition subtract (vec1 vec2 : R * R) : R * R :=
  (vec1.1 - vec2.1, vec1.2 - vec2.2).

(** ** QuadTree class for spatial partitioning *)

Module QuadTree.


(** [{ x, y, width, height }] *)
Record Boundary := mkBoundary { bx : R; by_ : R; width : R; height : R }.

(** [{ x, y, idx }] *)
Record Point := mkPoint { px : R; py : R; pidx : nat }.

(** [{ cx, cy, r }] *)
Record Range := mkRange { cx : R; cy : R; r : R }.

(** A node.  [Leaf] is a node with [divided = false] (its four child fields
    are still undefined); [Quad] is a node after [subdivide()], with
    [divided = true] and the fields [northwest], [northeast], [southwest],
    [southeast].  Both keep the node's own [points]. *)
Inductive QuadTree : Type :=
| Leaf (boundary : Boundary) (capacity : nat) (points : list Point)
| Quad (boundary : Boundary) (capacity : nat) (points : list Point)
       (northwest northeast southwest southeast : QuadTree).

Definition boundary (t : QuadTree) : Boundary :=
  match t with Leaf b _ _ | Quad b _ _ _ _ _ _ => b end.
Definition capacity (t : QuadTree) : nat :=
  match t with Leaf _ c _ | Quad _ c _ _ _ _ _ => c end.
Definition points (t : QuadTree) : list Point :=
  match t with Leaf _ _ ps | Quad _ _ ps _ _ _ _ => ps end.
Definition divided (t : QuadTree) : bool :=
  match t with Leaf _ _ _ => false | Quad _ _ _ _ _ _ _ => true end.
Definition children (t : QuadTree) : list QuadTree :=
  match t with
  | Leaf _ _ _ => []
  | Quad _ _ _ nw ne sw se => [nw; ne; sw; se]
  end.

(** [new QuadTree(boundary, capacity)] *)
Definition new_QuadTree (b : Boundary) (c : nat) : QuadTree := Leaf b c [].

(** [inBoundary(point)] of a node with boundary [b] *)
Definition inBoundary (b : Boundary) (p : Point) : bool :=
  Rleb (bx b) (px p) && Rltb (px p) (bx b + width b)
  && Rleb (by_ b) (py p) && Rltb (py p) (by_ b + height b).

(** The four boundaries made by [subdivide()], in the order NW, NE, SW, SE. *)
Definition quadrants (b : Boundary) : Boundary * Boundary * Boundary * Boundary :=
  let halfWidth := width b / 2 in
  let halfHeight := height b / 2 in
  (mkBoundary (bx b) (by_ b) halfWidth halfHeight,
   mkBoundary (bx b + halfWidth) (by_ b) halfWidth halfHeight,
   mkBoundary (bx b) (by_ b + halfHeight) halfWidth halfHeight,
   mkBoundary (bx b + halfWidth) (by_ b + halfHeight) halfWidth halfHeight).

(** [subdivide()]: the four fresh children stored in [northwest],
    [northeast], [southwest], [southeast]; the node itself keeps its boundary,
    capacity and points and gets [divided = true]. *)
Definition subdivide (b : Boundary) (c : nat)
  : QuadTree * QuadTree * QuadTree * QuadTree :=
  let '(bnw, bne, bsw, bse) := quadrants b in
  (new_QuadTree bnw c, new_QuadTree bne c, new_QuadTree bsw c, new_QuadTree bse c).

(** [this.points.push(point)] *)
Definition push_point (t : QuadTree) (point : Point) : QuadTree :=
  match t with
  | Leaf b c ps => Leaf b c (ps ++ [point])
  | Quad b c ps nw ne sw se => Quad b c (ps ++ [point]) nw ne sw se
  end.

(** The tail of [insert]: [this.northwest.insert(point) || ... ||
    this.southeast.insert(point)] on a divided node.  [ins] is the recursive
    call; the chain of [||] stops at the first child that returns true, and
    the node is rebuilt around the children as the calls left them. *)
Definition insert_children (ins : QuadTree -> option (QuadTree * bool))
    (b : Boundary) (c : nat) (ps : list Point) (nw ne sw se : QuadTree)
  : option (QuadTree * bool) :=
  match ins nw with
  | None => None
  | Some (nw, true) => Some (Quad b c ps nw ne sw se, true)
  | Some (nw, false) =>
  match ins ne with
  | None => None
  | Some (ne, true) => Some (Quad b c ps nw ne sw se, true)
  | Some (ne, false) =>
  match ins sw with
  | None => None
  | Some (sw, true) => Some (Quad b c ps nw ne sw se, true)
  | Some (sw, false) =>
  match ins se with
  | None => None
  | Some (se, res) => Some (Quad b c ps nw ne sw se, res)
  end end end end.

(** [insert(point)].  The result is the node after the call and the returned
    boolean. *)
Fixpoint insert_fuel (fuel : nat) (t : QuadTree) (point : Point)
  : option (QuadTree * bool) :=
  match fuel with
  | O => None
  | S fuel =>
    if negb (inBoundary (boundary t) point) then Some (t, false)
    else if (Nat.ltb (length (points t)) (capacity t)) && negb (divided t)
    then Some (push_point t point, true)
    else
      let '(nw, ne, sw, se) :=
        match t with
        | Leaf b c _ => subdivide b c
        | Quad _ _ _ nw ne sw se => (nw, ne, sw, se)
        end in
      insert_children (fun child => insert_fuel fuel child point)
        (boundary t) (capacity t) (points t) nw ne sw se
  end.

(** Number of levels below a node. *)
Fixpoint depth (t : QuadTree) : nat :=
  match t with
  | Leaf _ _ _ => O
  | Quad _ _ _ nw ne sw se =>
    S (Nat.max (Nat.max (depth nw) (depth ne)) (Nat.max (depth sw) (depth se)))
  end.

(** [insert(point)] with the fuel that every call on a tree of positive
    capacity needs: the levels that exist, one level that the call may
    create, and the call on the node itself. *)
Definition insert (t : QuadTree) (point : Point) : option (QuadTree * bool) :=
  insert_fuel (S (S (depth t))) t point.

(** [pointInRange(point, range)] *)
Definition pointInRange (point : Point) (range : Range) : bool :=
  let dx := px point - cx range in
  let dy := py point - cy range in
  Rleb (dx * dx + dy * dy) (r range * r range).

(** [intersects(range)] of a node with boundary [b] *)
Definition intersects (b : Boundary) (range : Range) : bool :=
  let closestX := Rmax (bx b) (Rmin (cx range) (bx b + width b)) in
  let closestY := Rmax (by_ b) (Rmin (cy range) (by_ b + height b)) in
  let dx := closestX - cx range in
  let dy := closestY - cy range in
  Rleb (dx * dx + dy * dy) (r range * r range).

(** [query(range, found)]: [found] is the accumulator array, returned after
    the pushes. *)
Fixpoint query (t : QuadTree) (range : Range) (found : list Point) : list Point :=
  if negb (intersects (boundary t) range) then found
  else
    let found := found ++ List.filter (fun p => pointInRange p range) (points t) in
    match t with
    | Leaf _ _ _ => found
    | Quad _ _ _ nw ne sw se =>
      let found := query nw range found in
      let found := query ne range found in
      let found := query sw range found in
      query se range found
    end.

(** ** Observing a tree *)

(** Every point held anywhere in the tree: the node's own points, then those
    of the four children in the order NW, NE, SW, SE. *)
Fixpoint all_points (t : QuadTree) : list Point :=
  match t with
  | Leaf _ _ ps => ps
  | Quad _ _ ps nw ne sw se =>
    ps ++ all_points nw ++ all_points ne ++ all_points sw ++ all_points se
  end.

Inductive Quadrant := NW | NE | SW | SE.

(** The child field [this.northwest], ... ([None] for undefined). *)
Definition child (q : Quadrant) (t : QuadTree) : option QuadTree :=
  match t with
  | Leaf _ _ _ => None
  | Quad _ _ _ nw ne sw se =>
    Some match q with NW => nw | NE => ne | SW => sw | SE => se end
  end.

(** The node reached from [t] by following child fields. *)
Fixpoint node_at (path : list Quadrant) (t : QuadTree) : option QuadTree :=
  match path with
  | [] => Some t
  | q :: path =>
    match child q t with
    | None => None
    | Some c => node_at path c
    end
  end.

(** Inserting a sequence of points one after the other; the second component
    lists the points whose [insert] returned true. *)
Fixpoint insert_all (t : QuadTree) (ps : list Point)
  : option (QuadTree * list Point) :=
  match ps with
  | [] => Some (t, [])
  | p :: ps =>
    match insert t p with
    | None => None
    | Some (t, ok) =>
      match insert_all t ps with
      | None => None
      | Some (t, acc) => Some (t, if ok then p :: acc else acc)
      end
    end
  end.

(** Shape of the trees that [new QuadTree] and [insert] build with capacity
    [C]: every node has capacity [C] and holds points of its own region; a
    leaf holds at most [C] points; a divided node kept the [C] points it held
    when it was divided, and its children have the four quadrant
    boundaries. *)
Inductive wf (C : nat) : QuadTree -> Prop :=
| wf_Leaf b ps :
    (length ps <= C)%nat ->
    Forall (fun p => inBoundary b p = true) ps ->
    wf C (Leaf b C ps)
| wf_Quad b ps nw ne sw se :
    length ps = C ->
    Forall (fun p => inBoundary b p = true) ps ->
    (boundary nw, boundary ne, boundary sw, boundary se) = quadrants b ->
    wf C nw -> wf C ne -> wf C sw -> wf C se ->
    wf C (Quad b C ps nw ne sw se).

(** The structural invariant of one node as the specification words it, with
    the number of points a divided node holds left as a parameter: the
    specification says [held = 0], the code keeps [held = C]. *)
Definition node_shape (C held : nat) (n : QuadTree) : Prop :=
  (divided n = false /\ (length (points n) <= C)%nat /\ children n = [])
  \/ (divided n = true /\ length (points n) = held /\ length (children n) = 4%nat).

(** The outcome of [insert(point)] on a node [t]: it returns whether the point
    lies in the node's region, leaves the node untouched when it returns
    false, and otherwise adds exactly that point somewhere below [t]. *)
Definition insert_outcome (C : nat) (t : QuadTree) (p : Point) (t' : QuadTree)
  : Prop :=
  wf C t' /\ boundary t' = boundary t
  /\ all_points t' ≡ₚ
     (if inBoundary (boundary t) p then p :: all_points t else all_points t)
  /\ (inBoundary (boundary t) p = false -> t' = t).

End QuadTree.

(** ** The range query as the specification words it *)

Module RangeSpec.
Import QuadTree.

(** Euclidean distance of a point from the centre of a query circle. *)
Definition distance (p : Point) (range : Range) : R :=
  norm (subtract (px p, py p) (cx range, cy range)).

(** The brute-force filter: the points whose distance from the centre is at
    most the radius. *)
Definition brute_force (range : Range) (ps : list Point) : list Point :=
  List.filter (fun p => Rleb (distance p range) (r range)) ps.

End RangeSpec.

(** ** LightSeed class for managing peers and selecting update recipients *)

Module LightSeed.

(** The configuration after [{ ...DEFAULT_CONFIG, ...config }]. *)
Record Config := mkConfig {
  worldSize : R;   (* World size in meters (square world) *)
  maxDepth : nat;  (* Maximum depth of the quadtree *)
  capacity : nat;  (* Maximum points per quadtree node before subdividing *)
  nCells : R;      (* Maximum cells a player can move per time period *)
  deltaT : R;      (* Time period in seconds *)
  sigma : R;       (* TDF similarity scale *)
  d0 : R;          (* Distance scale in meters *)
  v0 : R;          (* Speed scale in m/s *)
  beta : R;        (* Speed term multiplier *)
  epsilon : R      (* Random selection factor *)
}.

Definition DEFAULT_CONFIG : Config :=
  {| worldSize := 1000; maxDepth := 5; capacity := 4; nCells := 2;
     deltaT := 1; sigma := 1 / 10; d0 := 100; v0 := 5; beta := 1;
     epsilon := 5 / 100 |}.

(** [{ idx, x, y, vx, vy, tdf, latency }] *)
Record Peer := mkPeer {
  idx : nat; x : R; y : R; vx : R; vy : R; tdf : R; latency : R
}.

(** The engine.  The constants that the constructor copies or derives from
    the configuration never change afterwards and are read off [config]. *)
Record LightSeed := mkLightSeed {
  config : Config;
  quadtree : QuadTree.QuadTree;
  peers : list (option Peer)   (* array with holes *)
}.

(** Derived constants *)
Definition cellSize (cfg : Config) : R := worldSize cfg / 2 ^ maxDepth cfg.
(** "Speed of light" in meters per time period *)
Definition c (cfg : Config) : R := nCells cfg * cellSize cfg.
Definition boundary (cfg : Config) : QuadTree.Boundary :=
  QuadTree.mkBoundary 0 0 (worldSize cfg) (worldSize cfg).

(** [new LightSeed(config)] *)
Definition new_LightSeed (cfg : Config) : LightSeed :=
  {| config := cfg;
     quadtree := QuadTree.new_QuadTree (boundary cfg) (capacity cfg);
     peers := [] |}.

(** [arr[i]]: [None] is [undefined], for a hole as for an index past the
    end. *)
Definition array_get {A} (arr : list (option A)) (i : nat) : option A :=
  match arr !! i with
  | Some (Some a) => Some a
  | _ => None
  end.

(** [arr[i] = v]: an index past the end extends the array with holes. *)
Definition array_set {A} (arr : list (option A)) (i : nat) (v : A)
  : list (option A) :=
  <[i := Some v]> (arr ++ replicate (S i - length arr) None).

(** [insertPeer(idx, x, y)].  [None]: the call does not return (the
    quadtree insertion recurses forever). *)
Definition insertPeer (s : LightSeed) (idx : nat) (x y : R) : option LightSeed :=
  let point := QuadTree.mkPoint x y idx in
  match QuadTree.insert (quadtree s) point with
  | None => None
  | Some (qt, _) =>
    Some {| config := config s;
            quadtree := qt;
            peers := array_set (peers s) idx (mkPeer idx x y 0 0 1 0) |}
  end.

(** [this.peers.forEach(peer => { if (peer) this.quadtree.insert(...) })]:
    the holes of the array are skipped. *)
Fixpoint forEach_insert (qt : QuadTree.QuadTree) (ps : list (option Peer))
  : option QuadTree.QuadTree :=
  match ps with
  | [] => Some qt
  | None :: ps => forEach_insert qt ps
  | Some peer :: ps =>
    match QuadTree.insert qt (QuadTree.mkPoint (x peer) (y peer) (idx peer)) with
    | None => None
    | Some (qt, _) => forEach_insert qt ps
    end
  end.

(** [updatePeer(idx, x, y, vx, vy, tdf, latency)] *)
Definition updatePeer (s : LightSeed) (idx : nat) (x y vx vy tdf latency : R)
  : option LightSeed :=
  let peers := array_set (peers s) idx (mkPeer idx x y vx vy tdf latency) in
  (* Rebuild quadtree *)
  let qt := QuadTree.new_QuadTree (boundary (config s)) (capacity (config s)) in
  match forEach_insert qt peers with
  | None => None
  | Some qt => Some {| config := config s; quadtree := qt; peers := peers |}
  end.

(** How a call that returns ends: with a value, or by throwing the TypeError
    of a property read on [undefined]. *)
Inductive completion (A : Type) : Type :=
| Return (a : A)
| TypeError.
Arguments Return {A} a.
Arguments TypeError {A}.

(** The weight of [peer] in the body of the loop of [selectPeers]; [player]
    is [this.peers[playerIdx]]. *)
Definition weight (cfg : Config) (sender player peer : Peer) : R :=
  (* Latency term: inversely proportional to latency *)
  let latencyTerm := 1 / Rmax (latency peer) (1 / 1000) in
  (* TDF similarity term: Gaussian similarity *)
  let tdfDiff := tdf sender - tdf peer in
  let tdfTerm := exp (- (tdfDiff ^ 2) / (2 * sigma cfg ^ 2)) in
  (* Distance term: inverse distance between player and peer *)
  let pk := (x player, y player) in
  let pj := (x peer, y peer) in
  let relPosition := subtract pk pj in
  let dkj := norm relPosition in
  let distanceTerm := 1 / (1 + dkj / d0 cfg) in
  (* Speed term: relative closing speed between player and peer *)
  let skj :=
    if Rltb 0 dkj then
      let vk := (vx player, vy player) in
      let vj := (vx peer, vy peer) in
      let relVelocity := subtract vk vj in
      Rmax 0 (- dot relVelocity relPosition / dkj)
    else 0 in
  let speedTerm := 1 + beta cfg * (skj / v0 cfg) in
  (* Combined weight *)
  latencyTerm * tdfTerm * distanceTerm * speedTerm.

(** The loop [for (let j of peersInRange)], with the array [weights] as the
    accumulator. *)
Fixpoint weights_loop (s : LightSeed) (sender : Peer) (senderIdx playerIdx : nat)
    (peersInRange : list nat) (weights : list R) : completion (list R) :=
  match peersInRange with
  | [] => Return weights
  | j :: rest =>
    if Nat.eqb j senderIdx
    then weights_loop s sender senderIdx playerIdx rest weights (* Skip sender *)
    else
      match array_get (peers s) j with
      | None => weights_loop s sender senderIdx playerIdx rest weights
      | Some peer =>
        match array_get (peers s) playerIdx with
        | None => TypeError
        | Some player =>
          let w := weight (config s) sender player peer in
          weights_loop s sender senderIdx playerIdx rest (weights ++ [w])
        end
      end
  end.

(** [weights.reduce((sum, w) => sum + w, 0) || 1] *)
Definition totalWeight (weights : list R) : R :=
  let total := fold_left Rplus weights 0 in
  if Req_dec_T total 0 then 1 else total.

(** [this.peers.length || 1] *)
Definition length_or_1 {A} (arr : list A) : R :=
  if Nat.eqb (length arr) 0 then 1 else INR (length arr).

(** [arr.filter((el, i) => f(el, i))], the index counted from [i]. *)
Fixpoint filter_index {A} (f : A -> nat -> bool) (i : nat) (arr : list A)
  : list A :=
  match arr with
  | [] => []
  | a :: arr =>
    if f a i then a :: filter_index f (S i) arr else filter_index f (S i) arr
  end.

(** [{ peerIdx, prob }] *)
Record Selection := mkSelection { peerIdx : nat; prob : R }.

(** [selectPeers(senderIdx, playerIdx)]: the engine after the call, and how
    the call ends.  In [probs[i]] the index is always within [probs]; the
    default [0] of [nth] is never read. *)
Definition selectPeers (s : LightSeed) (senderIdx playerIdx : nat)
  : LightSeed * completion (list Selection) :=
  match array_get (peers s) senderIdx with
  | None => (s, Return [])
  | Some sender =>
    (* Query peers within "speed of light" range *)
    let range := QuadTree.mkRange (x sender) (y sender)
                                  (c (config s) * deltaT (config s)) in
    let peersInRange :=
      map QuadTree.pidx (QuadTree.query (quadtree s) range []) in
    match weights_loop s sender senderIdx playerIdx peersInRange [] with
    | TypeError => (s, TypeError)
    | Return weights =>
      (* Normalize weights into probabilities *)
      let totalWeight := totalWeight weights in
      let probs :=
        map (fun w => (1 - epsilon (config s)) * (w / totalWeight)
                      + epsilon (config s) / length_or_1 (peers s)) weights in
      (* Return peers with their selection probabilities *)
      (s, Return
            (imap (fun i peerIdx => mkSelection peerIdx (nth i probs 0))
               (filter_index
                  (fun _ i => bool_decide (is_Some (weights !! i)))
                  0 peersInRange)))
    end
  end.

End LightSeed.

(** ** Notions used to state the properties of the engine *)

Module LightSeedSpec.
Import LightSeed.

(** The participant records of the store, in the order of their slots. *)
Definition live (arr : list (option Peer)) : list Peer :=
  omap (fun slot => slot) arr.

(** The number of participants: the records, not the slots. *)
Definition participant_count (arr : list (option Peer)) : nat :=
  length (live arr).

(** The point under which the rebuild of [updatePeer] indexes a record. *)
Definition point_of (peer : Peer) : QuadTree.Point :=
  QuadTree.mkPoint (x peer) (y peer) (idx peer).

(** A position inside the world [[0, worldSize)] on both axes. *)
Definition in_world (cfg : Config) (px py : R) : Prop :=
  0 <= px < worldSize cfg /\ 0 <= py < worldSize cfg.

(** The causal horizon [R = nCells * cellSize * deltaT]. *)
Definition horizon (cfg : Config) : R := nCells cfg * cellSize cfg * deltaT cfg.

(** Euclidean distance between two positions. *)
Definition distance (x1 y1 x2 y2 : R) : R := norm (subtract (x1, y1) (x2, y2)).

(** What the constructor, [insertPeer] and [updatePeer] keep true of the
    index: it is a quadtree of the configured capacity over the world. *)
Definition index_ok (s : LightSeed) : Prop :=
  QuadTree.wf (capacity (config s)) (quadtree s)
  /\ QuadTree.boundary (quadtree s) = boundary (config s).

(** Every record sits in the slot of its own identifier. *)
Definition slots_ok (arr : list (option Peer)) : Prop :=
  forall i peer, array_get arr i = Some peer -> idx peer = i.

(** The index is current: each of its points is at the position that the
    record of its identifier has now. *)
Definition index_current (s : LightSeed) : Prop :=
  forall q peer,
    q ∈ QuadTree.all_points (quadtree s) ->
    array_get (peers s) (QuadTree.pidx q) = Some peer ->
    x peer = QuadTree.px q /\ y peer = QuadTree.py q.

(** The constants for which the weights are defined and non-negative and the
    exploration constant is a probability. *)
Definition config_ok (cfg : Config) : Prop :=
  0 <= epsilon cfg <= 1 /\ sigma cfg <> 0 /\ 0 < d0 cfg /\ 0 < v0 cfg
  /\ 0 <= beta cfg.

(** The identifiers that [query] returns for the circle around a sender. *)
Definition peersInRange (s : LightSeed) (sender : Peer) : list nat :=
  map QuadTree.pidx
    (QuadTree.query (quadtree s)
       (QuadTree.mkRange (x sender) (y sender)
          (c (config s) * deltaT (config s))) []).

(** The candidates that the loop of [selectPeers] weighs: the identifiers in
    range other than the sender's whose record is present, in query order. *)
Definition candidates (s : LightSeed) (senderIdx : nat) (inRange : list nat)
  : list Peer :=
  omap (array_get (peers s))
    (List.filter (fun j => negb (Nat.eqb j senderIdx)) inRange).

(** The probability formula [(1 - eps) * (w / total) + eps / N]. *)
Definition probability (cfg : Config) (total N w : R) : R :=
  (1 - epsilon cfg) * (w / total) + epsilon cfg / N.

(** The floor property of a returned probability. *)
Definition floor_ok (cfg : Config) (N p : R) : Prop :=
  epsilon cfg / N <= p /\ 0 <= p /\ p <= 1.

End LightSeedSpec.

(** ** Concrete runs *)

Module Scenarios.
Import LightSeed.

(** Two peers 50 m apart in the default world; the sender is inserted
    first. *)
Definition two_peers : option LightSeed :=
  s ← insertPeer (new_LightSeed DEFAULT_CONFIG) 0 100 100;
  insertPeer s 1 150 100.

(** Identifiers 0 and 3 only: the participant array has two holes. *)
Definition sparse_ids : option LightSeed :=
  s ← insertPeer (new_LightSeed DEFAULT_CONFIG) 3 110 100;
  insertPeer s 0 100 100.

(** Peer 1 is inserted next to peer 0 and inserted again far away: the index
    keeps the point of the first insertion. *)
Definition reinserted : option LightSeed :=
  s ← insertPeer (new_LightSeed DEFAULT_CONFIG) 1 110 100;
  s ← insertPeer s 0 100 100;
  insertPeer s 1 900 900.

(** The scenario of the specification: world side 800, the other constants
    at their defaults. *)
Definition config_800 : Config :=
  {| worldSize := 800; maxDepth := 5; capacity := 4; nCells := 2;
     deltaT := 1; sigma := 1 / 10; d0 := 100; v0 := 5; beta := 1;
     epsilon := 5 / 100 |}.

(** Four participants inserted, then each updated in place: participant 0
    with tdf 0.9, the others with tdf 1.0.  The velocities and latencies of
    the updates are the parameters [v] and [lat]. *)
Definition spec_scenario (v : nat -> R * R) (lat : nat -> R) : option LightSeed :=
  s ← insertPeer (new_LightSeed config_800) 0 100 100;
  s ← insertPeer s 1 150 100;
  s ← insertPeer s 2 100 200;
  s ← insertPeer s 3 500 500;
  s ← updatePeer s 0 100 100 (v 0%nat).1 (v 0%nat).2 (9 / 10) (lat 0%nat);
  s ← updatePeer s 1 150 100 (v 1%nat).1 (v 1%nat).2 1 (lat 1%nat);
  s ← updatePeer s 2 100 200 (v 2%nat).1 (v 2%nat).2 1 (lat 2%nat);
  updatePeer s 3 500 500 (v 3%nat).1 (v 3%nat).2 1 (lat 3%nat).

(** The engines that these runs produce. *)
Definition two_peers_state : LightSeed :=
  {| config := DEFAULT_CONFIG;
     quadtree :=
       QuadTree.Leaf (boundary DEFAULT_CONFIG) 4
         [QuadTree.mkPoint 100 100 0; QuadTree.mkPoint 150 100 1];
     peers := [Some (mkPeer 0 100 100 0 0 1 0);
               Some (mkPeer 1 150 100 0 0 1 0)] |}.

Definition sparse_ids_state : LightSeed :=
  {| config := DEFAULT_CONFIG;
     quadtree :=
       QuadTree.Leaf (boundary DEFAULT_CONFIG) 4
         [QuadTree.mkPoint 110 100 3; QuadTree.mkPoint 100 100 0];
     peers := [Some (mkPeer 0 100 100 0 0 1 0); None; None;
               Some (mkPeer 3 110 100 0 0 1 0)] |}.

Definition reinserted_state : LightSeed :=
  {| config := DEFAULT_CONFIG;
     quadtree :=
       QuadTree.Leaf (boundary DEFAULT_CONFIG) 4
         [QuadTree.mkPoint 110 100 1; QuadTree.mkPoint 100 100 0;
          QuadTree.mkPoint 900 900 1];
     peers := [Some (mkPeer 0 100 100 0 0 1 0);
               Some (mkPeer 1 900 900 0 0 1 0)] |}.

Definition spec_scenario_state (v : nat -> R * R) (lat : nat -> R) : LightSeed :=
  {| config := config_800;
     quadtree :=
       QuadTree.Leaf (boundary config_800) 4
         [QuadTree.mkPoint 100 100 0; QuadTree.mkPoint 150 100 1;
          QuadTree.mkPoint 100 200 2; QuadTree.mkPoint 500 500 3];
     peers :=
       [Some (mkPeer 0 100 100 (v 0%nat).1 (v 0%nat).2 (9 / 10) (lat 0%nat));
        Some (mkPeer 1 150 100 (v 1%nat).1 (v 1%nat).2 1 (lat 1%nat));
        Some (mkPeer 2 100 200 (v 2%nat).1 (v 2%nat).2 1 (lat 2%nat));
        Some (mkPeer 3 500 500 (v 3%nat).1 (v 3%nat).2 1 (lat 3%nat))] |}.

End Scenarios.

(** ** Further notions for the engine *)

Module EngineSpec.
Import LightSeed LightSeedSpec.

(** Every point of the index carries the identifier of a record. *)
Definition index_live (s : LightSeed) : Prop :=
  forall q, q ∈ QuadTree.all_points (quadtree s) ->
            is_Some (array_get (peers s) (QuadTree.pidx q)).

(** What holds of every engine that the constructor, [insertPeer] and
    [updatePeer] produce. *)
Definition engine_inv (s : LightSeed) : Prop :=
  index_ok s /\ slots_ok (peers s) /\ index_live s.

(** Sum of a list of numbers. *)
Definition sum (l : list R) : R := fold_right Rplus 0 l.

(** The points of the records whose position is inside the world: what the
    rebuild of [updatePeer] can insert. *)
Definition world_points (cfg : Config) (arr : list (option Peer))
  : list QuadTree.Point :=
  List.filter (QuadTree.inBoundary (boundary cfg)) (map point_of (live arr)).

(** Speed of the subject relative to a peer. *)
Definition relative_speed (player peer : Peer) : R :=
  norm (subtract (vx player, vy player) (vx peer, vy peer)).

(** A record with another latency. *)
Definition with_latency (peer : Peer) (l : R) : Peer :=
  mkPeer (idx peer) (x peer) (y peer) (vx peer) (vy peer) (tdf peer) l.

(** An engine in which the sender's point comes last in query order: peer 1
    was inserted before peer 0. *)
Definition sender_last_state : LightSeed :=
  {| config := DEFAULT_CONFIG;
     quadtree :=
       QuadTree.Leaf (boundary DEFAULT_CONFIG) 4
         [QuadTree.mkPoint 150 100 1; QuadTree.mkPoint 100 100 0];
     peers := [Some (mkPeer 0 100 100 0 0 1 0);
               Some (mkPeer 1 150 100 0 0 1 0)] |}.

End EngineSpec.

(** ** The players of the game ([src/game.js]) *)

Module Game.

(** [class Player]: the fields set by [constructor(id, x, y, isZombie)].
    [infectionTimer] is [null] or a time stamp. *)
Record Player := mkPlayer {
  id : String.string;
  x : R; y : R; vx : R; vy : R;
  isZombie : bool;
  infectionTimer : option R;
  lastUpdate : R
}.

(** [new Player(id, x, y, isZombie)] *)
Definition new_Player (id : String.string) (x y : R) (isZombie : bool) : Player :=
  mkPlayer id x y 0 0 isZombie None 0.

(** [move()]: one step of the velocity, then the clamp to the canvas. *)
Definition move (p : Player) : Player :=
  let x1 := x p + vx p in
  let y1 := y p + vy p in
  mkPlayer (id p) (Rmax 0 (Rmin 800 x1)) (Rmax 0 (Rmin 600 y1))
           (vx p) (vy p) (isZombie p) (infectionTimer p) (lastUpdate p).

End Game.

(** ** The index and the store over any arithmetic

    The modules above read JavaScript numbers as real numbers.  Where the
    result of [insert] depends on how [x + width / 2] is rounded, that
    reading is not the code's: the same definitions are given here over an
    arithmetic that is a parameter, with the real numbers and the binary64
    doubles of JavaScript as its two instances. *)

Module Arith.

(** The operations that the quadtree and the store use on numbers:
    [x + y], [w / 2], [x >= y] (as [leb y x]) and [x < y]. *)
Record Arith := mkArith {
  num : Type;
  zero : num;
  one : num;
  add : num -> num -> num;
  half : num -> num;
  leb : num -> num -> bool;
  ltb : num -> num -> bool
}.

(** Exact arithmetic. *)
Definition reals : Arith :=
  mkArith R 0 1 Rplus (fun w => w / 2) Rleb Rltb.

(** IEEE 754 binary64 with round-to-nearest-even: the numbers of
    JavaScript. *)
Definition doubles : Arith :=
  mkArith PrimFloat.float PrimFloat.zero PrimFloat.one PrimFloat.add
          (fun w => PrimFloat.div w PrimFloat.two)
          PrimFloat.leb PrimFloat.ltb.

(** [x < y] excludes [y <= x]: what the comparisons of both arithmetics
    satisfy, and all that the index needs of them for its quadrants not to
    overlap. *)
Definition ordered (A : Arith) : Prop :=
  forall a b, ltb A a b = true -> leb A b a = false.

End Arith.

Module QuadTreeA.
Import Arith.

Section Over.
Context (A : Arith).

(** [{ x, y, width, height }] *)
Record Boundary := mkBoundary {
  bx : num A; by_ : num A; width : num A; height : num A
}.

(** [{ x, y, idx }] *)
Record Point := mkPoint { px : num A; py : num A; pidx : nat }.

(** A node: [Leaf] has [divided = false], [Quad] has [divided = true] and
    the four children; both keep the node's own [points]. *)
Inductive QuadTree : Type :=
| Leaf (boundary : Boundary) (capacity : nat) (points : list Point)
| Quad (boundary : Boundary) (capacity : nat) (points : list Point)
       (northwest northeast southwest southeast : QuadTree).

Definition boundary (t : QuadTree) : Boundary :=
  match t with Leaf b _ _ | Quad b _ _ _ _ _ _ => b end.
Definition capacity (t : QuadTree) : nat :=
  match t with Leaf _ c _ | Quad _ c _ _ _ _ _ => c end.
Definition points (t : QuadTree) : list Point :=
  match t with Leaf _ _ ps | Quad _ _ ps _ _ _ _ => ps end.
Definition divided (t : QuadTree) : bool :=
  match t with Leaf _ _ _ => false | Quad _ _ _ _ _ _ _ => true end.

(** [new QuadTree(boundary, capacity)] *)
Definition new_QuadTree (b : Boundary) (c : nat) : QuadTree := Leaf b c [].

(** [inBoundary(point)]:
    [point.x >= x && point.x < x + width && point.y >= y && point.y < y + height] *)
Definition inBoundary (b : Boundary) (p : Point) : bool :=
  leb A (bx b) (px p) && ltb A (px p) (add A (bx b) (width b))
  && leb A (by_ b) (py p) && ltb A (py p) (add A (by_ b) (height b)).

(** The four boundaries made by [subdivide()], in the order NW, NE, SW, SE. *)
Definition quadrants (b : Boundary)
  : Boundary * Boundary * Boundary * Boundary :=
  let halfWidth := half A (width b) in
  let halfHeight := half A (height b) in
  (mkBoundary (bx b) (by_ b) halfWidth halfHeight,
   mkBoundary (add A (bx b) halfWidth) (by_ b) halfWidth halfHeight,
   mkBoundary (bx b) (add A (by_ b) halfHeight) halfWidth halfHeight,
   mkBoundary (add A (bx b) halfWidth) (add A (by_ b) halfHeight)
              halfWidth halfHeight).

(** [subdivide()]: the four fresh children. *)
Definition subdivide (b : Boundary) (c : nat)
  : QuadTree * QuadTree * QuadTree * QuadTree :=
  let '(bnw, bne, bsw, bse) := quadrants b in
  (new_QuadTree bnw c, new_QuadTree bne c, new_QuadTree bsw c, new_QuadTree bse c).

(** [this.points.push(point)] *)
Definition push_point (t : QuadTree) (point : Point) : QuadTree :=
  match t with
  | Leaf b c ps => Leaf b c (ps ++ [point])
  | Quad b c ps nw ne sw se => Quad b c (ps ++ [point]) nw ne sw se
  end.

(** [this.northwest.insert(point) || ... || this.southeast.insert(point)] *)
Definition insert_children (ins : QuadTree -> option (QuadTree * bool))
    (b : Boundary) (c : nat) (ps : list Point) (nw ne sw se : QuadTree)
  : option (QuadTree * bool) :=
  match ins nw with
  | None => None
  | Some (nw, true) => Some (Quad b c ps nw ne sw se, true)
  | Some (nw, false) =>
  match ins ne with
  | None => None
  | Some (ne, true) => Some (Quad b c ps nw ne sw se, true)
  | Some (ne, false) =>
  match ins sw with
  | None => None
  | Some (sw, true) => Some (Quad b c ps nw ne sw se, true)
  | Some (sw, false) =>
  match ins se with
  | None => None
  | Some (se, res) => Some (Quad b c ps nw ne sw se, res)
  end end end end.

(** [insert(point)]: the node after the call and the returned boolean;
    [None] when the fuel runs out. *)
Fixpoint insert_fuel (fuel : nat) (t : QuadTree) (point : Point)
  : option (QuadTree * bool) :=
  match fuel with
  | O => None
  | S fuel =>
    if negb (inBoundary (boundary t) point) then Some (t, false)
    else if (Nat.ltb (length (points t)) (capacity t)) && negb (divided t)
    then Some (push_point t point, true)
    else
      let '(nw, ne, sw, se) :=
        match t with
        | Leaf b c _ => subdivide b c
        | Quad _ _ _ nw ne sw se => (nw, ne, sw, se)
        end in
      insert_children (fun child => insert_fuel fuel child point)
        (boundary t) (capacity t) (points t) nw ne sw se
  end.

(** Number of levels below a node. *)
Fixpoint depth (t : QuadTree) : nat :=
  match t with
  | Leaf _ _ _ => O
  | Quad _ _ _ nw ne sw se =>
    S (Nat.max (Nat.max (depth nw) (depth ne)) (Nat.max (depth sw) (depth se)))
  end.

(** The fuel of a call.  With a positive capacity: the levels that exist,
    one level that the call may create, and the call on the node itself.
    With capacity 0 every level creates the next one until the regions are
    empty: 4096 levels, more than the 2100 halvings that bring the largest
    double down to 0. *)
Definition fuel_of (t : QuadTree) : nat :=
  match capacity t with
  | O => 4096 + depth t
  | S _ => S (S (depth t))
  end.

(** [insert(point)]; [None] stands for a recursion that does not return. *)
Definition insert (t : QuadTree) (point : Point) : option (QuadTree * bool) :=
  insert_fuel (fuel_of t) t point.

(** Every point held in the tree: own points, then NW, NE, SW, SE. *)
Fixpoint all_points (t : QuadTree) : list Point :=
  match t with
  | Leaf _ _ ps => ps
  | Quad _ _ ps nw ne sw se =>
    ps ++ all_points nw ++ all_points ne ++ all_points sw ++ all_points se
  end.

(** Inserting a sequence of points; the second component lists the points
    whose [insert] returned true. *)
Fixpoint insert_all (t : QuadTree) (ps : list Point)
  : option (QuadTree * list Point) :=
  match ps with
  | [] => Some (t, [])
  | p :: ps =>
    match insert t p with
    | None => None
    | Some (t, ok) =>
      match insert_all t ps with
      | None => None
      | Some (t, acc) => Some (t, if ok then p :: acc else acc)
      end
    end
  end.

(** Shape of the trees that [new QuadTree] and [insert] build with capacity
    [C], in every arithmetic: every node has capacity [C]; a leaf holds at
    most [C] points; a divided node kept its [C] points and its children have
    the boundaries that [subdivide()] computed. *)
Inductive wf (C : nat) : QuadTree -> Prop :=
| wf_Leaf b ps :
    (length ps <= C)%nat -> wf C (Leaf b C ps)
| wf_Quad b ps nw ne sw se :
    length ps = C ->
    (boundary nw, boundary ne, boundary sw, boundary se) = quadrants b ->
    wf C nw -> wf C ne -> wf C sw -> wf C se ->
    wf C (Quad b C ps nw ne sw se).

(** The point lies in one of the four regions that [subdivide()] computes
    for the region [b]. *)
Definition in_quadrants (b : Boundary) (p : Point) : bool :=
  let '(bnw, bne, bsw, bse) := quadrants b in
  inBoundary bnw p || inBoundary bne p || inBoundary bsw p || inBoundary bse p.

(** The arithmetic tiles: every point of a region lies in one of the four
    quadrants computed for it. *)
Definition tiling : Prop :=
  forall b p, inBoundary b p = true -> in_quadrants b p = true.

(** The points that a node takes: those of its region for which the descent
    ends in a leaf with room, a full leaf taking the points that one of its
    four quadrants contains. *)
Fixpoint accepts (t : QuadTree) (p : Point) : bool :=
  match t with
  | Leaf b c ps =>
    inBoundary b p && (Nat.ltb (length ps) c || in_quadrants b p)
  | Quad b _ _ nw ne sw se =>
    inBoundary b p
    && (accepts nw p || accepts ne p || accepts sw p || accepts se p)
  end.

(** Every point below a node lies in the node's region, at every level: a
    point is stored only after [inBoundary] let it pass at each node on its
    way down. *)
Fixpoint enclosed (t : QuadTree) : Prop :=
  Forall (fun q => inBoundary (boundary t) q = true) (all_points t)
  /\ match t with
     | Leaf _ _ _ => True
     | Quad _ _ _ nw ne sw se =>
       enclosed nw /\ enclosed ne /\ enclosed sw /\ enclosed se
     end.

(** What one [insert] does, whatever the arithmetic: [t'] and [res] are the
    node after the call and the returned boolean. *)
Definition insert_outcome (C : nat) (t : QuadTree) (p : Point)
    (t' : QuadTree) (res : bool) : Prop :=
  wf C t' /\ boundary t' = boundary t
  /\ (inBoundary (boundary t) p = false -> t' = t)
  /\ (res = true -> all_points t' ≡ₚ p :: all_points t)
  /\ (res = false -> all_points t' = all_points t)
  /\ (depth t <= depth t')%nat
  /\ (enclosed t -> enclosed t').

End Over.

Arguments mkBoundary {A}.
Arguments mkPoint {A}.
Arguments Leaf {A}.
Arguments Quad {A}.
Arguments boundary {A}.
Arguments capacity {A}.
Arguments points {A}.
Arguments divided {A}.
Arguments new_QuadTree {A}.
Arguments inBoundary {A}.
Arguments quadrants {A}.
Arguments subdivide {A}.
Arguments push_point {A}.
Arguments insert_children {A}.
Arguments insert_fuel {A}.
Arguments depth {A}.
Arguments fuel_of {A}.
Arguments insert {A}.
Arguments all_points {A}.
Arguments insert_all {A}.
Arguments wf {A}.
Arguments insert_outcome {A}.
Arguments in_quadrants {A}.
Arguments accepts {A}.
Arguments enclosed {A}.
Arguments bx {A}.
Arguments by_ {A}.
Arguments width {A}.
Arguments height {A}.
Arguments px {A}.
Arguments py {A}.
Arguments pidx {A}.

End QuadTreeA.

Module LightSeedA.
Import Arith.

Section Over.
Context (A : Arith).

(** [{ idx, x, y, vx, vy, tdf, latency }] *)
Record Peer := mkPeer {
  idx : nat; x : num A; y : num A; vx : num A; vy : num A;
  tdf : num A; latency : num A
}.

(** The engine as far as [insertPeer] and [updatePeer] read and write it:
    the two constants [worldSize] and [capacity], the index and the store. *)
Record LightSeed := mkLightSeed {
  worldSize : num A;
  capacity : nat;
  quadtree : QuadTreeA.QuadTree A;
  peers : list (option Peer)
}.

(** [this.boundary = { x: 0, y: 0, width: worldSize, height: worldSize }] *)
Definition boundary (worldSize : num A) : QuadTreeA.Boundary A :=
  QuadTreeA.mkBoundary (zero A) (zero A) worldSize worldSize.

(** The engine that the constructor builds. *)
Definition new_LightSeed (worldSize : num A) (capacity : nat) : LightSeed :=
  mkLightSeed worldSize capacity
    (QuadTreeA.new_QuadTree (boundary worldSize) capacity) [].

(** [insertPeer(idx, x, y)] *)
Definition insertPeer (s : LightSeed) (idx : nat) (x y : num A)
  : option LightSeed :=
  let point := QuadTreeA.mkPoint x y idx in
  match QuadTreeA.insert (quadtree s) point with
  | None => None
  | Some (qt, _) =>
    Some (mkLightSeed (worldSize s) (capacity s) qt
            (LightSeed.array_set (peers s) idx
               (mkPeer idx x y (zero A) (zero A) (one A) (zero A))))
  end.

(** The point under which the rebuild indexes a record. *)
Definition point_of (peer : Peer) : QuadTreeA.Point A :=
  QuadTreeA.mkPoint (x peer) (y peer) (idx peer).

(** [this.peers.forEach(peer => { if (peer) this.quadtree.insert(...) })] *)
Fixpoint forEach_insert (qt : QuadTreeA.QuadTree A) (ps : list (option Peer))
  : option (QuadTreeA.QuadTree A) :=
  match ps with
  | [] => Some qt
  | None :: ps => forEach_insert qt ps
  | Some peer :: ps =>
    match QuadTreeA.insert qt
            (QuadTreeA.mkPoint (x peer) (y peer) (idx peer)) with
    | None => None
    | Some (qt, _) => forEach_insert qt ps
    end
  end.

(** [updatePeer(idx, x, y, vx, vy, tdf, latency)] *)
Definition updatePeer (s : LightSeed) (idx : nat)
    (x y vx vy tdf latency : num A) : option LightSeed :=
  let peers :=
    LightSeed.array_set (peers s) idx (mkPeer idx x y vx vy tdf latency) in
  let qt := QuadTreeA.new_QuadTree (boundary (worldSize s)) (capacity s) in
  match forEach_insert qt peers with
  | None => None
  | Some qt => Some (mkLightSeed (worldSize s) (capacity s) qt peers)
  end.

(** The participant records of the store, in the order of their slots. *)
Definition live (arr : list (option Peer)) : list Peer :=
  omap (fun slot => slot) arr.

(** The points of the records whose position is inside the world. *)
Definition world_points (worldSize : num A) (arr : list (option Peer))
  : list (QuadTreeA.Point A) :=
  List.filter (QuadTreeA.inBoundary (boundary worldSize))
    (map point_of (live arr)).

(** Every record sits in the slot of its own identifier. *)
Definition slots_ok (arr : list (option Peer)) : Prop :=
  forall i peer, LightSeed.array_get arr i = Some peer -> idx peer = i.

(** The index is a quadtree over the world, built by the constructor and
    [insert] with the engine's capacity. *)
Definition index_ok (s : LightSeed) : Prop :=
  QuadTreeA.wf (capacity s) (quadtree s)
  /\ QuadTreeA.boundary (quadtree s) = boundary (worldSize s).

End Over.

Arguments mkPeer {A}.
Arguments mkLightSeed {A}.
Arguments worldSize {A}.
Arguments capacity {A}.
Arguments quadtree {A}.
Arguments peers {A}.
Arguments boundary {A}.
Arguments new_LightSeed {A}.
Arguments insertPeer {A}.
Arguments point_of {A}.
Arguments forEach_insert {A}.
Arguments updatePeer {A}.
Arguments live {A}.
Arguments world_points {A}.
Arguments slots_ok {A}.
Arguments index_ok {A}.
Arguments idx {A}.
Arguments x {A}.
Arguments y {A}.

End LightSeedA.

(** ** Runs in doubles *)

Module DoubleRuns.
Import Arith.
Import PrimFloat.
Local Open Scope float_scope.

(** The region [[0, 8)] by [[0, 8)]. *)
Definition region : QuadTreeA.Boundary doubles :=
  QuadTreeA.mkBoundary (A := doubles) 0 0 8 8.

(** The square of side 4 with corner [(x, y)]: a quadrant of [region]. *)
Definition quarter (x y : float) : QuadTreeA.Boundary doubles :=
  QuadTreeA.mkBoundary (A := doubles) x y 4 4.

(** The four quadrants of [region]. *)
Definition region_nw : QuadTreeA.Boundary doubles := quarter 0 0.
Definition region_ne : QuadTreeA.Boundary doubles := quarter 4 0.
Definition region_sw : QuadTreeA.Boundary doubles := quarter 0 4.
Definition region_se : QuadTreeA.Boundary doubles := quarter 4 4.

(** The region [[1, 1 + 2^-52)] by [[1, 1 + 2^-52)]: its only position is
    (1, 1), and 1 + 2^-53 is not a double. *)
Definition narrow : QuadTreeA.Boundary doubles :=
  QuadTreeA.mkBoundary (A := doubles) 1 1 0x1p-52 0x1p-52.

(** The world of [game.js], 800 by 800. *)
Definition world_800 : QuadTreeA.Boundary doubles :=
  QuadTreeA.mkBoundary (A := doubles) 0 0 800 800.

(** The point [(x, y)] with identifier [i]. *)
Definition point (x y : float) (i : nat) : QuadTreeA.Point doubles :=
  QuadTreeA.mkPoint (A := doubles) x y i.

(** The point (1, 1) with identifier [i]. *)
Definition at_1_1 (i : nat) : QuadTreeA.Point doubles := point 1 1 i.

(** The point (400, 300), where [game.js] puts a new player. *)
Definition at_400_300 : QuadTreeA.Point doubles := point 400 300 0.

(** The coordinates 5 and 9. *)
Definition five : num doubles := 5.
Definition nine : num doubles := 9.

(** [n] points on (1, 1), with the identifiers [0] to [n - 1]. *)
Definition stack (n : nat) : list (QuadTreeA.Point doubles) :=
  map at_1_1 (seq 0 n).

(** The points (1, 1), (2, 2) and (5, 5). *)
Definition three_points : list (QuadTreeA.Point doubles) :=
  [point 1 1 0; point 2 2 1; point 5 5 2].

(** The tree that inserting [three_points] into the fresh tree over [region]
    with capacity 1 builds: the root keeps (1, 1), NW takes (2, 2) and SE
    takes (5, 5). *)
Definition three_tree : QuadTreeA.QuadTree doubles :=
  QuadTreeA.Quad region 1 [point 1 1 0]
    (QuadTreeA.Leaf (quarter 0 0) 1 [point 2 2 1])
    (QuadTreeA.Leaf (quarter 4 0) 1 [])
    (QuadTreeA.Leaf (quarter 0 4) 1 [])
    (QuadTreeA.Leaf (quarter 4 4) 1 [point 5 5 2]).

(** The record of [i] at [(x, y)], at rest. *)
Definition peer (i : nat) (x y : float) : LightSeedA.Peer doubles :=
  LightSeedA.mkPeer (A := doubles) i x y 0 0 1 0.

(** The engine of world side 8 and capacity 1 after [updatePeer(0, 1, 1, 0, 0,
    1, 0)] and [updatePeer(1, 2, 2, 0, 0, 1, 0)]. *)
Definition pair_state : LightSeedA.LightSeed doubles :=
  LightSeedA.mkLightSeed (A := doubles) 8 1
    (QuadTreeA.Quad region 1 [point 1 1 0]
       (QuadTreeA.Leaf (quarter 0 0) 1 [point 2 2 1])
       (QuadTreeA.Leaf (quarter 4 0) 1 [])
       (QuadTreeA.Leaf (quarter 0 4) 1 [])
       (QuadTreeA.Leaf (quarter 4 4) 1 []))
    [Some (peer 0 1 1); Some (peer 1 2 2)].

(** The two calls that build [pair_state]. *)
Definition pair_run : option (LightSeedA.LightSeed doubles) :=
  match LightSeedA.updatePeer (A := doubles)
          (LightSeedA.new_LightSeed (A := doubles) 8 1) 0 1 1 0 0 1 0 with
  | None => None
  | Some s => LightSeedA.updatePeer (A := doubles) s 1 2 2 0 0 1 0
  end.

(** A fresh engine with world side 8 and capacity [c], then [updatePeer(i, 1,
    1, 0, 0, 1, 0)] for [i] from [0] to [n - 1]. *)
Fixpoint crowd (c n : nat) : option (LightSeedA.LightSeed doubles) :=
  match n with
  | O => Some (LightSeedA.new_LightSeed (A := doubles) 8 c)
  | S n =>
    match crowd c n with
    | None => None
    | Some s => LightSeedA.updatePeer (A := doubles) s n 1 1 0 0 1 0
    end
  end.

End DoubleRuns.

(** * Properties *)

(** ** Comparisons *)

Lemma Rleb_le a b : Rleb a b = true <-> a <= b.
Proof. unfold Rleb. destruct (Rle_dec a b); split; intros; try done. Qed.

Lemma Rltb_lt a b : Rltb a b = true <-> a < b.
Proof. unfold Rltb. destruct (Rlt_dec a b); split; intros; try done. Qed.

Lemma Rleb_true a b : a <= b -> Rleb a b = true.
Proof. apply Rleb_le. Qed.

Lemma Rleb_false a b : b < a -> Rleb a b = false.
Proof. intros H. destruct (Rleb a b) eqn:E; [apply Rleb_le in E; lra | done]. Qed.

Lemma Rltb_true a b : a < b -> Rltb a b = true.
Proof. apply Rltb_lt. Qed.

Lemma Rltb_false a b : b <= a -> Rltb a b = false.
Proof. intros H. destruct (Rltb a b) eqn:E; [apply Rltb_lt in E; lra | done]. Qed.

(** Deciding the comparisons of a run on given numbers. *)
Ltac Rcompare :=
  repeat first
    [ rewrite Rleb_true by lra | rewrite Rleb_false by lra
    | rewrite Rltb_true by lra | rewrite Rltb_false by lra
    | rewrite Rmax_left by lra | rewrite Rmax_right by lra
    | rewrite Rmin_left by lra | rewrite Rmin_right by lra ].

(** Running the quadtree and the engine on given points; the weights are
    left as they are. *)
Ltac run :=
  repeat progress
    (cbn -[Rleb Rltb Rmax Rmin LightSeed.weight];
     unfold QuadTree.inBoundary, QuadTree.insert_children,
            QuadTree.new_QuadTree, QuadTree.intersects,
            QuadTree.pointInRange, LightSeed.c, LightSeed.cellSize;
     cbn -[Rleb Rltb Rmax Rmin LightSeed.weight]; Rcompare).

Module QuadTreeTheory.
Import QuadTree.

(** ** Geometry of regions *)

Lemma inBoundary_iff b p :
  inBoundary b p = true <->
  bx b <= px p /\ px p < bx b + width b /\ by_ b <= py p /\ py p < by_ b + height b.
Proof.
  unfold inBoundary. rewrite !andb_true_iff, !Rleb_le, !Rltb_lt. tauto.
Qed.

Lemma inBoundary_false_iff b p :
  inBoundary b p = false <->
  ~ (bx b <= px p /\ px p < bx b + width b
     /\ by_ b <= py p /\ py p < by_ b + height b).
Proof. rewrite <- inBoundary_iff. destruct (inBoundary b p); split; intros; try done. Qed.

(** The four quadrants tile the parent's region: a point of the parent lies in
    exactly one of them. *)
Lemma quadrants_tile b p bnw bne bsw bse :
  quadrants b = (bnw, bne, bsw, bse) ->
  inBoundary b p = true ->
  (inBoundary bnw p = true /\ inBoundary bne p = false
   /\ inBoundary bsw p = false /\ inBoundary bse p = false)
  \/ (inBoundary bnw p = false /\ inBoundary bne p = true
      /\ inBoundary bsw p = false /\ inBoundary bse p = false)
  \/ (inBoundary bnw p = false /\ inBoundary bne p = false
      /\ inBoundary bsw p = true /\ inBoundary bse p = false)
  \/ (inBoundary bnw p = false /\ inBoundary bne p = false
      /\ inBoundary bsw p = false /\ inBoundary bse p = true).
Proof.
  unfold quadrants. intros [= <- <- <- <-] Hp.
  apply inBoundary_iff in Hp. destruct Hp as (H1 & H2 & H3 & H4).
  rewrite !inBoundary_iff, !inBoundary_false_iff. simpl.
  destruct (Rlt_dec (px p) (bx b + width b / 2)),
           (Rlt_dec (py p) (by_ b + height b / 2)).
  - left. repeat split; lra.
  - right; right; left. repeat split; lra.
  - right; left. repeat split; lra.
  - right; right; right. repeat split; lra.
Qed.

(** A point of a quadrant is a point of the parent. *)
Lemma quadrants_sub b p bnw bne bsw bse :
  quadrants b = (bnw, bne, bsw, bse) ->
  inBoundary bnw p = true \/ inBoundary bne p = true
  \/ inBoundary bsw p = true \/ inBoundary bse p = true ->
  inBoundary b p = true.
Proof.
  unfold quadrants. intros [= <- <- <- <-].
  rewrite !inBoundary_iff. simpl. intros H. repeat split; lra.
Qed.

(** ** What one [insert] does *)

Lemma insert_fuel_outside fuel t p :
  inBoundary (boundary t) p = false ->
  insert_fuel (S fuel) t p = Some (t, false).
Proof. intros H. simpl. rewrite H. done. Qed.

Lemma insert_outcome_outside C t p :
  wf C t -> inBoundary (boundary t) p = false -> insert_outcome C t p t.
Proof. intros Hwf H. unfold insert_outcome. rewrite H. done. Qed.

(** The [||] chain over four children that each behave as [insert_outcome]
    says. *)
Lemma insert_chain C ins b ps p nw ne sw se :
  length ps = C ->
  Forall (fun q => inBoundary b q = true) ps ->
  (boundary nw, boundary ne, boundary sw, boundary se) = quadrants b ->
  inBoundary b p = true ->
  (forall c, c ∈ [nw; ne; sw; se] ->
     exists c', ins c = Some (c', inBoundary (boundary c) p)
                /\ insert_outcome C c p c') ->
  exists t',
    insert_children ins b C ps nw ne sw se = Some (t', true)
    /\ insert_outcome C (Quad b C ps nw ne sw se) p t'.
Proof.
  intros Hlen Hps Hq Hp Hc.
  destruct (Hc nw) as (nw' & Enw & Wnw & Bnw & Pnw & Unw); [repeat constructor|].
  destruct (Hc ne) as (ne' & Ene & Wne & Bne & Pne & Une); [repeat constructor|].
  destruct (Hc sw) as (sw' & Esw & Wsw & Bsw & Psw & Usw); [repeat constructor|].
  destruct (Hc se) as (se' & Ese & Wse & Bse & Pse & Use); [repeat constructor|].
  unfold insert_children. rewrite Enw, Ene, Esw, Ese.
  assert (Hq' : (boundary nw', boundary ne', boundary sw', boundary se')
                = quadrants b) by (rewrite Bnw, Bne, Bsw, Bse; done).
  unfold insert_outcome. simpl boundary. rewrite Hp.
  destruct (quadrants_tile b p _ _ _ _ (eq_sym Hq) Hp)
    as [(T1 & T2 & T3 & T4) | [(T1 & T2 & T3 & T4)
       | [(T1 & T2 & T3 & T4) | (T1 & T2 & T3 & T4)]]];
    rewrite T1, T2, T3, T4 in *.
  all: repeat match goal with
       | H : false = false -> ?a = _ |- _ => specialize (H eq_refl); subst a
       end.
  all: eexists; (split; [reflexivity|]); repeat split; try done.
  all: try (constructor; try done; congruence).
  all: simpl; rewrite ?Pnw, ?Pne, ?Psw, ?Pse; solve_Permutation.
Qed.

(** A leaf with room takes a point of its region at once. *)
Lemma insert_fuel_leaf_room C fuel b ps p :
  (length ps < C)%nat ->
  Forall (fun q => inBoundary b q = true) ps ->
  exists t', insert_fuel (S fuel) (Leaf b C ps) p
             = Some (t', inBoundary b p)
             /\ insert_outcome C (Leaf b C ps) p t'.
Proof.
  intros Hlen Hps. simpl. destruct (inBoundary b p) eqn:Hp; simpl.
  - apply Nat.ltb_lt in Hlen. rewrite Hlen. simpl.
    eexists; split; [reflexivity|]. unfold insert_outcome. simpl. rewrite Hp.
    repeat split; try done.
    + constructor.
      * rewrite length_app. simpl. apply Nat.ltb_lt in Hlen. lia.
      * apply Forall_app. split; [done|]. repeat constructor. done.
    + solve_Permutation.
  - eexists; split; [reflexivity|].
    apply insert_outcome_outside; [|done].
    constructor; [lia|done].
Qed.

(** With positive capacity and fuel for the levels of the tree plus two,
    [insert] returns, and its outcome is [insert_outcome]. *)
Lemma insert_fuel_spec C t :
  (1 <= C)%nat -> wf C t ->
  forall fuel p, (depth t + 2 <= fuel)%nat ->
  exists t', insert_fuel fuel t p = Some (t', inBoundary (boundary t) p)
             /\ insert_outcome C t p t'.
Proof.
  intros HC Hwf. induction Hwf as [b ps Hlen Hps|b ps nw ne sw se Hlen Hps Hq
    Wnw IHnw Wne IHne Wsw IHsw Wse IHse]; intros fuel p Hfuel.
  - destruct fuel as [|fuel]; [simpl in Hfuel; lia|]. simpl boundary.
    destruct (Nat.ltb (length ps) C) eqn:Hroom.
    { apply insert_fuel_leaf_room; [by apply Nat.ltb_lt|done]. }
    destruct (inBoundary b p) eqn:Hp.
    2:{ eexists; split; [by apply insert_fuel_outside|].
        apply insert_outcome_outside; [by constructor|done]. }
    apply Nat.ltb_ge in Hroom.
    cbn [insert_fuel boundary points capacity divided]. rewrite Hp.
    replace (Nat.ltb (length ps) C) with false
      by (symmetry; by apply Nat.ltb_ge).
    cbn [negb andb]. unfold subdivide.
    destruct (quadrants b) as [[[bnw bne] bsw] bse] eqn:Eq.
    destruct (insert_chain C (fun child => insert_fuel fuel child p) b ps p
                (new_QuadTree bnw C) (new_QuadTree bne C)
                (new_QuadTree bsw C) (new_QuadTree bse C))
      as (t' & E & Hout); try done.
    + lia.
    + intros c Hc. destruct fuel as [|fuel]; [simpl in Hfuel; lia|].
      rewrite !elem_of_cons in Hc.
      destruct Hc as [->|[->|[->|[->|Hc]]]];
        try (apply insert_fuel_leaf_room; [simpl; lia|constructor]).
      by apply elem_of_nil in Hc.
    + rewrite E. eexists; split; [reflexivity|].
      destruct Hout as (W & B & P & U). repeat split; try done.
      * simpl in P |- *. rewrite Hp in P |- *. rewrite P, app_nil_r. done.
      * simpl. rewrite Hp. done.
  - destruct fuel as [|fuel]; [simpl in Hfuel; lia|]. simpl boundary.
    destruct (inBoundary b p) eqn:Hp.
    2:{ eexists; split; [by apply insert_fuel_outside|].
        apply insert_outcome_outside; [by constructor|done]. }
    cbn [insert_fuel boundary points capacity divided]. rewrite Hp.
    rewrite andb_false_r. cbn [negb].
    destruct (insert_chain C (fun child => insert_fuel fuel child p)
                b ps p nw ne sw se)
      as (t' & E & Hout); try done.
    + intros c Hc. simpl in Hfuel. rewrite !elem_of_cons in Hc.
      destruct Hc as [->|[->|[->|[->|Hc]]]];
        [apply IHnw|apply IHne|apply IHsw|apply IHse|by apply elem_of_nil in Hc];
        lia.
    + rewrite E. eexists; split; [reflexivity|].
      exact Hout.
Qed.

Lemma insert_spec C t p :
  (1 <= C)%nat -> wf C t ->
  exists t', insert t p = Some (t', inBoundary (boundary t) p)
             /\ insert_outcome C t p t'.
Proof. intros HC Hwf. apply insert_fuel_spec; [done|done|lia]. Qed.

Lemma wf_new_QuadTree b C : wf C (new_QuadTree b C).
Proof. constructor; [simpl; lia|constructor]. Qed.

Lemma insert_all_spec C ps :
  (1 <= C)%nat ->
  forall t, wf C t ->
  exists t' acc,
    insert_all t ps = Some (t', acc)
    /\ wf C t' /\ boundary t' = boundary t
    /\ acc = List.filter (inBoundary (boundary t)) ps
    /\ all_points t' ≡ₚ all_points t ++ acc.
Proof.
  intros HC. induction ps as [|p ps IH]; intros t Hwf.
  - exists t, []. simpl. rewrite app_nil_r. done.
  - destruct (insert_spec C t p HC Hwf) as (t1 & E1 & W1 & B1 & P1 & _).
    destruct (IH t1 W1) as (t2 & acc & E2 & W2 & B2 & A2 & P2).
    simpl. rewrite E1, E2. do 2 eexists. split; [reflexivity|].
    rewrite B1 in B2, A2. repeat split; try done.
    + rewrite <- A2. done.
    + rewrite P2, P1. destruct (inBoundary (boundary t) p); solve_Permutation.
Qed.

(** ** What [query] returns *)

Lemma wf_all_points_in C t :
  wf C t -> Forall (fun p => inBoundary (boundary t) p = true) (all_points t).
Proof.
  induction 1 as [b ps Hlen Hps|b ps nw ne sw se Hlen Hps Hq
    Wnw IHnw Wne IHne Wsw IHsw Wse IHse]; simpl; [done|].
  rewrite !Forall_app. repeat split; [done|..];
    (eapply Forall_impl; [eassumption|]); intros p Hp; simpl in Hp;
    (eapply quadrants_sub; [symmetry; exact Hq|]); auto.
Qed.

(** The closest point of a region to the centre of the circle is at least as
    close as any point of the region, so a region that [intersects] rejects
    holds no point of the circle. *)
Lemma intersects_sound b p range :
  inBoundary b p = true -> pointInRange p range = true ->
  intersects b range = true.
Proof.
  unfold pointInRange, intersects. rewrite inBoundary_iff, !Rleb_le.
  intros (H1 & H2 & H3 & H4) Hin.
  set (X := Rmax (bx b) (Rmin (cx range) (bx b + width b))).
  set (Y := Rmax (by_ b) (Rmin (cy range) (by_ b + height b))).
  assert (HX : (X - cx range) * (X - cx range)
               <= (px p - cx range) * (px p - cx range)).
  { assert (cx range <= X <= px p \/ px p <= X <= cx range) as [Hb|Hb]
      by (subst X; unfold Rmax, Rmin; repeat destruct (Rle_dec _ _); lra);
      nra. }
  assert (HY : (Y - cy range) * (Y - cy range)
               <= (py p - cy range) * (py p - cy range)).
  { assert (cy range <= Y <= py p \/ py p <= Y <= cy range) as [Hb|Hb]
      by (subst Y; unfold Rmax, Rmin; repeat destruct (Rle_dec _ _); lra);
      nra. }
  lra.
Qed.

Lemma query_found t range found :
  query t range found = found ++ query t range [].
Proof.
  revert found. induction t as [b c ps|b c ps nw IHnw ne IHne sw IHsw se IHse];
    intros found; simpl; destruct (intersects b range); simpl;
    rewrite ?app_nil_r; try done.
  rewrite (IHse (query sw _ _)), (IHsw (query ne _ _)), (IHne (query nw _ _)),
          (IHnw (found ++ _)).
  rewrite (IHse (query sw _ (query ne _ (query nw _ _)))),
          (IHsw (query ne _ (query nw _ _))), (IHne (query nw _ _)),
          (IHnw (List.filter _ ps)).
  rewrite !app_assoc. done.
Qed.

Lemma filter_all_false {A} (f : A -> bool) (l : list A) :
  Forall (fun a => f a = false) l -> List.filter f l = [].
Proof.
  induction 1 as [|a l Ha _ IH]; simpl; [done|]. rewrite Ha. done.
Qed.

(** On a tree built by [insert], [query] returns the points of the tree that
    pass [pointInRange], in the order in which the tree holds them. *)
Lemma query_filter C t range :
  wf C t ->
  query t range [] = List.filter (fun p => pointInRange p range) (all_points t).
Proof.
  intros Hwf.
  destruct (intersects (boundary t) range) eqn:Hi.
  2:{ rewrite filter_all_false.
      - destruct t; simpl in *; rewrite Hi; done.
      - eapply Forall_impl; [by apply (wf_all_points_in C)|].
        intros p Hp. simpl in Hp. destruct (pointInRange p range) eqn:E; [|done].
        rewrite (intersects_sound _ _ _ Hp E) in Hi. done. }
  revert Hi.
  induction Hwf as [b ps Hlen Hps|b ps nw ne sw se Hlen Hps Hq
    Wnw IHnw Wne IHne Wsw IHsw Wse IHse]; simpl; intros Hi; rewrite Hi; simpl;
    [done|].
  assert (Hsub : forall c, wf C c ->
            (intersects (boundary c) range = true ->
             query c range [] = List.filter (fun p => pointInRange p range)
                                  (all_points c)) ->
            query c range [] = List.filter (fun p => pointInRange p range)
                                 (all_points c)).
  { intros c Wc IHc. destruct (intersects (boundary c) range) eqn:Hic; [auto|].
    rewrite filter_all_false.
    - destruct c; simpl in *; rewrite Hic; done.
    - eapply Forall_impl; [by apply (wf_all_points_in C)|].
      intros p Hp. simpl in Hp. destruct (pointInRange p range) eqn:E; [|done].
      rewrite (intersects_sound _ _ _ Hp E) in Hic. done. }
  rewrite (query_found se), (query_found sw), (query_found ne), (query_found nw).
  rewrite (Hsub nw), (Hsub ne), (Hsub sw), (Hsub se) by done.
  rewrite !List.filter_app, !app_assoc. done.
Qed.

Lemma filter_Permutation_bool {A} (f : A -> bool) (l l' : list A) :
  l ≡ₚ l' -> List.filter f l ≡ₚ List.filter f l'.
Proof.
  induction 1 as [|a l l' _ IH|a a' l|l1 l2 l3 _ IH1 _ IH2]; simpl.
  - done.
  - destruct (f a); [by constructor|done].
  - destruct (f a), (f a'); try done. constructor.
  - by etrans.
Qed.

(** For a circle of non-negative radius the test of [pointInRange] on squares
    is the comparison of the Euclidean distance with the radius. *)
Lemma pointInRange_distance p range :
  0 <= r range ->
  pointInRange p range = Rleb (RangeSpec.distance p range) (r range).
Proof.
  intros Hr. unfold pointInRange, RangeSpec.distance, norm, subtract. simpl.
  set (dx := px p - cx range). set (dy := py p - cy range).
  assert (Hsq : 0 <= dx * dx + dy * dy) by nra.
  replace (dx * (dx * 1) + dy * (dy * 1)) with (dx * dx + dy * dy) by ring.
  destruct (Rle_dec (dx * dx + dy * dy) (r range * r range)) as [Hle|Hgt].
  - rewrite (Rleb_true _ _ Hle). symmetry. apply Rleb_true.
    rewrite <- (sqrt_square (r range)) by done. by apply sqrt_le_1_alt.
  - rewrite Rleb_false by lra. symmetry. apply Rleb_false.
    rewrite <- (sqrt_square (r range)) by done. apply sqrt_lt_1_alt. nra.
Qed.

(** ** Properties of the spatial index *)

(** C3 (range-query correctness).  For every sequence of points offered to a
    fresh quadtree of positive capacity and every query circle of non-negative
    radius, the insertions return and [query] returns, up to order, exactly
    the successfully inserted points whose Euclidean distance from the centre
    is at most the radius (distance equal to the radius included). *)
Theorem range_query_correctness C b ps range :
  (1 <= C)%nat -> 0 <= r range ->
  exists t acc,
    insert_all (new_QuadTree b C) ps = Some (t, acc)
    /\ query t range [] ≡ₚ RangeSpec.brute_force range acc.
Proof.
  intros HC Hr.
  destruct (insert_all_spec C ps HC (new_QuadTree b C) (wf_new_QuadTree b C))
    as (t & acc & E & W & _ & _ & P).
  exists t, acc. split; [done|].
  rewrite (query_filter C) by done. unfold RangeSpec.brute_force.
  erewrite List.filter_ext; [|intros p; by apply pointInRange_distance].
  apply filter_Permutation_bool. rewrite P. done.
Qed.

Lemma range_query_correctness_witness :
  exists t acc,
    insert_all (new_QuadTree (mkBoundary 0 0 1000 1000) 4)
      [mkPoint 100 100 0; mkPoint 150 100 1] = Some (t, acc)
    /\ query t (mkRange 100 100 50) [] ≡ₚ
       RangeSpec.brute_force (mkRange 100 100 50) acc.
Proof.
  apply (range_query_correctness 4 (mkBoundary 0 0 1000 1000)
           [mkPoint 100 100 0; mkPoint 150 100 1] (mkRange 100 100 50)).
  - lia.
  - simpl. lra.
Defined.

(** *** Shape of the nodes *)

Lemma wf_node_at C t path n :
  wf C t -> node_at path t = Some n -> wf C n.
Proof.
  revert t. induction path as [|q path IH]; intros t Hwf; simpl.
  - by intros [= <-].
  - destruct Hwf as [|b ps nw ne sw se]; simpl; [done|].
    destruct q; eauto.
Qed.

Lemma wf_node_shape C n : wf C n -> node_shape C C n /\ capacity n = C.
Proof.
  destruct 1; (split; [|done]); [left|right]; simpl; done.
Qed.

(** Subdivision is one-way: a node that is divided before an [insert] is
    still there and still divided after it. *)
Lemma insert_fuel_divided fuel :
  forall t p t' res, insert_fuel fuel t p = Some (t', res) ->
  forall path n, node_at path t = Some n -> divided n = true ->
  exists n', node_at path t' = Some n' /\ divided n' = true.
Proof.
  induction fuel as [|fuel IH]; intros t p t' res; simpl; [done|].
  destruct (negb (inBoundary (boundary t) p)).
  { intros [= <- <-]; eauto. }
  destruct t as [b c ps|b c ps nw ne sw se].
  - destruct (_ && _); intros _ [|q path] n; simpl; try done;
      intros [= <-]; done.
  - simpl. rewrite andb_false_r. unfold insert_children.
    destruct (insert_fuel fuel nw p) as [[nw' r1]|] eqn:E1; [|done].
    destruct r1.
    { intros [= <- <-] [|[] path] n; simpl; eauto. }
    destruct (insert_fuel fuel ne p) as [[ne' r2]|] eqn:E2; [|done].
    destruct r2.
    { intros [= <- <-] [|[] path] n; simpl; eauto. }
    destruct (insert_fuel fuel sw p) as [[sw' r3]|] eqn:E3; [|done].
    destruct r3.
    { intros [= <- <-] [|[] path] n; simpl; eauto. }
    destruct (insert_fuel fuel se p) as [[se' r4]|] eqn:E4; [|done].
    intros [= <- <-] [|[] path] n; simpl; eauto.
Qed.

(** C2, as the code has it (structural invariant).  After any sequence of
    insert operations on a fresh quadtree of capacity [C >= 1], every node has
    capacity [C] and is either a leaf holding at most [C] points with no
    children, or a divided node with exactly four children that still holds
    the [C] points it held when it was divided (they are not handed down to
    the children).  Once divided, a node is divided after every later
    insert. *)
Theorem structural_invariant C b ps :
  (1 <= C)%nat ->
  exists t acc,
    insert_all (new_QuadTree b C) ps = Some (t, acc)
    /\ (forall path n, node_at path t = Some n ->
          node_shape C C n /\ capacity n = C)
    /\ (forall p t' res, insert t p = Some (t', res) ->
        forall path n, node_at path t = Some n -> divided n = true ->
        exists n', node_at path t' = Some n' /\ divided n' = true).
Proof.
  intros HC.
  destruct (insert_all_spec C ps HC (new_QuadTree b C) (wf_new_QuadTree b C))
    as (t & acc & E & W & _).
  exists t, acc. split; [done|]. split.
  - intros path n Hn. apply wf_node_shape. by eapply wf_node_at.
  - intros p t' res. apply insert_fuel_divided.
Qed.

Lemma structural_invariant_witness :
  exists t acc,
    insert_all (new_QuadTree (mkBoundary 0 0 8 8) 1)
      [mkPoint 1 1 0; mkPoint 2 2 1] = Some (t, acc)
    /\ (forall path n, node_at path t = Some n ->
          node_shape 1 1 n /\ capacity n = 1%nat)
    /\ (forall p t' res, insert t p = Some (t', res) ->
        forall path n, node_at path t = Some n -> divided n = true ->
        exists n', node_at path t' = Some n' /\ divided n' = true).
Proof.
  apply (structural_invariant 1 (mkBoundary 0 0 8 8)
           [mkPoint 1 1 0; mkPoint 2 2 1]).
  lia.
Defined.


(** C2 as stated fails: with capacity 1 on the region [0,8) x [0,8), inserting
    (1,1) and then (2,2) divides the root, and the divided root still holds
    the point (1,1): one point, not zero. *)
Lemma structural_invariant_counterexample :
  exists t acc,
    insert_all (new_QuadTree (mkBoundary 0 0 8 8) 1)
      [mkPoint 1 1 0; mkPoint 2 2 1] = Some (t, acc)
    /\ node_at [] t = Some t
    /\ divided t = true /\ points t = [mkPoint 1 1 0]
    /\ ~ node_shape 1 0 t.
Proof.
  do 2 eexists. split; [run; reflexivity|].
  repeat split. unfold node_shape. simpl. intros [(H & _)|(_ & H & _)]; done.
Qed.

End QuadTreeTheory.

(** ** Further properties of the spatial index *)

Module QuadTreeMore.
Import QuadTree QuadTreeTheory.

(** X2 ([intersects] is the closed-rectangle test).  For a region of
    non-negative width and height, [intersects] is true exactly when some
    position of the closed rectangle lies in the circle [dx*dx + dy*dy <=
    r*r]: a region holding a point in range is never pruned, and a region
    that is searched does meet the circle. *)
Theorem intersects_iff b range :
  0 <= width b -> 0 <= height b ->
  (intersects b range = true <->
   exists px py,
     bx b <= px <= bx b + width b /\ by_ b <= py <= by_ b + height b
     /\ (px - cx range) * (px - cx range) + (py - cy range) * (py - cy range)
        <= r range * r range).
Proof.
  intros Hw Hh. unfold intersects. rewrite Rleb_le.
  set (X := Rmax (bx b) (Rmin (cx range) (bx b + width b))).
  set (Y := Rmax (by_ b) (Rmin (cy range) (by_ b + height b))).
  split.
  - intros Hin. exists X, Y. split; [|split; [|done]].
    + subst X. unfold Rmax, Rmin. repeat destruct (Rle_dec _ _); lra.
    + subst Y. unfold Rmax, Rmin. repeat destruct (Rle_dec _ _); lra.
  - intros (px & py & Hx & Hy & Hin).
    assert (HX : (X - cx range) * (X - cx range)
                 <= (px - cx range) * (px - cx range)).
    { assert (cx range <= X <= px \/ px <= X <= cx range) as [Hb|Hb]
        by (subst X; unfold Rmax, Rmin; repeat destruct (Rle_dec _ _); lra);
        nra. }
    assert (HY : (Y - cy range) * (Y - cy range)
                 <= (py - cy range) * (py - cy range)).
    { assert (cy range <= Y <= py \/ py <= Y <= cy range) as [Hb|Hb]
        by (subst Y; unfold Rmax, Rmin; repeat destruct (Rle_dec _ _); lra);
        nra. }
    lra.
Qed.

Lemma intersects_iff_witness :
  intersects (mkBoundary 0 0 10 10) (mkRange 15 5 5) = true <->
  exists px py,
    0 <= px <= 0 + 10 /\ 0 <= py <= 0 + 10
    /\ (px - 15) * (px - 15) + (py - 5) * (py - 5) <= 5 * 5.
Proof.
  apply (intersects_iff (mkBoundary 0 0 10 10) (mkRange 15 5 5)); simpl; lra.
Defined.

(** X3 (accepted points are never lost).  A circle centred inside the region
    of a fresh quadtree whose radius squared is at least [width^2 + height^2]
    covers the region: after any sequence of inserts, [query] on it returns,
    up to order, exactly the points whose [insert] returned true, each as
    often as it was accepted. *)
Theorem query_covering C b ps range :
  (1 <= C)%nat ->
  bx b <= cx range <= bx b + width b ->
  by_ b <= cy range <= by_ b + height b ->
  width b * width b + height b * height b <= r range * r range ->
  exists t acc,
    insert_all (new_QuadTree b C) ps = Some (t, acc)
    /\ query t range [] ≡ₚ acc
    /\ length (query t range []) = length acc.
Proof.
  intros HC Hx Hy Hr.
  destruct (insert_all_spec C ps HC (new_QuadTree b C) (wf_new_QuadTree b C))
    as (t & acc & E & W & _ & Hacc & P).
  exists t, acc. split; [done|].
  assert (HP : query t range [] ≡ₚ acc).
  { rewrite (query_filter C) by done. simpl in P.
    rewrite (filter_Permutation_bool _ _ _ P).
    assert (Hall : Forall (fun p => pointInRange p range = true) acc).
    { rewrite Hacc. apply Forall_forall. intros p Hp.
      apply list_elem_of_In, List.filter_In in Hp as [_ Hp]. simpl in Hp.
      apply inBoundary_iff in Hp. unfold pointInRange. apply Rleb_le.
      assert ((px p - cx range) * (px p - cx range) <= width b * width b)
        by nra.
      assert ((py p - cy range) * (py p - cy range) <= height b * height b)
        by nra.
      lra. }
    clear -Hall. induction Hall as [|p acc Hp _ IH]; simpl; [constructor|].
    rewrite Hp. by constructor. }
  split; [done|]. by rewrite HP.
Qed.

Lemma query_covering_witness :
  exists t acc,
    insert_all (new_QuadTree (mkBoundary 0 0 8 8) 1)
      [mkPoint 1 1 0; mkPoint 2 2 1; mkPoint 9 9 2] = Some (t, acc)
    /\ query t (mkRange 4 4 12) [] ≡ₚ acc
    /\ length (query t (mkRange 4 4 12) []) = length acc.
Proof.
  apply (query_covering 1 (mkBoundary 0 0 8 8)
           [mkPoint 1 1 0; mkPoint 2 2 1; mkPoint 9 9 2] (mkRange 4 4 12));
    simpl; try lia; lra.
Defined.

Lemma wf_depth_points C t :
  wf C t -> (C * depth t <= length (all_points t))%nat.
Proof.
  induction 1 as [b ps Hlen Hps|b ps nw ne sw se Hlen Hps Hq
    Wnw IHnw Wne IHne Wsw IHsw Wse IHse]; simpl; [lia|].
  rewrite !length_app.
  assert (Hmax : (C * Nat.max (Nat.max (depth nw) (depth ne))
                        (Nat.max (depth sw) (depth se))
                  <= length (all_points nw) + length (all_points ne)
                     + length (all_points sw) + length (all_points se))%nat).
  { destruct (Nat.max_spec (depth nw) (depth ne)) as [[_ ->]|[_ ->]];
    destruct (Nat.max_spec (depth sw) (depth se)) as [[_ ->]|[_ ->]];
    match goal with
    | |- (C * Nat.max ?a ?b <= _)%nat =>
        destruct (Nat.max_spec a b) as [[_ ->]|[_ ->]]
    end; lia. }
  lia.
Qed.

(** X4 (depth is bounded by the load, not by [maxDepth]).  A node is divided
    only when it holds [C] points already, so in a quadtree of capacity [C >=
    1] filled by inserts every level below the root is paid for by [C] stored
    points: [C * depth] is at most the number of accepted points. *)
Theorem depth_bound C b ps :
  (1 <= C)%nat ->
  exists t acc,
    insert_all (new_QuadTree b C) ps = Some (t, acc)
    /\ (C * depth t <= length acc)%nat
    /\ (length acc <= length ps)%nat.
Proof.
  intros HC.
  destruct (insert_all_spec C ps HC (new_QuadTree b C) (wf_new_QuadTree b C))
    as (t & acc & E & W & _ & Hacc & P).
  exists t, acc. split; [done|]. split.
  - pose proof (wf_depth_points C t W) as Hd. rewrite P in Hd. done.
  - rewrite Hacc. apply List.filter_length_le.
Qed.

Lemma depth_bound_witness :
  exists t acc,
    insert_all (new_QuadTree (mkBoundary 0 0 8 8) 1)
      [mkPoint 1 1 0; mkPoint 1 1 1; mkPoint 1 1 2] = Some (t, acc)
    /\ (1 * depth t <= length acc)%nat
    /\ (length acc <= 3)%nat.
Proof.
  apply (depth_bound 1 (mkBoundary 0 0 8 8)
           [mkPoint 1 1 0; mkPoint 1 1 1; mkPoint 1 1 2]).
  lia.
Defined.

Ltac keeps_tac IH :=
  first
    [ by (eapply IH; eauto)
    | let H := fresh in
      intros H; try (injection H as <-);
      eexists; (split; [first [reflexivity|eassumption]|]); simpl; auto ].

Lemma insert_fuel_keeps fuel :
  forall t p t' res, insert_fuel fuel t p = Some (t', res) ->
  forall path n, node_at path t = Some n ->
  exists n', node_at path t' = Some n'
             /\ boundary n' = boundary n /\ capacity n' = capacity n
             /\ (points n' = points n \/ points n' = points n ++ [p]).
Proof.
  induction fuel as [|fuel IH]; intros t p t' res; simpl; [done|].
  destruct (negb (inBoundary (boundary t) p)).
  { intros [= <- <-] path n Hn. exists n. auto. }
  destruct t as [b c ps|b c ps nw ne sw se].
  - destruct (_ && _).
    + intros [= <- <-] [|qd path] n; simpl; [|done].
      intros [= <-]. eexists; split; [done|]. simpl. auto.
    + unfold subdivide. destruct (quadrants b) as [[[bnw bne] bsw] bse].
      unfold insert_children.
      repeat match goal with
      | |- context [insert_fuel fuel ?c p] =>
          destruct (insert_fuel fuel c p) as [[? []]|]; try done
      end.
      all: intros [= <- <-] [|qd path] n; simpl; try done.
      all: intros [= <-]; (eexists; split; [reflexivity|]); simpl; auto.
  - simpl. rewrite andb_false_r. unfold insert_children.
    destruct (insert_fuel fuel nw p) as [[nw' r1]|] eqn:E1; [|done].
    destruct r1.
    { intros [= <- <-] [|[] path] n; simpl; keeps_tac IH. }
    destruct (insert_fuel fuel ne p) as [[ne' r2]|] eqn:E2; [|done].
    destruct r2.
    { intros [= <- <-] [|[] path] n; simpl; keeps_tac IH. }
    destruct (insert_fuel fuel sw p) as [[sw' r3]|] eqn:E3; [|done].
    destruct r3.
    { intros [= <- <-] [|[] path] n; simpl; keeps_tac IH. }
    destruct (insert_fuel fuel se p) as [[se' r4]|] eqn:E4; [|done].
    intros [= <- <-] [|[] path] n; simpl; keeps_tac IH.
Qed.

(** X5 ([insert] never moves or drops a stored point).  On a tree of positive
    capacity [insert] returns, and every node that existed before the call is
    still at its place afterwards with the same boundary and capacity; its
    own points are the same sequence, or that sequence with the new point
    appended. *)
Theorem insert_keeps_nodes C t p :
  (1 <= C)%nat -> wf C t ->
  exists t' res,
    insert t p = Some (t', res)
    /\ forall path n, node_at path t = Some n ->
       exists n', node_at path t' = Some n'
                  /\ boundary n' = boundary n /\ capacity n' = capacity n
                  /\ (points n' = points n \/ points n' = points n ++ [p]).
Proof.
  intros HC Hwf.
  destruct (insert_spec C t p HC Hwf) as (t' & E & _).
  do 2 eexists. split; [exact E|]. eapply insert_fuel_keeps. exact E.
Qed.

Lemma insert_keeps_nodes_witness :
  exists t' res,
    insert (Leaf (mkBoundary 0 0 8 8) 1 [mkPoint 1 1 0]) (mkPoint 2 2 1)
    = Some (t', res)
    /\ forall path n,
         node_at path (Leaf (mkBoundary 0 0 8 8) 1 [mkPoint 1 1 0]) = Some n ->
         exists n', node_at path t' = Some n'
                    /\ boundary n' = boundary n /\ capacity n' = capacity n
                    /\ (points n' = points n
                        \/ points n' = points n ++ [mkPoint 2 2 1]).
Proof.
  apply (insert_keeps_nodes 1 (Leaf (mkBoundary 0 0 8 8) 1 [mkPoint 1 1 0])
           (mkPoint 2 2 1)).
  - lia.
  - constructor; [simpl; lia|].
    repeat constructor. apply inBoundary_iff. simpl. lra.
Defined.

(** X6 ([query] appends in storage order).  On a tree built by [insert] the
    array passed as [found] is returned with the matching points appended to
    it, in the order in which the tree stores them (a node's own points, then
    NW, NE, SW, SE); nothing already in [found] is touched and no stored
    point is reported twice. *)
Theorem query_appends C t range found :
  wf C t ->
  query t range found
  = found ++ List.filter (fun p => pointInRange p range) (all_points t).
Proof.
  intros Hwf. rewrite query_found, (query_filter C) by done. done.
Qed.

Lemma query_appends_witness :
  query (Leaf (mkBoundary 0 0 8 8) 2 [mkPoint 1 1 0; mkPoint 7 7 1])
    (mkRange 0 0 2) [mkPoint 5 5 9]
  = [mkPoint 5 5 9]
    ++ List.filter (fun p => pointInRange p (mkRange 0 0 2))
         (all_points (Leaf (mkBoundary 0 0 8 8) 2
                        [mkPoint 1 1 0; mkPoint 7 7 1])).
Proof.
  apply (query_appends 2 (Leaf (mkBoundary 0 0 8 8) 2
                            [mkPoint 1 1 0; mkPoint 7 7 1])).
  constructor; [simpl; lia|].
  repeat constructor; apply inBoundary_iff; simpl; lra.
Defined.

(** X7 (zero-radius query).  With radius 0 the query is valid and returns
    exactly the stored points that sit on the centre. *)
Theorem query_zero_radius C t range q :
  wf C t -> r range = 0 ->
  (q ∈ query t range [] <->
   q ∈ all_points t /\ px q = cx range /\ py q = cy range).
Proof.
  intros Hwf Hr. rewrite (query_filter C) by done.
  rewrite list_elem_of_In, List.filter_In, <- list_elem_of_In.
  unfold pointInRange. rewrite Rleb_le, Hr.
  split; intros [Hq H]; (split; [done|]).
  - pose proof (Rle_0_sqr (px q - cx range)) as Sx.
    pose proof (Rle_0_sqr (py q - cy range)) as Sy. unfold Rsqr in Sx, Sy.
    assert (Hx : (px q - cx range) * (px q - cx range) = 0) by lra.
    assert (Hy : (py q - cy range) * (py q - cy range) = 0) by lra.
    apply Rmult_integral in Hx, Hy. lra.
  - destruct H as [-> ->]. lra.
Qed.

Lemma query_zero_radius_witness :
  mkPoint 1 1 0 ∈ query (Leaf (mkBoundary 0 0 8 8) 2 [mkPoint 1 1 0])
                    (mkRange 1 1 0) []
  <-> mkPoint 1 1 0 ∈ all_points (Leaf (mkBoundary 0 0 8 8) 2 [mkPoint 1 1 0])
      /\ 1 = 1 /\ 1 = 1.
Proof.
  apply (query_zero_radius 2 (Leaf (mkBoundary 0 0 8 8) 2 [mkPoint 1 1 0])
           (mkRange 1 1 0) (mkPoint 1 1 0)).
  - constructor; [simpl; lia|].
    repeat constructor; apply inBoundary_iff; simpl; lra.
  - reflexivity.
Defined.

(** X8 (the sign of the radius is ignored).  Both tests compare with [r * r],
    so a query with radius [-r] returns what the query with radius [r]
    returns, on every tree. *)
Theorem query_negative_radius t x0 y0 r0 found :
  query t (mkRange x0 y0 (- r0)) found = query t (mkRange x0 y0 r0) found.
Proof.
  assert (Hi : forall b, intersects b (mkRange x0 y0 (- r0))
                         = intersects b (mkRange x0 y0 r0)).
  { intros b. unfold intersects. simpl.
    replace (- r0 * - r0) with (r0 * r0) by ring. done. }
  assert (Hp : forall ps,
            List.filter (fun p => pointInRange p (mkRange x0 y0 (- r0))) ps
            = List.filter (fun p => pointInRange p (mkRange x0 y0 r0)) ps).
  { intros ps. apply List.filter_ext. intros p. unfold pointInRange. simpl.
    replace (- r0 * - r0) with (r0 * r0) by ring. done. }
  revert found.
  induction t as [b c ps|b c ps nw IHnw ne IHne sw IHsw se IHse];
    intros found; simpl; rewrite Hi, Hp; [done|].
  destruct (intersects b _); simpl; [|done].
  rewrite IHnw, IHne, IHsw, IHse. done.
Qed.

End QuadTreeMore.

(** ** The engine *)

Module LightSeedTheory.
Import LightSeed LightSeedSpec.

(** *** The peer store *)

Lemma array_set_length {A} (arr : list (option A)) i v :
  length (array_set arr i v) = Nat.max (length arr) (S i).
Proof.
  unfold array_set. rewrite length_insert, length_app, length_replicate. lia.
Qed.

Lemma array_get_set_eq {A} (arr : list (option A)) i v :
  array_get (array_set arr i v) i = Some v.
Proof.
  unfold array_get, array_set. rewrite list_lookup_insert_eq; [done|].
  rewrite length_app, length_replicate. lia.
Qed.

Lemma array_get_set_ne {A} (arr : list (option A)) i j v :
  i <> j -> array_get (array_set arr i v) j = array_get arr j.
Proof.
  intros Hij. unfold array_get, array_set.
  rewrite list_lookup_insert_ne by done.
  destruct (decide (j < length arr)%nat) as [Hj|Hj].
  - rewrite lookup_app_l by done. done.
  - rewrite lookup_app_r by lia.
    rewrite (lookup_ge_None_2 arr j) by lia.
    destruct (replicate _ _ !! _) as [o|] eqn:E; [|done].
    apply lookup_replicate in E as [-> _]. done.
Qed.

Lemma elem_of_live (arr : list (option Peer)) peer :
  peer ∈ live arr <-> exists i, array_get arr i = Some peer.
Proof.
  unfold live, array_get. rewrite list_elem_of_omap. split.
  - intros (o & Ho & ->). apply list_elem_of_lookup in Ho as [i Hi].
    exists i. rewrite Hi. done.
  - intros [i Hi]. destruct (arr !! i) as [[p|]|] eqn:E; simplify_eq.
    exists (Some peer). split; [|done]. eapply list_elem_of_lookup_2; eauto.
Qed.

(** *** The rebuild of the index *)

Lemma forEach_insert_insert_all qt arr :
  forEach_insert qt arr
  = fst <$> QuadTree.insert_all qt (map point_of (live arr)).
Proof.
  revert qt. induction arr as [|[peer|] arr IH]; intros qt; simpl; [done| |].
  - unfold live. simpl. fold (live arr).
    change (QuadTree.mkPoint (x peer) (y peer) (idx peer)) with (point_of peer).
    destruct (QuadTree.insert qt (point_of peer)) as [[qt' ok]|]; [|done].
    rewrite IH. destruct (QuadTree.insert_all qt' _) as [[qt'' acc]|]; done.
  - apply IH.
Qed.

Lemma forEach_insert_spec C qt arr :
  (1 <= C)%nat -> QuadTree.wf C qt ->
  exists qt',
    forEach_insert qt arr = Some qt'
    /\ QuadTree.wf C qt' /\ QuadTree.boundary qt' = QuadTree.boundary qt
    /\ QuadTree.all_points qt' ≡ₚ
       QuadTree.all_points qt
       ++ List.filter (QuadTree.inBoundary (QuadTree.boundary qt))
            (map point_of (live arr)).
Proof.
  intros HC Hwf. rewrite forEach_insert_insert_all.
  destruct (QuadTreeTheory.insert_all_spec C (map point_of (live arr)) HC qt Hwf)
    as (qt' & acc & E & W & B & -> & P).
  exists qt'. rewrite E. done.
Qed.

Lemma index_ok_new cfg : index_ok (new_LightSeed cfg).
Proof. split; [apply QuadTreeTheory.wf_new_QuadTree|done]. Qed.

Lemma index_ok_insertPeer s id px py s' :
  (1 <= capacity (config s))%nat -> index_ok s ->
  insertPeer s id px py = Some s' -> index_ok s' /\ config s' = config s.
Proof.
  intros HC [Hwf Hb]. unfold insertPeer.
  destruct (QuadTreeTheory.insert_spec _ (quadtree s)
              (QuadTree.mkPoint px py id) HC Hwf) as (qt & E & W & B & _).
  rewrite E. intros [= <-]. repeat split; simpl; [done|congruence].
Qed.

Lemma index_ok_updatePeer s id px py pvx pvy ptdf plat s' :
  (1 <= capacity (config s))%nat ->
  updatePeer s id px py pvx pvy ptdf plat = Some s' ->
  index_ok s' /\ config s' = config s.
Proof.
  intros HC. unfold updatePeer.
  destruct (forEach_insert_spec (capacity (config s))
              (QuadTree.new_QuadTree (boundary (config s)) (capacity (config s)))
              (array_set (peers s) id (mkPeer id px py pvx pvy ptdf plat)) HC
              (QuadTreeTheory.wf_new_QuadTree _ _)) as (qt & E & W & B & _).
  rewrite E. intros [= <-]. repeat split; simpl; done.
Qed.

(** *** C7 *)

(** C7 (absent sender yields empty result).  In every engine state, for every
    subject, if the store holds no record for the sender then
    [selectPeers] returns the empty sequence: it does not throw, and the
    engine after the call is the engine before it. *)
Theorem absent_sender_empty s senderIdx playerIdx :
  array_get (peers s) senderIdx = None ->
  selectPeers s senderIdx playerIdx = (s, Return []).
Proof. intros H. unfold selectPeers. rewrite H. done. Qed.

Lemma absent_sender_empty_witness :
  selectPeers (new_LightSeed DEFAULT_CONFIG) 7 3
  = (new_LightSeed DEFAULT_CONFIG, Return []).
Proof.
  apply (absent_sender_empty (new_LightSeed DEFAULT_CONFIG) 7 3).
  reflexivity.
Defined.

(** *** C10 and C9 *)

Lemma in_world_inBoundary cfg px py id :
  QuadTree.inBoundary (boundary cfg) (QuadTree.mkPoint px py id) = true
  <-> in_world cfg px py.
Proof.
  rewrite QuadTreeTheory.inBoundary_iff. unfold in_world. simpl.
  rewrite !Rplus_0_l. tauto.
Qed.

(** C10 ([insertPeer] always writes the record).  In every engine state whose
    index is a quadtree of positive capacity over the world, [insertPeer(id,
    x, y)] returns and the store then holds for [id] the record with the given
    position, zero velocity, tdf 1 and zero latency, whatever the insertion
    into the index returned; the other records are untouched.  For
    coordinates outside [[0, worldSize)] the index is left as it was and holds
    no point at those coordinates, while the record exists, so that [id]
    passes the sender check of [selectPeers]. *)
Theorem insertPeer_creates_record s id px py :
  (1 <= capacity (config s))%nat -> index_ok s ->
  exists s',
    insertPeer s id px py = Some s'
    /\ array_get (peers s') id = Some (mkPeer id px py 0 0 1 0)
    /\ (forall j, j <> id -> array_get (peers s') j = array_get (peers s) j)
    /\ (~ in_world (config s) px py ->
        quadtree s' = quadtree s
        /\ forall q, q ∈ QuadTree.all_points (quadtree s') ->
                     ~ (QuadTree.px q = px /\ QuadTree.py q = py)).
Proof.
  intros HC [Hwf Hb]. unfold insertPeer.
  destruct (QuadTreeTheory.insert_spec _ (quadtree s)
              (QuadTree.mkPoint px py id) HC Hwf) as (qt & E & W & B & P & U).
  rewrite E. eexists. split; [reflexivity|]. simpl.
  split; [apply array_get_set_eq|].
  split; [intros j Hj; by apply array_get_set_ne|].
  intros Hout. rewrite Hb in U.
  assert (Hf : QuadTree.inBoundary (boundary (config s))
                 (QuadTree.mkPoint px py id) = false).
  { apply not_true_is_false. intros Hin. apply Hout.
    by apply in_world_inBoundary in Hin. }
  rewrite (U Hf). split; [done|].
  intros q Hq [Hx Hy]. apply Hout.
  pose proof (QuadTreeTheory.wf_all_points_in _ _ Hwf) as Hall.
  rewrite Forall_forall in Hall. specialize (Hall q Hq). rewrite Hb in Hall.
  apply QuadTreeTheory.inBoundary_iff in Hall. simpl in Hall.
  unfold in_world. rewrite <- Hx, <- Hy. lra.
Qed.

Lemma insertPeer_creates_record_witness :
  exists s',
    insertPeer (new_LightSeed DEFAULT_CONFIG) 0 1500 100 = Some s'
    /\ array_get (peers s') 0%nat = Some (mkPeer 0 1500 100 0 0 1 0)
    /\ (forall j, j <> 0%nat ->
          array_get (peers s') j
          = array_get (peers (new_LightSeed DEFAULT_CONFIG)) j)
    /\ (~ in_world DEFAULT_CONFIG 1500 100 ->
        quadtree s' = quadtree (new_LightSeed DEFAULT_CONFIG)
        /\ forall q, q ∈ QuadTree.all_points (quadtree s') ->
                     ~ (QuadTree.px q = 1500 /\ QuadTree.py q = 100)).
Proof.
  apply (insertPeer_creates_record (new_LightSeed DEFAULT_CONFIG) 0 1500 100).
  - simpl. lia.
  - apply index_ok_new.
Defined.


Lemma weights_loop_present s sender senderIdx playerIdx player l acc :
  array_get (peers s) playerIdx = Some player ->
  weights_loop s sender senderIdx playerIdx l acc
  = Return (acc ++ map (weight (config s) sender player)
                     (candidates s senderIdx l)).
Proof.
  intros Hpl. revert acc. unfold candidates.
  induction l as [|j l IH]; intros acc; simpl.
  - by rewrite app_nil_r.
  - destruct (Nat.eqb j senderIdx); simpl; [apply IH|].
    destruct (array_get (peers s) j) as [peer|]; [|apply IH].
    rewrite Hpl, IH. simpl. rewrite <- app_assoc. done.
Qed.

Lemma weights_loop_absent s sender senderIdx playerIdx l acc :
  array_get (peers s) playerIdx = None ->
  weights_loop s sender senderIdx playerIdx l acc
  = match candidates s senderIdx l with
    | [] => Return acc
    | _ :: _ => TypeError
    end.
Proof.
  intros Hpl. unfold candidates.
  induction l as [|j l IH]; simpl; [done|].
  destruct (Nat.eqb j senderIdx); simpl; [apply IH|].
  destruct (array_get (peers s) j) as [peer|]; [|apply IH].
  rewrite Hpl. done.
Qed.

Lemma candidates_length s senderIdx l :
  (length (candidates s senderIdx l) <= length l)%nat.
Proof.
  unfold candidates. induction l as [|j l IH]; cbn; [done|].
  destruct (Nat.eqb j senderIdx); cbn; [lia|].
  destruct (array_get (peers s) j); cbn; lia.
Qed.

(** The final [filter] keeps the entries of [peersInRange] whose position is
    a position of [weights]: the first [weights.length] entries. *)
Lemma filter_index_defined {A} (ws : list R) (l : list A) k :
  filter_index (fun _ i => bool_decide (is_Some (ws !! i))) k l
  = take (length ws - k) l.
Proof.
  revert k. induction l as [|a l IH]; intros k; simpl.
  - by rewrite take_nil.
  - rewrite IH. destruct (decide (k < length ws)%nat) as [Hk|Hk].
    + rewrite bool_decide_eq_true_2 by (by apply lookup_lt_is_Some).
      replace (length ws - k)%nat with (S (length ws - S k)) by lia. done.
    + rewrite bool_decide_eq_false_2 by (by rewrite lookup_lt_is_Some).
      replace (length ws - k)%nat with 0%nat by lia.
      replace (length ws - S k)%nat with 0%nat by lia. by rewrite take_0.
Qed.

(** In the final [map], [probs[i]] is read inside [probs]. *)
Lemma imap_nth_zip (probs : list R) (l : list nat) :
  (length l <= length probs)%nat ->
  imap (fun i peerIdx => mkSelection peerIdx (nth i probs 0)) l
  = zip_with mkSelection l probs.
Proof.
  revert probs. induction l as [|j l IH]; intros [|p probs] Hlen; simpl in *;
    try done; [lia|].
  f_equal. rewrite <- IH by lia. apply imap_ext. done.
Qed.

(** The value that [selectPeers] returns when the weights are [ws]. *)
Lemma selectPeers_present s senderIdx playerIdx sender player :
  array_get (peers s) senderIdx = Some sender ->
  array_get (peers s) playerIdx = Some player ->
  let inRange := peersInRange s sender in
  let ws := map (weight (config s) sender player)
              (candidates s senderIdx inRange) in
  let probs := map (probability (config s) (totalWeight ws)
                      (length_or_1 (peers s))) ws in
  selectPeers s senderIdx playerIdx
  = (s, Return (zip_with mkSelection (take (length ws) inRange) probs)).
Proof.
  intros Hs Hp inRange ws probs. unfold selectPeers. rewrite Hs.
  fold (peersInRange s sender). fold inRange.
  rewrite (weights_loop_present _ _ _ _ player) by done. simpl app.
  fold ws. rewrite filter_index_defined, Nat.sub_0_r.
  rewrite imap_nth_zip.
  - done.
  - rewrite length_take, length_map. lia.
Qed.

Lemma selectPeers_absent_player s senderIdx playerIdx sender :
  array_get (peers s) senderIdx = Some sender ->
  array_get (peers s) playerIdx = None ->
  selectPeers s senderIdx playerIdx
  = (s, match candidates s senderIdx (peersInRange s sender) with
        | [] => Return []
        | _ :: _ => TypeError
        end).
Proof.
  intros Hs Hp. unfold selectPeers. rewrite Hs.
  fold (peersInRange s sender).
  rewrite weights_loop_absent by done.
  destruct (candidates _ _ _); [|done].
  cbv beta iota. rewrite filter_index_defined. done.
Qed.

(** *** Weights and probabilities *)

Lemma Rdiv_nonneg a b : 0 <= a -> 0 < b -> 0 <= a / b.
Proof. intros Ha Hb. unfold Rdiv. apply Rle_mult_inv_pos; done. Qed.

Lemma Rdiv_le_1 a b : 0 < b -> a <= b -> a / b <= 1.
Proof.
  intros Hb Hab. apply (Rmult_le_reg_r b); [done|].
  unfold Rdiv. rewrite Rmult_assoc, Rinv_l by lra. lra.
Qed.

Lemma norm_nonneg vec : 0 <= norm vec.
Proof. unfold norm. apply sqrt_pos. Qed.

(** With positive scales [d0], [v0] and a non-negative [beta] every weight is
    positive. *)
Lemma weight_pos cfg sender player peer :
  0 < d0 cfg -> 0 < v0 cfg -> 0 <= beta cfg ->
  0 < weight cfg sender player peer.
Proof.
  intros Hd Hv Hb. unfold weight.
  set (dkj := norm _).
  assert (Hdkj : 0 <= dkj) by apply norm_nonneg.
  set (skj := if Rltb 0 dkj then _ else _).
  assert (Hskj : 0 <= skj).
  { subst skj. destruct (Rltb 0 dkj); [apply Rmax_l|lra]. }
  assert (Hlat : 0 < 1 / Rmax (latency peer) (1 / 1000)).
  { apply Rdiv_lt_0_compat; [lra|].
    pose proof (Rmax_r (latency peer) (1 / 1000)). lra. }
  assert (Hdist : 0 < 1 / (1 + dkj / d0 cfg)).
  { apply Rdiv_lt_0_compat; [lra|].
    assert (0 <= dkj / d0 cfg) by (apply Rdiv_nonneg; lra).
    lra. }
  assert (Hspeed : 0 < 1 + beta cfg * (skj / v0 cfg)).
  { assert (0 <= skj / v0 cfg) by (apply Rdiv_nonneg; lra).
    nra. }
  apply Rmult_lt_0_compat; [|exact Hspeed].
  apply Rmult_lt_0_compat; [|exact Hdist].
  apply Rmult_lt_0_compat; [exact Hlat|apply exp_pos].
Qed.

Lemma fold_left_Rplus_ge (ws : list R) :
  Forall (fun w => 0 < w) ws ->
  forall a, a <= fold_left Rplus ws a
            /\ forall w, w ∈ ws -> a + w <= fold_left Rplus ws a.
Proof.
  induction 1 as [|w0 ws Hw0 _ IH]; intros a; simpl.
  - split; [lra|]. intros w Hw. by apply elem_of_nil in Hw.
  - destruct (IH (a + w0)) as [IH1 IH2]. split; [lra|].
    intros w Hw. apply elem_of_cons in Hw as [->|Hw]; [done|].
    specialize (IH2 w Hw). lra.
Qed.

Lemma totalWeight_pos (ws : list R) w :
  Forall (fun w => 0 < w) ws -> w ∈ ws ->
  0 < w <= totalWeight ws.
Proof.
  intros Hws Hw. rewrite Forall_forall in Hws. pose proof (Hws w Hw) as Hpos.
  rewrite <- Forall_forall in Hws.
  destruct (fold_left_Rplus_ge ws Hws 0) as [_ Hsum]. specialize (Hsum w Hw).
  unfold totalWeight. destruct (Req_dec_T _ _) as [E|_]; lra.
Qed.

Lemma length_or_1_ge {A} (arr : list A) : 1 <= length_or_1 arr.
Proof.
  unfold length_or_1. destruct arr as [|a arr]; [simpl; lra|].
  change (Nat.eqb (length (a :: arr)) 0) with false. cbv iota.
  change 1 with (INR 1). apply le_INR. simpl. lia.
Qed.

Lemma length_or_1_nonempty {A} (arr : list A) :
  arr <> [] -> length_or_1 arr = INR (length arr).
Proof. destruct arr; done. Qed.

(** The floor property of the formula, for positive weights and an
    exploration constant in [[0, 1]]. *)
Lemma probability_floor cfg (ws : list R) N w :
  0 <= epsilon cfg <= 1 -> 1 <= N ->
  Forall (fun w => 0 < w) ws -> w ∈ ws ->
  floor_ok cfg N (probability cfg (totalWeight ws) N w).
Proof.
  intros He HN Hws Hw. destruct (totalWeight_pos ws w Hws Hw) as [Hpos Hle].
  unfold floor_ok, probability.
  set (q := w / totalWeight ws).
  assert (Hq : 0 < q <= 1).
  { subst q. split.
    - apply Rdiv_lt_0_compat; lra.
    - apply Rdiv_le_1; lra. }
  set (e := epsilon cfg / N).
  assert (Hen : 0 <= e <= epsilon cfg).
  { subst e. split.
    - apply Rdiv_nonneg; lra.
    - apply (Rmult_le_reg_r N); [lra|].
      unfold Rdiv. rewrite Rmult_assoc, Rinv_l by lra. nra. }
  nra.
Qed.

Lemma map_prob_zip (l : list nat) (probs : list R) :
  (length probs <= length l)%nat ->
  map prob (zip_with mkSelection l probs) = probs.
Proof.
  revert probs. induction l as [|j l IH]; intros [|p probs] Hlen; simpl in *;
    try done; [lia|].
  f_equal. apply IH. lia.
Qed.

Lemma map_peerIdx_zip (l : list nat) (probs : list R) :
  (length l <= length probs)%nat ->
  map peerIdx (zip_with mkSelection l probs) = l.
Proof.
  revert probs. induction l as [|j l IH]; intros [|p probs] Hlen; simpl in *;
    try done; [lia|].
  f_equal. apply IH. lia.
Qed.

Lemma participant_count_dense (arr : list (option Peer)) :
  Forall is_Some arr -> participant_count arr = length arr.
Proof.
  unfold participant_count, live.
  induction 1 as [|o arr [peer ->] _ IH]; cbn; [done|]. by f_equal.
Qed.

(** C5, as the code has it (probability formula and floor).  For every
    [selectPeers] call that returns a non-empty result, the subject's record
    is present and the returned probabilities are, in order, [(1 - eps) * (w /
    total) + eps / N] for the weights [w] of the candidates (the identifiers
    in range other than the sender's with a record), where [total] is the sum
    of these weights, or 1 when the sum is zero, and [N] is the length of the
    participant array, one more than the largest identifier stored.  [N] is
    the participant count when the array has no holes.  For configuration
    constants with [0 <= eps <= 1], [sigma <> 0], [d0 > 0], [v0 > 0] and
    [beta >= 0], every returned probability is at least [eps / N], none is
    negative and none exceeds 1. *)
Theorem probability_formula s senderIdx playerIdx sender sels :
  array_get (peers s) senderIdx = Some sender ->
  selectPeers s senderIdx playerIdx = (s, Return sels) ->
  sels <> [] ->
  exists player,
    array_get (peers s) playerIdx = Some player
    /\ let ws := map (weight (config s) sender player)
                   (candidates s senderIdx (peersInRange s sender)) in
       let N := INR (length (peers s)) in
       map prob sels = map (probability (config s) (totalWeight ws) N) ws
       /\ (Forall is_Some (peers s) ->
           N = INR (participant_count (peers s)))
       /\ (config_ok (config s) ->
           Forall (floor_ok (config s) N) (map prob sels)).
Proof.
  intros Hs Hsel Hne.
  destruct (array_get (peers s) playerIdx) as [player|] eqn:Hp.
  2:{ rewrite (selectPeers_absent_player _ _ _ sender) in Hsel by done.
      destruct (candidates _ _ _); simplify_eq. }
  exists player. split; [done|]. intros ws N.
  rewrite (selectPeers_present _ _ _ sender player) in Hsel by done.
  fold ws in Hsel. injection Hsel as <-.
  assert (Hlen : (length ws <= length (peersInRange s sender))%nat).
  { subst ws. rewrite length_map. apply candidates_length. }
  assert (HN : length_or_1 (peers s) = N).
  { apply length_or_1_nonempty. intros Hnil. rewrite Hnil in Hs.
    unfold array_get in Hs. by rewrite lookup_nil in Hs. }
  rewrite HN in *.
  rewrite map_prob_zip by (rewrite length_map, length_take; lia).
  split; [done|]. split.
  - intros Hd. by rewrite participant_count_dense.
  - intros (He & _ & Hd0 & Hv0 & Hb).
    assert (Hws : Forall (fun w => 0 < w) ws).
    { subst ws. apply Forall_fmap, Forall_true. intros peer.
      by apply weight_pos. }
    apply Forall_forall. intros p Hin.
    apply list_elem_of_fmap in Hin as (w & -> & Hw).
    apply probability_floor; try done.
    rewrite <- HN. apply length_or_1_ge.
Qed.

(** *** Concrete runs *)

Lemma probability_single cfg w N :
  0 < w -> probability cfg (totalWeight [w]) N w
           = (1 - epsilon cfg) + epsilon cfg / N.
Proof.
  intros Hw. unfold probability, totalWeight. simpl.
  destruct (Req_dec_T (0 + w) 0) as [E|_]; [lra|].
  replace (w / (0 + w)) with 1 by (field; lra). lra.
Qed.

Lemma two_peers_run : Scenarios.two_peers = Some Scenarios.two_peers_state.
Proof. unfold Scenarios.two_peers, insertPeer. run. reflexivity. Qed.

Lemma sparse_ids_run : Scenarios.sparse_ids = Some Scenarios.sparse_ids_state.
Proof. unfold Scenarios.sparse_ids, insertPeer. run. reflexivity. Qed.

Lemma reinserted_run : Scenarios.reinserted = Some Scenarios.reinserted_state.
Proof. unfold Scenarios.reinserted, insertPeer. run. reflexivity. Qed.

Lemma spec_scenario_run v lat :
  Scenarios.spec_scenario v lat = Some (Scenarios.spec_scenario_state v lat).
Proof.
  unfold Scenarios.spec_scenario, insertPeer, updatePeer. run. reflexivity.
Qed.

(** Evaluating [selectPeers] once the identifiers in range are known. *)
Ltac run_select sender player inRange :=
  let Hin := fresh "Hin" in
  match goal with
  | |- selectPeers ?s _ _ = _ =>
    assert (Hin : peersInRange s sender = inRange)
      by (unfold peersInRange; run; reflexivity);
    rewrite (selectPeers_present s _ _ sender player) by reflexivity;
    cbv zeta; rewrite Hin;
    cbn -[weight probability totalWeight length_or_1];
    rewrite probability_single by (apply weight_pos; simpl; lra);
    unfold length_or_1; simpl; repeat f_equal; lra
  end.

Lemma two_peers_select :
  selectPeers Scenarios.two_peers_state 0 0
  = (Scenarios.two_peers_state, Return [mkSelection 0 (39 / 40)]).
Proof.
  run_select (mkPeer 0 100 100 0 0 1 0) (mkPeer 0 100 100 0 0 1 0) [0; 1]%nat.
Qed.

Lemma sparse_ids_select :
  selectPeers Scenarios.sparse_ids_state 0 0
  = (Scenarios.sparse_ids_state, Return [mkSelection 3 (77 / 80)]).
Proof.
  run_select (mkPeer 0 100 100 0 0 1 0) (mkPeer 0 100 100 0 0 1 0) [3; 0]%nat.
Qed.

Lemma reinserted_select :
  selectPeers Scenarios.reinserted_state 0 0
  = (Scenarios.reinserted_state, Return [mkSelection 1 (39 / 40)]).
Proof.
  run_select (mkPeer 0 100 100 0 0 1 0) (mkPeer 0 100 100 0 0 1 0) [1; 0]%nat.
Qed.

Lemma spec_scenario_select v lat :
  selectPeers (Scenarios.spec_scenario_state v lat) 0 0
  = (Scenarios.spec_scenario_state v lat, Return [mkSelection 0 (77 / 80)]).
Proof.
  run_select (mkPeer 0 100 100 (v 0%nat).1 (v 0%nat).2 (9 / 10) (lat 0%nat))
             (mkPeer 0 100 100 (v 0%nat).1 (v 0%nat).2 (9 / 10) (lat 0%nat))
             [0; 1]%nat.
Qed.

(** *** C1 *)

(** C1 fails on the code (self-exclusion).  Default configuration, peer 0
    inserted at (100,100), then peer 1 at (150,100).  The query around peer 0
    returns the identifiers [0; 1]; the loop skips 0 and weighs 1, so
    [weights] has one entry; the final [filter] keeps position 0 of
    [peersInRange], which is the sender: [selectPeers(0, 0)] returns the
    sender itself, with the probability computed for peer 1. *)
Theorem self_exclusion_violated :
  exists s sender p,
    Scenarios.two_peers = Some s
    /\ array_get (peers s) 0%nat = Some sender
    /\ selectPeers s 0 0 = (s, Return [mkSelection 0 p]).
Proof.
  exists Scenarios.two_peers_state, (mkPeer 0 100 100 0 0 1 0), (39 / 40).
  split; [apply two_peers_run|]. split; [reflexivity|apply two_peers_select].
Qed.

(** *** C5: the counterexample and the witness *)

(** C5 as stated fails: with identifiers 0 and 3 only there are two
    participants, but the participant array has length 4, and the probability
    returned is [0.95 + 0.05 / 4], not [0.95 + 0.05 / 2]. *)
Lemma probability_formula_counterexample :
  exists s sender peer p,
    Scenarios.sparse_ids = Some s
    /\ array_get (peers s) 0%nat = Some sender
    /\ array_get (peers s) 3%nat = Some peer
    /\ selectPeers s 0 0 = (s, Return [mkSelection 3 p])
    /\ participant_count (peers s) = 2%nat
    /\ let w := weight (config s) sender sender peer in
       p <> probability (config s) (totalWeight [w])
              (INR (participant_count (peers s))) w.
Proof.
  exists Scenarios.sparse_ids_state, (mkPeer 0 100 100 0 0 1 0),
         (mkPeer 3 110 100 0 0 1 0), (77 / 80).
  split; [apply sparse_ids_run|]. split; [reflexivity|].
  split; [reflexivity|]. split; [apply sparse_ids_select|].
  split; [reflexivity|]. cbv zeta.
  rewrite probability_single by (apply weight_pos; simpl; lra).
  simpl. lra.
Qed.

Lemma probability_formula_witness :
  exists player,
    array_get (peers Scenarios.two_peers_state) 0%nat = Some player
    /\ let ws := map (weight (config Scenarios.two_peers_state)
                        (mkPeer 0 100 100 0 0 1 0) player)
                   (candidates Scenarios.two_peers_state 0
                      (peersInRange Scenarios.two_peers_state
                         (mkPeer 0 100 100 0 0 1 0))) in
       let N := INR (length (peers Scenarios.two_peers_state)) in
       map prob [mkSelection 0 (39 / 40)]
       = map (probability (config Scenarios.two_peers_state)
                (totalWeight ws) N) ws
       /\ (Forall is_Some (peers Scenarios.two_peers_state) ->
           N = INR (participant_count (peers Scenarios.two_peers_state)))
       /\ (config_ok (config Scenarios.two_peers_state) ->
           Forall (floor_ok (config Scenarios.two_peers_state) N)
             (map prob [mkSelection 0 (39 / 40)])).
Proof.
  apply (probability_formula Scenarios.two_peers_state 0 0
           (mkPeer 0 100 100 0 0 1 0) [mkSelection 0 (39 / 40)]).
  - reflexivity.
  - apply two_peers_select.
  - discriminate.
Defined.

(** *** C6 *)

Lemma elem_of_filter_bool {A} (f : A -> bool) (l : list A) a :
  a ∈ List.filter f l <-> a ∈ l /\ f a = true.
Proof. rewrite !list_elem_of_In. apply List.filter_In. Qed.

(** [query] only returns points of the tree that pass [pointInRange]. *)
Lemma query_sound t range found q :
  q ∈ QuadTree.query t range found ->
  q ∈ found
  \/ (q ∈ QuadTree.all_points t /\ QuadTree.pointInRange q range = true).
Proof.
  revert found.
  induction t as [b c ps|b c ps nw IHnw ne IHne sw IHsw se IHse];
    intros found; simpl; destruct (QuadTree.intersects b range); simpl;
    try tauto.
  - rewrite elem_of_app, elem_of_filter_bool. tauto.
  - intros H.
    apply IHse in H as [H|H]; [|rewrite !elem_of_app; tauto].
    apply IHsw in H as [H|H]; [|rewrite !elem_of_app; tauto].
    apply IHne in H as [H|H]; [|rewrite !elem_of_app; tauto].
    apply IHnw in H as [H|H]; [|rewrite !elem_of_app; tauto].
    revert H. rewrite !elem_of_app, elem_of_filter_bool. tauto.
Qed.

(** Every identifier in range belongs to a point of the index within the
    horizon of the sender. *)
Lemma peersInRange_sound s sender j :
  0 <= horizon (config s) ->
  j ∈ peersInRange s sender ->
  exists q, q ∈ QuadTree.all_points (quadtree s) /\ QuadTree.pidx q = j
            /\ distance (QuadTree.px q) (QuadTree.py q) (x sender) (y sender)
               <= horizon (config s).
Proof.
  intros HR Hj. unfold peersInRange in Hj.
  apply list_elem_of_fmap in Hj as (q & -> & Hq).
  apply query_sound in Hq as [Hq|[Hq Hin]]; [by apply elem_of_nil in Hq|].
  exists q. split; [done|]. split; [done|].
  rewrite QuadTreeTheory.pointInRange_distance in Hin by exact HR.
  apply Rleb_le in Hin. exact Hin.
Qed.

Lemma slots_ok_array_set arr id rec :
  slots_ok arr -> idx rec = id -> slots_ok (array_set arr id rec).
Proof.
  intros Hok Hid i peer. destruct (decide (id = i)) as [->|Hne].
  - rewrite array_get_set_eq. by intros [= <-].
  - rewrite array_get_set_ne by done. apply Hok.
Qed.

(** After [updatePeer] the index is current. *)
Lemma updatePeer_index_current s id px py pvx pvy ptdf plat s' :
  (1 <= capacity (config s))%nat -> slots_ok (peers s) ->
  updatePeer s id px py pvx pvy ptdf plat = Some s' ->
  index_current s' /\ slots_ok (peers s').
Proof.
  intros HC Hok. unfold updatePeer.
  set (arr := array_set (peers s) id (mkPeer id px py pvx pvy ptdf plat)).
  assert (Hok' : slots_ok arr) by (by apply slots_ok_array_set).
  destruct (forEach_insert_spec (capacity (config s))
              (QuadTree.new_QuadTree (boundary (config s)) (capacity (config s)))
              arr HC (QuadTreeTheory.wf_new_QuadTree _ _))
    as (qt & E & W & B & P).
  rewrite E. intros [= <-]. split; [|done].
  intros q peer Hq Hpeer. simpl in *.
  rewrite P in Hq. simpl in Hq.
  apply elem_of_filter_bool in Hq as [Hq _].
  apply list_elem_of_fmap in Hq as (peer0 & -> & Hp0).
  apply elem_of_live in Hp0 as [i Hi].
  simpl in Hpeer. rewrite (Hok' i peer0 Hi) in Hpeer. fold arr in Hpeer.
  rewrite Hi in Hpeer. by injection Hpeer as <-.
Qed.

(** C6, as the code has it (causal horizon).  For a non-negative horizon [R =
    nCells * cellSize * deltaT] and a sender whose record is present, every
    returned identifier is the identifier of an index point within Euclidean
    distance [R] of the sender's position; and when the index is current (each
    point at the position its record has now, as after every [updatePeer]),
    every returned peer itself lies within [R] of the sender. *)
Theorem causal_horizon s senderIdx playerIdx sender sels :
  0 <= horizon (config s) ->
  array_get (peers s) senderIdx = Some sender ->
  selectPeers s senderIdx playerIdx = (s, Return sels) ->
  forall sel, sel ∈ sels ->
    (exists q, q ∈ QuadTree.all_points (quadtree s)
               /\ QuadTree.pidx q = peerIdx sel
               /\ distance (QuadTree.px q) (QuadTree.py q) (x sender) (y sender)
                  <= horizon (config s))
    /\ (index_current s ->
        forall peer, array_get (peers s) (peerIdx sel) = Some peer ->
        distance (x peer) (y peer) (x sender) (y sender) <= horizon (config s)).
Proof.
  intros HR Hs Hsel sel Hin.
  assert (Hj : peerIdx sel ∈ peersInRange s sender).
  { destruct (array_get (peers s) playerIdx) as [player|] eqn:Hp.
    - rewrite (selectPeers_present _ _ _ sender player) in Hsel by done.
      injection Hsel as <-.
      apply list_elem_of_lookup in Hin as [i Hi].
      apply lookup_zip_with_Some in Hi as (j & p & -> & Hj & _).
      simpl. apply lookup_take_Some in Hj as [Hj _].
      by eapply list_elem_of_lookup_2.
    - rewrite (selectPeers_absent_player _ _ _ sender) in Hsel by done.
      destruct (candidates _ _ _); simplify_eq. by apply elem_of_nil in Hin. }
  destruct (peersInRange_sound s sender _ HR Hj) as (q & Hq & Hidx & Hd).
  split; [by exists q|].
  intros Hcur peer Hpeer. rewrite <- Hidx in Hpeer.
  destruct (Hcur q peer Hq Hpeer) as [-> ->]. done.
Qed.

Lemma two_peers_index_current : index_current Scenarios.two_peers_state.
Proof.
  intros q peer Hq Hpeer. simpl in Hq.
  rewrite !elem_of_cons in Hq. destruct Hq as [->|[->|Hq]];
    [| |by apply elem_of_nil in Hq]; cbn in Hpeer; injection Hpeer as <-; done.
Qed.

Lemma causal_horizon_witness :
  index_current Scenarios.two_peers_state
  /\ (exists q, q ∈ QuadTree.all_points (quadtree Scenarios.two_peers_state)
                /\ QuadTree.pidx q = peerIdx (mkSelection 0 (39 / 40))
                /\ distance (QuadTree.px q) (QuadTree.py q) 100 100
                   <= horizon (config Scenarios.two_peers_state))
  /\ (index_current Scenarios.two_peers_state ->
      forall peer,
        array_get (peers Scenarios.two_peers_state)
          (peerIdx (mkSelection 0 (39 / 40))) = Some peer ->
        distance (x peer) (y peer) 100 100
        <= horizon (config Scenarios.two_peers_state)).
Proof.
  split; [apply two_peers_index_current|].
  apply (causal_horizon Scenarios.two_peers_state 0 0
           (mkPeer 0 100 100 0 0 1 0) [mkSelection 0 (39 / 40)]).
  - unfold horizon, cellSize. simpl. lra.
  - reflexivity.
  - apply two_peers_select.
  - apply list_elem_of_singleton. reflexivity.
Defined.

(** C6 as stated fails: peer 1 is inserted at (110,100), peer 0 at (100,100),
    and peer 1 is inserted again at (900,900).  The index keeps the point
    (110,100) of peer 1, so [selectPeers(0, 0)] returns peer 1, whose record
    is at (900,900): farther than the horizon 62.5 from the sender. *)
Lemma causal_horizon_counterexample :
  exists s sender peer p,
    Scenarios.reinserted = Some s
    /\ array_get (peers s) 0%nat = Some sender
    /\ selectPeers s 0 0 = (s, Return [mkSelection 1 p])
    /\ array_get (peers s) 1%nat = Some peer
    /\ horizon (config s)
       < distance (x peer) (y peer) (x sender) (y sender).
Proof.
  exists Scenarios.reinserted_state, (mkPeer 0 100 100 0 0 1 0),
         (mkPeer 1 900 900 0 0 1 0), (39 / 40).
  split; [apply reinserted_run|]. split; [reflexivity|].
  split; [apply reinserted_select|]. split; [reflexivity|].
  apply Rlt_le_trans with 800.
  - unfold horizon, cellSize. simpl. lra.
  - unfold distance, norm, subtract. simpl.
    rewrite <- (sqrt_square 800) at 1 by lra. apply sqrt_le_1_alt. lra.
Qed.

(** *** C8 *)

(** C8 as stated fails: with all velocities zero and all latencies 0.05,
    [selectPeers(0, 0)] returns the single entry of identifier 0; neither
    peer 1 nor peer 2 is in the result. *)
Lemma concrete_scenario_counterexample :
  exists s sels,
    Scenarios.spec_scenario (fun _ => (0, 0)) (fun _ => 1 / 20) = Some s
    /\ selectPeers s 0 0 = (s, Return sels)
    /\ ~ ((1%nat ∈ map peerIdx sels) /\ (2%nat ∈ map peerIdx sels)
          /\ (3%nat ∉ map peerIdx sels)
          /\ Forall (floor_ok (config s) (INR (participant_count (peers s))))
               (map prob sels)).
Proof.
  do 2 eexists. split; [apply spec_scenario_run|].
  split; [apply spec_scenario_select|].
  simpl. intros (H1 & _). apply list_elem_of_singleton in H1. done.
Qed.

(** C8, as the code has it (concrete scenario).  World side 800 and the
    default constants, so that [cellSize = 25] and the horizon is [R = 50];
    participants 0 at (100,100), 1 at (150,100), 2 at (100,200) and 3 at
    (500,500) inserted, then all updated in place, participant 0 with tdf 0.9
    and the others with tdf 1.0, whatever the velocities and latencies of the
    updates.  Then [selectPeers(0, 0)] returns one entry; it excludes peer 3
    and also peer 2, which at distance 100 lies outside the horizon; and the
    returned probability satisfies the floor property for the [N = 4]
    participants. *)
Theorem concrete_scenario (v : nat -> R * R) (lat : nat -> R) :
  exists s sels,
    Scenarios.spec_scenario v lat = Some s
    /\ selectPeers s 0 0 = (s, Return sels)
    /\ cellSize (config s) = 25 /\ horizon (config s) = 50
    /\ length sels = 1%nat
    /\ (2%nat ∉ map peerIdx sels) /\ (3%nat ∉ map peerIdx sels)
    /\ distance 100 200 100 100 = 100
    /\ participant_count (peers s) = 4%nat
    /\ Forall (floor_ok (config s) (INR (participant_count (peers s))))
         (map prob sels).
Proof.
  do 2 eexists. split; [apply spec_scenario_run|].
  split; [apply spec_scenario_select|].
  split; [unfold cellSize; simpl; lra|].
  split; [unfold horizon, cellSize; simpl; lra|].
  split; [reflexivity|]. simpl.
  split; [intros H; apply list_elem_of_singleton in H; done|].
  split; [intros H; apply list_elem_of_singleton in H; done|].
  split.
  { unfold distance, norm, subtract. simpl.
    replace ((100 - 100) * ((100 - 100) * 1) + (200 - 100) * ((200 - 100) * 1))
      with (100 * 100) by lra.
    apply sqrt_square. lra. }
  split; [reflexivity|].
  repeat constructor; unfold floor_ok; simpl; lra.
Qed.

End LightSeedTheory.

(** ** Further properties of the engine *)

Module LightSeedMore.
Import LightSeed LightSeedSpec EngineSpec LightSeedTheory.

(** *** How [selectPeers] ends *)

(** X9 (absent subject).  When the sender's record exists and the subject's
    does not, [selectPeers] throws the TypeError of [this.peers[playerIdx].x]
    as soon as one candidate is weighed, and returns the empty sequence when
    there is none; the engine is unchanged either way. *)
Theorem selectPeers_absent_subject s senderIdx playerIdx sender :
  array_get (peers s) senderIdx = Some sender ->
  array_get (peers s) playerIdx = None ->
  (candidates s senderIdx (peersInRange s sender) = [] ->
   selectPeers s senderIdx playerIdx = (s, Return []))
  /\ (candidates s senderIdx (peersInRange s sender) <> [] ->
      selectPeers s senderIdx playerIdx = (s, TypeError)).
Proof.
  intros Hs Hp. rewrite (selectPeers_absent_player _ _ _ sender) by done.
  destruct (candidates _ _ _); split; done.
Qed.

Lemma selectPeers_absent_subject_witness :
  (candidates Scenarios.two_peers_state 0
     (peersInRange Scenarios.two_peers_state (mkPeer 0 100 100 0 0 1 0)) = [] ->
   selectPeers Scenarios.two_peers_state 0 7
   = (Scenarios.two_peers_state, Return []))
  /\ (candidates Scenarios.two_peers_state 0
        (peersInRange Scenarios.two_peers_state (mkPeer 0 100 100 0 0 1 0))
      <> [] ->
      selectPeers Scenarios.two_peers_state 0 7
      = (Scenarios.two_peers_state, TypeError)).
Proof.
  apply (selectPeers_absent_subject Scenarios.two_peers_state 0 7
           (mkPeer 0 100 100 0 0 1 0)); reflexivity.
Defined.

(** X10 (shape of the result).  When the records of sender and subject both
    exist, [selectPeers] returns without throwing; the result has one entry
    per weighed candidate, its probabilities are the candidates'
    probabilities in order, and its identifiers are the first entries of the
    query result, as many as there are candidates. *)
Theorem selectPeers_shape s senderIdx playerIdx sender player :
  array_get (peers s) senderIdx = Some sender ->
  array_get (peers s) playerIdx = Some player ->
  let inRange := peersInRange s sender in
  let cands := candidates s senderIdx inRange in
  let ws := map (weight (config s) sender player) cands in
  exists sels,
    selectPeers s senderIdx playerIdx = (s, Return sels)
    /\ length sels = length cands
    /\ map peerIdx sels = take (length cands) inRange
    /\ map prob sels
       = map (probability (config s) (totalWeight ws)
                (length_or_1 (peers s))) ws.
Proof.
  intros Hs Hp inRange cands ws.
  rewrite (selectPeers_present _ _ _ sender player) by done.
  fold inRange cands ws. eexists. split; [reflexivity|].
  assert (Hlen : (length cands <= length inRange)%nat)
    by apply candidates_length.
  assert (Hws : length ws = length cands) by (subst ws; by rewrite length_map).
  rewrite Hws. split; [|split].
  - rewrite length_zip_with, length_take, !length_map. lia.
  - apply map_peerIdx_zip. rewrite length_take, !length_map. lia.
  - apply map_prob_zip. rewrite length_take, !length_map. lia.
Qed.

Lemma selectPeers_shape_witness :
  let s := Scenarios.two_peers_state in
  let sender := mkPeer 0 100 100 0 0 1 0 in
  let inRange := peersInRange s sender in
  let cands := candidates s 0 inRange in
  let ws := map (weight (config s) sender sender) cands in
  exists sels,
    selectPeers s 0 0 = (s, Return sels)
    /\ length sels = length cands
    /\ map peerIdx sels = take (length cands) inRange
    /\ map prob sels
       = map (probability (config s) (totalWeight ws)
                (length_or_1 (peers s))) ws.
Proof.
  apply (selectPeers_shape Scenarios.two_peers_state 0 0
           (mkPeer 0 100 100 0 0 1 0) (mkPeer 0 100 100 0 0 1 0));
    reflexivity.
Defined.

Lemma candidates_app s senderIdx l1 l2 :
  candidates s senderIdx (l1 ++ l2)
  = candidates s senderIdx l1 ++ candidates s senderIdx l2.
Proof. unfold candidates. by rewrite List.filter_app, omap_app. Qed.

Lemma candidates_kept s senderIdx kept :
  Forall (fun j => j <> senderIdx /\ is_Some (array_get (peers s) j)) kept ->
  Forall2 (fun j peer => array_get (peers s) j = Some peer)
    kept (candidates s senderIdx kept).
Proof.
  unfold candidates.
  induction 1 as [|j kept [Hj [peer Hpeer]] _ IH]; cbn; [constructor|].
  apply Nat.eqb_neq in Hj. rewrite Hj. cbn. rewrite Hpeer. by constructor.
Qed.

Lemma candidates_skipped s senderIdx skipped :
  Forall (fun j => j = senderIdx \/ array_get (peers s) j = None) skipped ->
  candidates s senderIdx skipped = [].
Proof.
  unfold candidates. induction 1 as [|j skipped Hj _ IH]; cbn; [done|].
  destruct (Nat.eqb_spec j senderIdx) as [->|Hne]; cbn; [done|].
  destruct Hj as [->|Hj]; [done|]. by rewrite Hj.
Qed.

(** X11 (when the result is right).  If no skipped identifier comes before a
    weighed one in the query result (the sender's point is the last one in
    range, or the sender is not indexed at all), the final [filter] keeps the
    weighed identifiers: the result lists exactly these, each with the
    probability computed from the weight of its own record, and the sender is
    not among them. *)
Theorem selectPeers_prefix s senderIdx playerIdx sender player kept skipped :
  array_get (peers s) senderIdx = Some sender ->
  array_get (peers s) playerIdx = Some player ->
  peersInRange s sender = kept ++ skipped ->
  Forall (fun j => j <> senderIdx /\ is_Some (array_get (peers s) j)) kept ->
  Forall (fun j => j = senderIdx \/ array_get (peers s) j = None) skipped ->
  let ws := map (weight (config s) sender player)
              (candidates s senderIdx (peersInRange s sender)) in
  exists sels,
    selectPeers s senderIdx playerIdx = (s, Return sels)
    /\ map peerIdx sels = kept
    /\ (senderIdx ∉ map peerIdx sels)
    /\ Forall (fun sel =>
                 exists peer,
                   array_get (peers s) (peerIdx sel) = Some peer
                   /\ prob sel
                      = probability (config s) (totalWeight ws)
                          (length_or_1 (peers s))
                          (weight (config s) sender player peer)) sels.
Proof.
  intros Hs Hp Hin Hkept Hskip ws.
  rewrite (selectPeers_present _ _ _ sender player) by done.
  fold ws. eexists. split; [reflexivity|].
  pose proof (candidates_kept s senderIdx kept Hkept) as HF.
  assert (Hc : candidates s senderIdx (peersInRange s sender)
               = candidates s senderIdx kept).
  { rewrite Hin, candidates_app, (candidates_skipped _ _ skipped) by done.
    by rewrite app_nil_r. }
  assert (Hlen : length ws = length kept).
  { subst ws. rewrite length_map, Hc. symmetry. by eapply Forall2_length. }
  rewrite Hlen, Hin, take_app_length.
  assert (Hids : map peerIdx
                   (zip_with mkSelection kept
                      (map (probability (config s) (totalWeight ws)
                              (length_or_1 (peers s))) ws)) = kept).
  { apply map_peerIdx_zip. rewrite length_map. lia. }
  split; [done|]. split.
  - rewrite Hids. intros Hx. rewrite Forall_forall in Hkept.
    destruct (Hkept _ Hx) as [Hne _]. done.
  - generalize (totalWeight ws). intros total. subst ws. rewrite Hc.
    clear -HF. induction HF as [|j peer kept cands Hj _ IH]; cbn;
      constructor; [|done].
    exists peer. done.
Qed.

Lemma selectPeers_prefix_witness :
  let s := sender_last_state in
  let sender := mkPeer 0 100 100 0 0 1 0 in
  let ws := map (weight (config s) sender sender)
              (candidates s 0 (peersInRange s sender)) in
  exists sels,
    selectPeers s 0 0 = (s, Return sels)
    /\ map peerIdx sels = [1%nat]
    /\ (0%nat ∉ map peerIdx sels)
    /\ Forall (fun sel =>
                 exists peer,
                   array_get (peers s) (peerIdx sel) = Some peer
                   /\ prob sel
                      = probability (config s) (totalWeight ws)
                          (length_or_1 (peers s))
                          (weight (config s) sender sender peer)) sels.
Proof.
  apply (selectPeers_prefix sender_last_state 0 0
           (mkPeer 0 100 100 0 0 1 0) (mkPeer 0 100 100 0 0 1 0)
           [1%nat] [0%nat]).
  - reflexivity.
  - reflexivity.
  - unfold peersInRange. run. reflexivity.
  - repeat constructor; [lia|]. eexists. reflexivity.
  - repeat constructor.
Defined.

(** *** The vector helpers *)

Lemma dot_sqr_le u v :
  dot u v * dot u v <= (u.1 ^ 2 + u.2 ^ 2) * (v.1 ^ 2 + v.2 ^ 2).
Proof.
  unfold dot. destruct u as [a1 a2], v as [b1 b2]. simpl.
  pose proof (Rle_0_sqr (a1 * b2 - a2 * b1)) as H. unfold Rsqr in H. nra.
Qed.

Lemma dot_abs_le u v : Rabs (dot u v) <= norm u * norm v.
Proof.
  unfold norm. rewrite <- sqrt_mult_alt by nra.
  rewrite <- sqrt_Rsqr_abs. apply sqrt_le_1_alt. unfold Rsqr.
  apply dot_sqr_le.
Qed.

Lemma norm_subtract_self a : norm (subtract a a) = 0.
Proof.
  destruct a as [a1 a2]. unfold norm, subtract. simpl.
  replace ((a1 - a1) * ((a1 - a1) * 1) + (a2 - a2) * ((a2 - a2) * 1))
    with 0 by ring.
  apply sqrt_0.
Qed.

(** X12 (Cauchy-Schwarz for the helpers).  The dot product of two vectors is
    at most the product of their norms, in absolute value; in particular the
    component of a velocity along a direction never exceeds the speed. *)
Theorem dot_le_norm u v :
  Rabs (dot u v) <= norm u * norm v
  /\ (0 < norm v -> - norm u <= dot u v / norm v <= norm u).
Proof.
  pose proof (dot_abs_le u v) as H. split; [done|].
  intros Hv.
  assert (Ha : Rabs (dot u v / norm v) <= norm u).
  { unfold Rdiv. rewrite Rabs_mult, (Rabs_pos_eq (/ norm v)).
    - apply (Rmult_le_reg_r (norm v)); [done|].
      rewrite Rmult_assoc, Rinv_l by lra. lra.
    - left. by apply Rinv_0_lt_compat. }
  pose proof (Rle_abs (dot u v / norm v)) as H1.
  pose proof (Rle_abs (- (dot u v / norm v))) as H2.
  rewrite Rabs_Ropp in H2. lra.
Qed.

(** X13 (the norm of a difference is a distance).  It is never negative, it
    does not depend on the order of the two positions, and it is zero
    exactly when they are equal. *)
Theorem norm_subtract_distance a b :
  0 <= norm (subtract a b)
  /\ norm (subtract a b) = norm (subtract b a)
  /\ (norm (subtract a b) = 0 <-> a = b).
Proof.
  destruct a as [a1 a2], b as [b1 b2]. unfold norm, subtract. simpl.
  split; [apply sqrt_pos|]. split.
  - f_equal. ring.
  - pose proof (Rle_0_sqr (a1 - b1)) as S1.
    pose proof (Rle_0_sqr (a2 - b2)) as S2. unfold Rsqr in S1, S2.
    split.
    + intros H. apply sqrt_eq_0 in H; [|nra].
      assert (H1 : (a1 - b1) * (a1 - b1) = 0) by lra.
      assert (H2 : (a2 - b2) * (a2 - b2) = 0) by lra.
      apply Rmult_integral in H1, H2. f_equal; lra.
    + intros [= -> ->]. apply (norm_subtract_self (b1, b2)).
Qed.

(** *** The weight *)

Lemma closing_speed_le (rv rp : R * R) :
  0 < norm rp -> Rmax 0 (- dot rv rp / norm rp) <= norm rv.
Proof.
  intros Hd. apply Rmax_lub; [apply norm_nonneg|].
  apply (Rmult_le_reg_r (norm rp)); [done|].
  unfold Rdiv. rewrite Rmult_assoc, Rinv_l, Rmult_1_r by lra.
  pose proof (dot_abs_le rv rp) as H.
  pose proof (Rle_abs (- dot rv rp)) as H'. rewrite Rabs_Ropp in H'. lra.
Qed.

(** X14 (bounds of a weight).  For [sigma <> 0], [d0 > 0], [v0 > 0] and [beta
    >= 0] no weight is negative and every weight is at most [1000 * (1 + beta
    * u / v0)], where [u] is the speed of the subject relative to the peer:
    the latency term is at most [1 / 0.001], the similarity and distance
    terms are at most 1, and the closing speed is at most the relative
    speed. *)
Theorem weight_bounds cfg sender player peer :
  sigma cfg <> 0 -> 0 < d0 cfg -> 0 < v0 cfg -> 0 <= beta cfg ->
  0 <= weight cfg sender player peer
    <= 1000 * (1 + beta cfg * (relative_speed player peer / v0 cfg)).
Proof.
  intros Hs Hd Hv Hb. split; [left; by apply weight_pos|].
  unfold weight, relative_speed.
  set (rp := subtract (x player, y player) (x peer, y peer)).
  set (rv := subtract (vx player, vy player) (vx peer, vy peer)).
  set (dkj := norm rp).
  assert (Hdkj : 0 <= dkj) by apply norm_nonneg.
  set (skj := if Rltb 0 dkj then _ else _).
  assert (Hskj : 0 <= skj <= norm rv).
  { subst skj. destruct (Rltb 0 dkj) eqn:E.
    - apply Rltb_lt in E. split; [apply Rmax_l|by apply closing_speed_le].
    - split; [lra|apply norm_nonneg]. }
  set (lt := 1 / Rmax (latency peer) (1 / 1000)).
  assert (Hlt : 0 < lt <= 1000).
  { subst lt. pose proof (Rmax_r (latency peer) (1 / 1000)) as Hm.
    split; [apply Rdiv_lt_0_compat; lra|].
    apply (Rmult_le_reg_r (Rmax (latency peer) (1 / 1000))); [lra|].
    unfold Rdiv at 1. rewrite Rmult_assoc, Rinv_l by lra. lra. }
  set (tt := exp _).
  assert (Htt : 0 < tt <= 1).
  { subst tt. split; [apply exp_pos|].
    rewrite <- exp_0.
    set (e := - (tdf sender - tdf peer) ^ 2 / (2 * sigma cfg ^ 2)).
    assert (He : e <= 0).
    { subst e. unfold Rdiv. rewrite <- Ropp_mult_distr_l.
      apply Ropp_le_cancel. rewrite Ropp_involutive, Ropp_0.
      apply Rle_mult_inv_pos; [apply pow2_ge_0|].
      pose proof (Rsqr_pos_lt _ Hs) as Hsq. unfold Rsqr in Hsq. simpl. lra. }
    destruct He as [He|He]; [left; by apply exp_increasing|rewrite He; lra]. }
  set (dt := 1 / (1 + dkj / d0 cfg)).
  assert (Hdt : 0 < dt <= 1).
  { subst dt. assert (0 <= dkj / d0 cfg) by (apply Rdiv_nonneg; lra).
    split; [apply Rdiv_lt_0_compat; lra|].
    apply (Rmult_le_reg_r (1 + dkj / d0 cfg)); [lra|].
    unfold Rdiv at 1. rewrite Rmult_assoc, Rinv_l by lra. lra. }
  set (st := 1 + beta cfg * (skj / v0 cfg)).
  set (sb := 1 + beta cfg * (norm rv / v0 cfg)).
  assert (Hst : 0 < st <= sb).
  { subst st sb. assert (0 <= skj / v0 cfg) by (apply Rdiv_nonneg; lra).
    assert (skj / v0 cfg <= norm rv / v0 cfg).
    { unfold Rdiv. apply Rmult_le_compat_r; [|lra].
      left. by apply Rinv_0_lt_compat. }
    split; nra. }
  assert (H1 : lt * tt <= 1000) by nra.
  assert (H2 : 0 < lt * tt) by (apply Rmult_lt_0_compat; lra).
  assert (H3 : lt * tt * dt <= 1000) by nra.
  assert (H4 : 0 < lt * tt * dt) by (apply Rmult_lt_0_compat; lra).
  nra.
Qed.

Lemma weight_bounds_witness :
  0 <= weight DEFAULT_CONFIG (mkPeer 0 100 100 5 0 (9 / 10) (1 / 20))
        (mkPeer 0 100 100 5 0 (9 / 10) (1 / 20))
        (mkPeer 1 150 100 (-5) 0 (17 / 20) (1 / 20))
    <= 1000 * (1 + 1 * (relative_speed
                          (mkPeer 0 100 100 5 0 (9 / 10) (1 / 20))
                          (mkPeer 1 150 100 (-5) 0 (17 / 20) (1 / 20)) / 5)).
Proof.
  apply (weight_bounds DEFAULT_CONFIG
           (mkPeer 0 100 100 5 0 (9 / 10) (1 / 20))
           (mkPeer 0 100 100 5 0 (9 / 10) (1 / 20))
           (mkPeer 1 150 100 (-5) 0 (17 / 20) (1 / 20)));
    simpl; lra.
Defined.

Lemma weight_latency_factor cfg sender player peer l :
  weight cfg sender player (with_latency peer l)
  = 1 / Rmax l (1 / 1000)
    * (weight cfg sender player (with_latency peer 0) / 1000).
Proof.
  unfold weight, with_latency. cbn [latency x y vx vy tdf idx].
  rewrite (Rmax_right 0 (1 / 1000)) by lra.
  pose proof (Rmax_r l (1 / 1000)) as Hm.
  set (tt := exp _). set (dt := 1 / (1 + _ / d0 cfg)).
  set (st := 1 + beta cfg * _).
  field. lra.
Qed.

(** X15 (latency term).  For [d0 > 0], [v0 > 0] and [beta >= 0], a peer's
    weight does not grow with its latency: of two records that differ only
    in latency, the one with the lower latency weighs at least as much; and
    every latency up to the floor 0.001, negative ones included, weighs the
    same. *)
Theorem weight_latency cfg sender player peer l1 l2 :
  0 < d0 cfg -> 0 < v0 cfg -> 0 <= beta cfg ->
  l1 <= l2 ->
  weight cfg sender player (with_latency peer l2)
  <= weight cfg sender player (with_latency peer l1)
  /\ (l2 <= 1 / 1000 ->
      weight cfg sender player (with_latency peer l2)
      = weight cfg sender player (with_latency peer l1)).
Proof.
  intros Hd Hv Hb Hl.
  pose proof (weight_pos cfg sender player (with_latency peer 0) Hd Hv Hb)
    as Hpos.
  rewrite (weight_latency_factor _ _ _ _ l1), (weight_latency_factor _ _ _ _ l2).
  set (K := weight _ _ _ _ / 1000). assert (HK : 0 < K) by (subst K; lra).
  split.
  - apply Rmult_le_compat_r; [lra|].
    pose proof (Rmax_r l1 (1 / 1000)) as H1.
    pose proof (Rle_max_compat_r l1 l2 (1 / 1000) Hl) as H2.
    set (M1 := Rmax l1 (1 / 1000)) in *. set (M2 := Rmax l2 (1 / 1000)) in *.
    unfold Rdiv. rewrite !Rmult_1_l. apply Rinv_le_contravar; lra.
  - intros Hf. rewrite !Rmax_right by lra. done.
Qed.

Lemma weight_latency_witness :
  weight DEFAULT_CONFIG (mkPeer 0 100 100 0 0 1 0) (mkPeer 0 100 100 0 0 1 0)
    (with_latency (mkPeer 1 150 100 0 0 1 0) (1 / 10))
  <= weight DEFAULT_CONFIG (mkPeer 0 100 100 0 0 1 0)
       (mkPeer 0 100 100 0 0 1 0)
       (with_latency (mkPeer 1 150 100 0 0 1 0) (1 / 20))
  /\ (1 / 10 <= 1 / 1000 ->
      weight DEFAULT_CONFIG (mkPeer 0 100 100 0 0 1 0)
        (mkPeer 0 100 100 0 0 1 0)
        (with_latency (mkPeer 1 150 100 0 0 1 0) (1 / 10))
      = weight DEFAULT_CONFIG (mkPeer 0 100 100 0 0 1 0)
          (mkPeer 0 100 100 0 0 1 0)
          (with_latency (mkPeer 1 150 100 0 0 1 0) (1 / 20))).
Proof.
  apply (weight_latency DEFAULT_CONFIG (mkPeer 0 100 100 0 0 1 0)
           (mkPeer 0 100 100 0 0 1 0) (mkPeer 1 150 100 0 0 1 0)
           (1 / 20) (1 / 10)); simpl; lra.
Defined.

(** X16 (zero distance).  When the peer stands exactly where the subject
    stands (in particular when the peer is the subject), there is no division
    by the distance: the distance term and the speed term are both 1 and the
    weight is the latency term times the tdf similarity term. *)
Theorem weight_zero_distance cfg sender player peer :
  d0 cfg <> 0 -> v0 cfg <> 0 ->
  x player = x peer -> y player = y peer ->
  weight cfg sender player peer
  = 1 / Rmax (latency peer) (1 / 1000)
    * exp (- (tdf sender - tdf peer) ^ 2 / (2 * sigma cfg ^ 2)).
Proof.
  intros Hd Hv Hx Hy. unfold weight. rewrite Hx, Hy.
  rewrite (norm_subtract_self (x peer, y peer)).
  rewrite Rltb_false by lra.
  pose proof (Rmax_r (latency peer) (1 / 1000)) as Hm.
  set (M := Rmax _ _) in *. set (tt := exp _).
  field. repeat split; first [done | lra].
Qed.

Lemma weight_zero_distance_witness :
  weight DEFAULT_CONFIG (mkPeer 0 100 100 0 0 1 0)
    (mkPeer 1 150 100 3 4 1 0) (mkPeer 1 150 100 3 4 1 0)
  = 1 / Rmax 0 (1 / 1000) * exp (- (1 - 1) ^ 2 / (2 * (1 / 10) ^ 2)).
Proof.
  apply (weight_zero_distance DEFAULT_CONFIG (mkPeer 0 100 100 0 0 1 0)
           (mkPeer 1 150 100 3 4 1 0) (mkPeer 1 150 100 3 4 1 0));
    simpl; solve [lra | reflexivity].
Defined.

(** *** The probabilities as a whole *)

Lemma fold_left_Rplus_sum (ws : list R) a :
  fold_left Rplus ws a = a + sum ws.
Proof.
  revert a. induction ws as [|w ws IH]; intros a; simpl; [lra|].
  rewrite IH. lra.
Qed.

Lemma sum_probabilities cfg T N (ws : list R) :
  sum (map (probability cfg T N) ws)
  = (1 - epsilon cfg) * (sum ws / T)
    + INR (length ws) * (epsilon cfg / N).
Proof.
  induction ws as [|w ws IH].
  - simpl. unfold Rdiv. lra.
  - change (sum (map (probability cfg T N) (w :: ws)))
      with (probability cfg T N w + sum (map (probability cfg T N) ws)).
    rewrite IH. change (length (w :: ws)) with (S (length ws)).
    rewrite S_INR. unfold probability, Rdiv. simpl. ring.
Qed.

(** X17 (the probabilities do not sum to one).  Whenever sender and subject
    have a record, [selectPeers] returns, and with [S] the sum of the weights
    of the candidates, [k] the number of returned entries and [N] the length
    of the participant array, the returned probabilities sum to [(1 - eps) +
    k * eps / N] when [S] is not zero and to [k * eps / N] when [S] is zero
    (the divisor is then 1 and every weight term [w / 1] adds up to [S = 0]):
    they are per-peer gates, and they sum to 1 only in special cases. *)
Theorem probabilities_sum s senderIdx playerIdx sender player :
  array_get (peers s) senderIdx = Some sender ->
  array_get (peers s) playerIdx = Some player ->
  exists sels,
    selectPeers s senderIdx playerIdx = (s, Return sels)
    /\ (sum (map (weight (config s) sender player)
               (candidates s senderIdx (peersInRange s sender))) <> 0 ->
        sum (map prob sels)
        = (1 - epsilon (config s))
          + INR (length sels)
            * (epsilon (config s) / INR (length (peers s))))
    /\ (sum (map (weight (config s) sender player)
               (candidates s senderIdx (peersInRange s sender))) = 0 ->
        sum (map prob sels)
        = INR (length sels)
          * (epsilon (config s) / INR (length (peers s)))).
Proof.
  intros Hs Hp.
  rewrite (selectPeers_present _ _ _ sender player) by done.
  set (inRange := peersInRange s sender) in *.
  set (cands := candidates s senderIdx inRange) in *.
  set (ws := map (weight (config s) sender player) cands).
  eexists. split; [reflexivity|].
  assert (Hlen : (length cands <= length inRange)%nat)
    by apply candidates_length.
  assert (HN : length_or_1 (peers s) = INR (length (peers s))).
  { apply length_or_1_nonempty. intros Hnil. rewrite Hnil in Hs.
    unfold array_get in Hs. by rewrite lookup_nil in Hs. }
  assert (Hl : length (zip_with mkSelection (take (length ws) inRange)
                         (map (probability (config s) (totalWeight ws)
                                 (length_or_1 (peers s))) ws))
               = length ws).
  { rewrite length_zip_with, length_take, !length_map.
    subst ws. rewrite length_map. lia. }
  rewrite Hl, map_prob_zip
    by (rewrite length_take, !length_map; subst ws; rewrite length_map; lia).
  rewrite HN, sum_probabilities.
  unfold totalWeight. rewrite fold_left_Rplus_sum, Rplus_0_l.
  destruct (Req_dec_T (sum ws) 0) as [Hz|Hnz].
  - split; [done|]. intros _. rewrite Hz. unfold Rdiv. lra.
  - split; [|done]. intros _.
    replace (sum ws / sum ws) with 1 by (field; lra). lra.
Qed.

Lemma probabilities_sum_witness :
  exists sels,
    selectPeers Scenarios.two_peers_state 0 0
    = (Scenarios.two_peers_state, Return sels)
    /\ (sum (map (weight (config Scenarios.two_peers_state)
                    (mkPeer 0 100 100 0 0 1 0) (mkPeer 0 100 100 0 0 1 0))
               (candidates Scenarios.two_peers_state 0
                  (peersInRange Scenarios.two_peers_state
                     (mkPeer 0 100 100 0 0 1 0)))) <> 0 ->
        sum (map prob sels)
        = (1 - epsilon (config Scenarios.two_peers_state))
          + INR (length sels)
            * (epsilon (config Scenarios.two_peers_state)
               / INR (length (peers Scenarios.two_peers_state))))
    /\ (sum (map (weight (config Scenarios.two_peers_state)
                    (mkPeer 0 100 100 0 0 1 0) (mkPeer 0 100 100 0 0 1 0))
               (candidates Scenarios.two_peers_state 0
                  (peersInRange Scenarios.two_peers_state
                     (mkPeer 0 100 100 0 0 1 0)))) = 0 ->
        sum (map prob sels)
        = INR (length sels)
          * (epsilon (config Scenarios.two_peers_state)
             / INR (length (peers Scenarios.two_peers_state)))).
Proof.
  apply (probabilities_sum Scenarios.two_peers_state 0 0
           (mkPeer 0 100 100 0 0 1 0) (mkPeer 0 100 100 0 0 1 0)).
  - reflexivity.
  - reflexivity.
Defined.

(** *** The engine as a state machine *)

Lemma engine_inv_new cfg : engine_inv (new_LightSeed cfg).
Proof.
  split; [apply index_ok_new|]. split.
  - intros i peer H. unfold array_get in H. simpl in H. done.
  - intros q Hq. simpl in Hq. by apply elem_of_nil in Hq.
Qed.

Lemma engine_inv_insertPeer s id px py :
  (1 <= capacity (config s))%nat -> engine_inv s ->
  exists s', insertPeer s id px py = Some s'
             /\ engine_inv s' /\ config s' = config s.
Proof.
  intros HC ([Hwf Hb] & Hslots & Hlive). unfold insertPeer.
  destruct (QuadTreeTheory.insert_spec _ (quadtree s)
              (QuadTree.mkPoint px py id) HC Hwf) as (qt & E & W & B & P & _).
  rewrite E. eexists. split; [reflexivity|]. split; [|done].
  split; [split; simpl; [done|congruence]|]. split; simpl.
  - by apply slots_ok_array_set.
  - intros q Hq. simpl in Hq |- *. rewrite P in Hq.
    assert (Hq' : q = QuadTree.mkPoint px py id
                  \/ q ∈ QuadTree.all_points (quadtree s)).
    { destruct (QuadTree.inBoundary _ _); [|by right].
      apply elem_of_cons in Hq. done. }
    destruct (decide (QuadTree.pidx q = id)) as [->|Hne].
    + rewrite array_get_set_eq. by eexists.
    + rewrite array_get_set_ne by done.
      destruct Hq' as [->|Hq']; [done|]. by apply Hlive.
Qed.

Lemma engine_inv_updatePeer s id px py pvx pvy ptdf plat :
  (1 <= capacity (config s))%nat -> slots_ok (peers s) ->
  exists s', updatePeer s id px py pvx pvy ptdf plat = Some s'
             /\ engine_inv s' /\ index_current s'
             /\ config s' = config s
             /\ peers s' = array_set (peers s) id
                             (mkPeer id px py pvx pvy ptdf plat)
             /\ QuadTree.all_points (quadtree s')
                ≡ₚ world_points (config s) (peers s').
Proof.
  intros HC Hslots.
  destruct (forEach_insert_spec (capacity (config s))
              (QuadTree.new_QuadTree (boundary (config s)) (capacity (config s)))
              (array_set (peers s) id (mkPeer id px py pvx pvy ptdf plat)) HC
              (QuadTreeTheory.wf_new_QuadTree _ _)) as (qt & E & W & B & P).
  assert (Hup : updatePeer s id px py pvx pvy ptdf plat
                = Some (mkLightSeed (config s) qt
                          (array_set (peers s) id
                             (mkPeer id px py pvx pvy ptdf plat)))).
  { unfold updatePeer. rewrite E. done. }
  destruct (updatePeer_index_current _ _ _ _ _ _ _ _ _ HC Hslots Hup)
    as [Hcur Hslots'].
  eexists. split; [exact Hup|].
  split; [|split; [done|split; [done|split; [done|exact P]]]].
  split; [split; simpl; done|]. split; [done|].
  intros q Hq. simpl in Hq |- *. rewrite P in Hq. simpl in Hq.
  apply elem_of_filter_bool in Hq as [Hq _].
  apply list_elem_of_fmap in Hq as (peer0 & -> & Hp0).
  apply elem_of_live in Hp0 as [i Hi].
  simpl. rewrite (Hslots' i peer0 Hi). simpl. rewrite Hi. by eexists.
Qed.

(** X18 (the invariant of the engine).  A fresh engine satisfies, and
    [insertPeer] and [updatePeer] (which both return when the capacity is
    positive) keep: the index is a quadtree of the configured capacity over
    the world, every record sits in the slot of its own identifier, and every
    point of the index carries the identifier of an existing record.  The
    configuration never changes. *)
Theorem engine_invariant s id px py pvx pvy ptdf plat :
  (1 <= capacity (config s))%nat -> engine_inv s ->
  engine_inv (new_LightSeed (config s))
  /\ (exists s', insertPeer s id px py = Some s'
                 /\ engine_inv s' /\ config s' = config s)
  /\ (exists s', updatePeer s id px py pvx pvy ptdf plat = Some s'
                 /\ engine_inv s' /\ config s' = config s).
Proof.
  intros HC Hinv. split; [apply engine_inv_new|].
  split; [by apply engine_inv_insertPeer|].
  destruct Hinv as (_ & Hslots & _).
  destruct (engine_inv_updatePeer s id px py pvx pvy ptdf plat HC Hslots)
    as (s' & E & Hinv & _ & Hcfg & _).
  by exists s'.
Qed.

Lemma engine_invariant_witness :
  engine_inv (new_LightSeed (config (new_LightSeed DEFAULT_CONFIG)))
  /\ (exists s', insertPeer (new_LightSeed DEFAULT_CONFIG) 2 100 100 = Some s'
                 /\ engine_inv s'
                 /\ config s' = config (new_LightSeed DEFAULT_CONFIG))
  /\ (exists s', updatePeer (new_LightSeed DEFAULT_CONFIG) 2 100 100 1 0 1
                   (1 / 20) = Some s'
                 /\ engine_inv s'
                 /\ config s' = config (new_LightSeed DEFAULT_CONFIG)).
Proof.
  apply (engine_invariant (new_LightSeed DEFAULT_CONFIG) 2 100 100 1 0 1
           (1 / 20)).
  - simpl. lia.
  - apply engine_inv_new.
Defined.

(** X20 ([updatePeer] repairs a stale index).  Whatever the index held
    before, after [updatePeer] (capacity positive, records in their own
    slots) every point of the index is at the position that the record of
    its identifier has now. *)
Theorem updatePeer_repairs_index s id px py pvx pvy ptdf plat :
  (1 <= capacity (config s))%nat -> slots_ok (peers s) ->
  exists s',
    updatePeer s id px py pvx pvy ptdf plat = Some s' /\ index_current s'.
Proof.
  intros HC Hslots.
  destruct (engine_inv_updatePeer s id px py pvx pvy ptdf plat HC Hslots)
    as (s' & E & _ & Hcur & _).
  by exists s'.
Qed.

Lemma reinserted_slots_ok : slots_ok (peers Scenarios.reinserted_state).
Proof.
  intros [|[|i]] peer H; cbn in H; try (by injection H as <-); done.
Qed.

Lemma updatePeer_repairs_index_witness :
  exists s',
    updatePeer Scenarios.reinserted_state 0 100 100 0 0 1 (1 / 20) = Some s'
    /\ index_current s'.
Proof.
  apply (updatePeer_repairs_index Scenarios.reinserted_state
           0 100 100 0 0 1 (1 / 20)).
  - simpl. lia.
  - apply reinserted_slots_ok.
Defined.

(** X21 ([updatePeer] replaces one record).  [updatePeer(id, ...)] (capacity
    positive) stores exactly the given record under [id], leaves every other
    slot as it was, and the participant array grows to [id + 1] slots if it
    was shorter: [N] of the probability formula becomes [max(N, id + 1)]. *)
Theorem updatePeer_store s id px py pvx pvy ptdf plat :
  (1 <= capacity (config s))%nat ->
  exists s',
    updatePeer s id px py pvx pvy ptdf plat = Some s'
    /\ array_get (peers s') id = Some (mkPeer id px py pvx pvy ptdf plat)
    /\ (forall j, j <> id -> array_get (peers s') j = array_get (peers s) j)
    /\ length (peers s') = Nat.max (length (peers s)) (S id).
Proof.
  intros HC. unfold updatePeer.
  destruct (forEach_insert_spec (capacity (config s))
              (QuadTree.new_QuadTree (boundary (config s)) (capacity (config s)))
              (array_set (peers s) id (mkPeer id px py pvx pvy ptdf plat)) HC
              (QuadTreeTheory.wf_new_QuadTree _ _)) as (qt & E & _).
  rewrite E. eexists. split; [reflexivity|]. simpl.
  split; [apply array_get_set_eq|].
  split; [intros j Hj; by apply array_get_set_ne|apply array_set_length].
Qed.

Lemma updatePeer_store_witness :
  exists s',
    updatePeer Scenarios.two_peers_state 5 10 20 1 2 1 (1 / 20) = Some s'
    /\ array_get (peers s') 5%nat = Some (mkPeer 5 10 20 1 2 1 (1 / 20))
    /\ (forall j, j <> 5%nat ->
          array_get (peers s') j = array_get (peers Scenarios.two_peers_state) j)
    /\ length (peers s')
       = Nat.max (length (peers Scenarios.two_peers_state)) 6.
Proof.
  apply (updatePeer_store Scenarios.two_peers_state 5 10 20 1 2 1 (1 / 20)).
  simpl. lia.
Defined.

Lemma two_peers_index_ok : index_ok Scenarios.two_peers_state.
Proof.
  split; [|done]. constructor; [simpl; lia|].
  repeat constructor; apply QuadTreeTheory.inBoundary_iff; simpl; lra.
Qed.

(** X23 (an indexed sender is always in range of itself).  If the index
    holds the sender's point at the sender's position, the query of
    [selectPeers] returns the sender's identifier, whatever the horizon: the
    skip of the sender in the loop is what keeps its weight out. *)
Theorem sender_in_range s senderIdx sender :
  index_ok s ->
  QuadTree.mkPoint (x sender) (y sender) senderIdx
    ∈ QuadTree.all_points (quadtree s) ->
  senderIdx ∈ peersInRange s sender.
Proof.
  intros [Hwf _] Hin. unfold peersInRange.
  rewrite (QuadTreeTheory.query_filter _ _ _ Hwf).
  apply list_elem_of_fmap.
  exists (QuadTree.mkPoint (x sender) (y sender) senderIdx).
  split; [done|]. apply elem_of_filter_bool. split; [done|].
  unfold QuadTree.pointInRange. simpl. apply Rleb_le.
  pose proof (Rle_0_sqr (c (config s) * deltaT (config s))) as H.
  unfold Rsqr in H. lra.
Qed.

Lemma sender_in_range_witness :
  0%nat ∈ peersInRange Scenarios.two_peers_state (mkPeer 0 100 100 0 0 1 0).
Proof.
  apply (sender_in_range Scenarios.two_peers_state 0
           (mkPeer 0 100 100 0 0 1 0)).
  - apply two_peers_index_ok.
  - simpl. apply list_elem_of_here.
Defined.

End LightSeedMore.

(** ** The players of the game *)

Module GameTheory.
Import Game.

(** X24 ([move] keeps the player on the canvas).  After [move()] the
    position is within [[0, 800]] by [[0, 600]], both ends included; when the
    step stays on the canvas the position is the old one plus the velocity;
    nothing else of the player changes. *)
Theorem move_clamped p :
  0 <= x (move p) <= 800 /\ 0 <= y (move p) <= 600
  /\ (0 <= x p + vx p <= 800 -> x (move p) = x p + vx p)
  /\ (0 <= y p + vy p <= 600 -> y (move p) = y p + vy p)
  /\ id (move p) = id p /\ vx (move p) = vx p /\ vy (move p) = vy p
  /\ isZombie (move p) = isZombie p
  /\ infectionTimer (move p) = infectionTimer p
  /\ lastUpdate (move p) = lastUpdate p.
Proof.
  unfold move. simpl. unfold Rmax, Rmin.
  repeat split; try done; repeat destruct (Rle_dec _ _); try lra;
    intros; lra.
Qed.

(** X25 (the right wall is outside the index).  The game builds its engine
    with world side 800 and lets [move()] clamp to [x <= 800]: a player
    pushed against the right wall stands at [x = 800], which the half-open
    region [[0, 800)] of the index does not contain, so [insert] rejects its
    point on every node that spans the world. *)
Theorem move_right_wall p i t fuel :
  800 <= x p + vx p ->
  QuadTree.boundary t = LightSeed.boundary Scenarios.config_800 ->
  x (move p) = 800
  /\ QuadTree.insert_fuel (S fuel) t
       (QuadTree.mkPoint (x (move p)) (y (move p)) i)
     = Some (t, false).
Proof.
  intros Hx Hb.
  assert (E : x (move p) = 800).
  { unfold move. simpl. rewrite (Rmin_left 800) by lra.
    apply Rmax_right. lra. }
  split; [done|]. apply QuadTreeTheory.insert_fuel_outside.
  rewrite Hb, E. apply QuadTreeTheory.inBoundary_false_iff. simpl. lra.
Qed.

Lemma move_right_wall_witness :
  x (move (mkPlayer EmptyString 799 300 2 0 false None 0)) = 800
  /\ QuadTree.insert_fuel 1
       (QuadTree.new_QuadTree (LightSeed.boundary Scenarios.config_800) 4)
       (QuadTree.mkPoint
          (x (move (mkPlayer EmptyString 799 300 2 0 false None 0)))
          (y (move (mkPlayer EmptyString 799 300 2 0 false None 0))) 0)
     = Some (QuadTree.new_QuadTree
               (LightSeed.boundary Scenarios.config_800) 4, false).
Proof.
  apply (move_right_wall (mkPlayer EmptyString 799 300 2 0 false None 0) 0
           (QuadTree.new_QuadTree (LightSeed.boundary Scenarios.config_800) 4)
           0).
  - simpl. lra.
  - reflexivity.
Defined.

End GameTheory.

(** * The index and the store in every arithmetic *)

Module QuadTreeATheory.
Import Arith QuadTreeA.

Section Over.
Context {A : Arith}.
Implicit Types (t : QuadTree A) (p : Point A) (b : Boundary A).

Lemma wf_fresh b C : wf C (new_QuadTree b C).
Proof. constructor. simpl. lia. Qed.

Lemma wf_capacity C t : wf C t -> capacity t = C.
Proof. by destruct 1. Qed.

Lemma fuel_of_pos t : exists fuel, fuel_of t = S fuel.
Proof. unfold fuel_of. destruct (capacity t); eauto. Qed.

Lemma accepts_inBoundary t p :
  accepts t p = true -> inBoundary (boundary t) p = true.
Proof. destruct t; simpl; intros H; apply andb_true_iff in H; tauto. Qed.

Lemma accepts_new b C p :
  (1 <= C)%nat -> accepts (new_QuadTree b C) p = inBoundary b p.
Proof.
  intros HC. simpl. replace (Nat.ltb 0 C) with true.
  - simpl. by rewrite andb_true_r.
  - symmetry. apply Nat.ltb_lt. lia.
Qed.

Lemma insert_fuel_rejects fuel t p :
  inBoundary (boundary t) p = false ->
  insert_fuel (S fuel) t p = Some (t, false).
Proof. intros H. simpl. rewrite H. done. Qed.

Lemma insert_outcome_rejected C t p :
  wf C t -> insert_outcome C t p t false.
Proof.
  intros Hwf. unfold insert_outcome. split; [done|]. split; [done|].
  split; [done|]. split; [done|]. split; [done|]. split; [lia|done].
Qed.

(** The [||] chain over four children that each behave as [insert_outcome]
    says. *)
Lemma insert_children_outcome C ins b ps p nw ne sw se :
  length ps = C ->
  (boundary nw, boundary ne, boundary sw, boundary se) = quadrants b ->
  inBoundary b p = true ->
  wf C nw -> wf C ne -> wf C sw -> wf C se ->
  (forall c, c ∈ [nw; ne; sw; se] ->
     exists c', ins c = Some (c', accepts c p)
                /\ insert_outcome C c p c' (accepts c p)) ->
  exists t',
    insert_children ins b C ps nw ne sw se
    = Some (t', accepts nw p || accepts ne p || accepts sw p || accepts se p)
    /\ insert_outcome C (Quad b C ps nw ne sw se) p t'
         (accepts nw p || accepts ne p || accepts sw p || accepts se p).
Proof.
  intros Hlen Hq Hp Wnw Wne Wsw Wse Hc.
  destruct (Hc nw) as (nw' & Enw & Wnw' & Bnw & Onw & Tnw & Fnw & Dnw & Lnw);
    [repeat constructor|].
  destruct (Hc ne) as (ne' & Ene & Wne' & Bne & One & Tne & Fne & Dne & Lne);
    [repeat constructor|].
  destruct (Hc sw) as (sw' & Esw & Wsw' & Bsw & Osw & Tsw & Fsw & Dsw & Lsw);
    [repeat constructor|].
  destruct (Hc se) as (se' & Ese & Wse' & Bse & Ose & Tse & Fse & Dse & Lse);
    [repeat constructor|].
  unfold insert_children. rewrite Enw.
  destruct (accepts nw p); [|rewrite Ene; destruct (accepts ne p);
    [|rewrite Esw; destruct (accepts sw p); [|rewrite Ese]]].
  all: eexists; (split; [reflexivity|]).
  all: assert (HT : forall res t',
         res = true -> all_points t' ≡ₚ p :: all_points (Quad b C ps nw ne sw se)
         -> Forall (fun q => inBoundary b q = true)
              (all_points (Quad b C ps nw ne sw se))
         -> Forall (fun q => inBoundary b q = true) (all_points t'))
       by (intros ? ? _ HP Hall; rewrite HP; by constructor).
  all: unfold insert_outcome.
  all: split; [constructor; try done; congruence|].
  all: split; [done|].
  all: split; [simpl; rewrite Hp; done|].
  all: split; [simpl; intros H;
               rewrite ?Tnw, ?Tne, ?Tsw, ?Tse, ?Fnw, ?Fne, ?Fsw, ?Fse by done;
               first [done|solve_Permutation]|].
  all: split; [simpl; intros H;
               rewrite ?Fnw, ?Fne, ?Fsw, ?Fse by done; first [done|idtac]|].
  all: split; [simpl; lia|].
  all: intros [Hall (Hnw & Hne & Hsw & Hse)]; (split; [|auto]).
  all: simpl boundary in *.
  1-3: eapply (HT true); [done| |exact Hall]; simpl;
       rewrite ?Tnw, ?Tne, ?Tsw, ?Tse, ?Fnw, ?Fne, ?Fsw, ?Fse by done;
       solve_Permutation.
  destruct (accepts se p).
  - eapply (HT true); [done| |exact Hall]; simpl;
      rewrite ?Tse, ?Fnw, ?Fne, ?Fsw by done; solve_Permutation.
  - simpl in *. rewrite ?Fnw, ?Fne, ?Fsw, ?Fse by done. exact Hall.
Qed.

(** A leaf with room takes a point of its region at once. *)
Lemma insert_fuel_room C fuel b ps p :
  (length ps < C)%nat ->
  exists t', insert_fuel (S fuel) (Leaf b C ps) p
             = Some (t', inBoundary b p)
             /\ insert_outcome C (Leaf b C ps) p t' (inBoundary b p).
Proof.
  intros Hlen. simpl. destruct (inBoundary b p) eqn:Hp; simpl.
  - pose proof Hlen as Hlt. apply Nat.ltb_lt in Hlen. rewrite Hlen. simpl.
    eexists; split; [reflexivity|]. unfold insert_outcome. simpl. rewrite Hp.
    split; [constructor; rewrite length_app; simpl; lia|].
    split; [done|]. split; [done|]. split; [intros _; solve_Permutation|].
    split; [done|]. split; [lia|]. intros [Hall _]. split; [|done].
    apply Forall_app. split; [done|]. by repeat constructor.
  - eexists; split; [reflexivity|].
    apply insert_outcome_rejected. constructor. lia.
Qed.

(** With positive capacity and fuel for the levels of the tree plus two,
    [insert] returns in every arithmetic; it returns [accepts t p] and its
    outcome is [insert_outcome]. *)
Lemma insert_fuel_accepts C t :
  (1 <= C)%nat -> wf C t ->
  forall fuel p, (depth t + 2 <= fuel)%nat ->
  exists t', insert_fuel fuel t p = Some (t', accepts t p)
             /\ insert_outcome C t p t' (accepts t p).
Proof.
  intros HC Hwf. induction Hwf as [b ps Hlen|b ps nw ne sw se Hlen Hq
    Wnw IHnw Wne IHne Wsw IHsw Wse IHse]; intros fuel p Hfuel.
  - destruct fuel as [|fuel]; [simpl in Hfuel; lia|]. simpl accepts.
    destruct (Nat.ltb (length ps) C) eqn:Hroom.
    { cbn [orb]. rewrite andb_true_r.
      apply insert_fuel_room. by apply Nat.ltb_lt. }
    destruct (inBoundary b p) eqn:Hp.
    2:{ eexists; split; [by apply insert_fuel_rejects|].
        apply insert_outcome_rejected. by constructor. }
    apply Nat.ltb_ge in Hroom.
    cbn [insert_fuel boundary points capacity divided]. rewrite Hp.
    replace (Nat.ltb (length ps) C) with false
      by (symmetry; by apply Nat.ltb_ge).
    cbn [negb andb orb]. unfold subdivide, in_quadrants.
    destruct (quadrants b) as [[[bnw bne] bsw] bse] eqn:Eq.
    destruct (insert_children_outcome C (fun child => insert_fuel fuel child p) b ps p
                (new_QuadTree bnw C) (new_QuadTree bne C)
                (new_QuadTree bsw C) (new_QuadTree bse C))
      as (t' & E & Hout); try done; try apply wf_fresh.
    + lia.
    + intros c Hc. destruct fuel as [|fuel]; [simpl in Hfuel; lia|].
      rewrite !elem_of_cons in Hc.
      destruct Hc as [->|[->|[->|[->|Hc]]]];
        try (rewrite accepts_new by done;
             apply insert_fuel_room; simpl; lia).
      by apply elem_of_nil in Hc.
    + rewrite !accepts_new in E, Hout by done.
      rewrite E. eexists; split; [reflexivity|].
      destruct Hout as (W & B & O & T & F & D & L).
      split; [done|]. split; [done|]. split; [simpl; rewrite Hp; done|].
      split; [intros H; rewrite (T H); simpl; by rewrite app_nil_r|].
      split; [intros H; rewrite (F H); simpl; by rewrite app_nil_r|].
      split; [simpl; lia|].
      intros [Hall _]. apply L. simpl in Hall |- *.
      rewrite app_nil_r. split; [done|]. repeat split; constructor.
  - destruct fuel as [|fuel]; [simpl in Hfuel; lia|]. simpl accepts.
    destruct (inBoundary b p) eqn:Hp.
    2:{ eexists; split; [by apply insert_fuel_rejects|].
        apply insert_outcome_rejected. by constructor. }
    cbn [insert_fuel boundary points capacity divided]. rewrite Hp.
    rewrite andb_false_r. cbn [negb andb].
    apply insert_children_outcome; try done.
    intros c Hc. simpl in Hfuel. rewrite !elem_of_cons in Hc.
    destruct Hc as [->|[->|[->|[->|Hc]]]];
      [apply IHnw|apply IHne|apply IHsw|apply IHse|by apply elem_of_nil in Hc];
      lia.
Qed.

Lemma insert_accepts C t p :
  (1 <= C)%nat -> wf C t ->
  exists t', insert t p = Some (t', accepts t p)
             /\ insert_outcome C t p t' (accepts t p).
Proof.
  intros HC Hwf. unfold insert. apply insert_fuel_accepts; [done|done|].
  unfold fuel_of. rewrite (wf_capacity C) by done. destruct C; lia.
Qed.

(** Two runs of [insert] that both return agree: fuel only decides whether
    the run returns. *)
Lemma insert_fuel_same f1 f2 t p (r1 r2 : QuadTree A * bool) :
  insert_fuel f1 t p = Some r1 -> insert_fuel f2 t p = Some r2 -> r1 = r2.
Proof.
  revert f2 t r1 r2.
  induction f1 as [|f1 IH]; intros [|f2] t r1 r2; simpl; try done.
  destruct (negb (inBoundary (boundary t) p)); [congruence|].
  destruct (_ && _); [congruence|].
  destruct (match t with Leaf b0 c _ => subdivide b0 c
                       | Quad _ _ _ nw ne sw se => (nw, ne, sw, se) end)
    as [[[nw ne] sw] se].
  unfold insert_children.
  repeat match goal with
  | |- context [insert_fuel f1 ?c p] =>
      let E1 := fresh "E" in let E2 := fresh "E" in
      destruct (insert_fuel f1 c p) as [[? []]|] eqn:E1;
      destruct (insert_fuel f2 c p) as [[? []]|] eqn:E2; try done;
      pose proof (IH _ _ _ _ E1 E2); simplify_eq
  end; congruence.
Qed.

(** Where the quadrants tile, a node takes exactly the points of its
    region. *)
Lemma accepts_tiling C t p :
  (1 <= C)%nat -> tiling A -> wf C t ->
  accepts t p = inBoundary (boundary t) p.
Proof.
  intros HC Ht. induction 1 as [b ps Hlen|b ps nw ne sw se Hlen Hq
    Wnw IHnw Wne IHne Wsw IHsw Wse IHse]; simpl.
  - destruct (inBoundary b p) eqn:Hp; [|done].
    rewrite (Ht b p Hp). by rewrite orb_true_r.
  - destruct (inBoundary b p) eqn:Hp; [|done].
    rewrite IHnw, IHne, IHsw, IHse. pose proof (Ht b p Hp) as H.
    unfold in_quadrants in H. rewrite <- Hq in H. done.
Qed.


(** Inserting a sequence of points into a leaf that has room for all of them
    fills the leaf in the order of the sequence. *)
Lemma insert_all_room b C ps : forall held,
  (length held + length (List.filter (inBoundary b) ps) <= C)%nat ->
  insert_all (Leaf b C held) ps
  = Some (Leaf b C (held ++ List.filter (inBoundary b) ps),
          List.filter (inBoundary b) ps).
Proof.
  induction ps as [|p ps IH]; intros held Hlen; simpl.
  - by rewrite app_nil_r.
  - unfold insert. destruct (fuel_of_pos (Leaf b C held)) as [fuel ->].
    cbn [insert_fuel boundary points capacity divided].
    simpl in Hlen. destruct (inBoundary b p) eqn:Hp; cbn [negb].
    + simpl in Hlen.
      replace (Nat.ltb (length held) C) with true
        by (symmetry; apply Nat.ltb_lt; lia).
      cbn [andb push_point]. rewrite IH.
      * by rewrite <- app_assoc.
      * rewrite length_app. simpl. lia.
    + by rewrite IH.
Qed.

(** Inserting a sequence of points: the accepted points are points of the
    region, in the order of the sequence, and the tree gains exactly them. *)
Lemma insert_all_accepts C ps :
  (1 <= C)%nat ->
  forall t, wf C t ->
  exists t' acc,
    insert_all t ps = Some (t', acc)
    /\ wf C t' /\ boundary t' = boundary t
    /\ sublist acc (List.filter (inBoundary (boundary t)) ps)
    /\ all_points t' ≡ₚ all_points t ++ acc
    /\ (depth t <= depth t')%nat
    /\ (enclosed t -> enclosed t')
    /\ (tiling A -> acc = List.filter (inBoundary (boundary t)) ps).
Proof.
  intros HC. induction ps as [|p ps IH]; intros t Hwf.
  - exists t, []. simpl. rewrite app_nil_r. done.
  - destruct (insert_accepts C t p HC Hwf)
      as (t1 & E1 & W1 & B1 & O1 & T1 & F1 & D1 & L1).
    destruct (IH t1 W1) as (t2 & acc & E2 & W2 & B2 & S2 & P2 & D2 & L2 & A2).
    simpl. rewrite E1, E2. do 2 eexists. split; [reflexivity|].
    rewrite B1 in B2, S2, A2. split; [done|]. split; [done|].
    split; [|split; [|split; [lia|split; [auto|]]]].
    + destruct (accepts t p) eqn:Hacc.
      * rewrite (accepts_inBoundary _ _ Hacc). by constructor.
      * destruct (inBoundary (boundary t) p); [by constructor|done].
    + rewrite P2. destruct (accepts t p).
      * rewrite T1 by done. solve_Permutation.
      * rewrite F1 by done. done.
    + intros Ht. rewrite (accepts_tiling C) by done.
      rewrite <- A2 by done. done.
Qed.

(** The node's own points after one [insert]: the new point is appended when
    the node has room and is not divided, and they are untouched otherwise. *)
Lemma insert_fuel_points fuel t p t' res :
  insert_fuel fuel t p = Some (t', res) ->
  points t' =
  if inBoundary (boundary t) p
     && Nat.ltb (length (points t)) (capacity t) && negb (divided t)
  then points t ++ [p] else points t.
Proof.
  destruct fuel as [|fuel]; [done|]. simpl.
  destruct (inBoundary (boundary t) p); simpl; [|by intros [= <- <-]].
  destruct (_ && _).
  { intros [= <- <-]. by destruct t. }
  destruct (match t with Leaf b0 c _ => subdivide b0 c
                       | Quad _ _ _ nw ne sw se => (nw, ne, sw, se) end)
    as [[[nw ne] sw] se].
  unfold insert_children.
  repeat match goal with
  | |- context [insert_fuel fuel ?c p] =>
      destruct (insert_fuel fuel c p) as [[? []]|]; try done
  end; by intros [= <- <-].
Qed.

(** The root holds the first [C] points of its region that were offered to
    it, in the order in which they came. *)
Lemma insert_all_root C ps :
  (1 <= C)%nat ->
  forall t t' acc, wf C t ->
  insert_all t ps = Some (t', acc) ->
  points t' = take C (points t ++ List.filter (inBoundary (boundary t)) ps).
Proof.
  intros HC. induction ps as [|p ps IH]; intros t t' acc Hwf; simpl.
  - intros [= <- <-]. rewrite app_nil_r.
    destruct Hwf; simpl; rewrite take_ge; (done || lia).
  - destruct (insert_accepts C t p HC Hwf) as (t1 & E1 & W1 & B1 & _).
    rewrite E1. pose proof (insert_fuel_points _ _ _ _ _ E1) as Hp.
    destruct (insert_all t1 ps) as [[t2 acc2]|] eqn:E2; [|done].
    intros [= <- <-]. rewrite (IH _ _ _ W1 E2), B1, Hp.
    destruct (inBoundary (boundary t) p) eqn:Hin; simpl; [|done].
    destruct Hwf as [b ps0 Hlen|b ps0 nw ne sw se Hlen]; simpl in *.
    + destruct (Nat.ltb (length ps0) C) eqn:Hroom; simpl.
      * by rewrite <- app_assoc.
      * apply Nat.ltb_ge in Hroom. rewrite !take_app_le by lia. done.
    + rewrite andb_false_r. rewrite !take_app_le by lia. done.
Qed.
Lemma inBoundary_coords b q q' :
  px q = px q' -> py q = py q' -> inBoundary b q = inBoundary b q'.
Proof. unfold inBoundary. by intros -> ->. Qed.

(** Where [x < y] excludes [y <= x], no point lies in two of the four
    quadrants. *)
Lemma quadrants_at_most_one b p bnw bne bsw bse :
  ordered A -> quadrants b = (bnw, bne, bsw, bse) ->
  (length (List.filter (fun r => inBoundary r p) [bnw; bne; bsw; bse])
   <= 1)%nat.
Proof.
  intros Ho [= <- <- <- <-]. unfold inBoundary. simpl.
  pose proof (Ho (px p) (add A (bx b) (half A (width b)))) as Hx.
  pose proof (Ho (py p) (add A (by_ b) (half A (height b)))) as Hy.
  destruct (ltb A (px p) (add A (bx b) (half A (width b))));
    [rewrite Hx by done|];
    (destruct (ltb A (py p) (add A (by_ b) (half A (height b))));
     [rewrite Hy by done|]).
  all: rewrite ?andb_false_r, ?andb_false_l; simpl.
  all: repeat match goal with
       | |- context [if ?c then _ else _] => destruct c
       end; simpl; lia.
Qed.



End Over.

(** ** The two arithmetics *)

Lemma reals_leb (a b : num reals) : leb reals a b = true <-> a <= b.
Proof. apply Rleb_le. Qed.

Lemma reals_ltb (a b : num reals) : ltb reals a b = true <-> a < b.
Proof. apply Rltb_lt. Qed.

Lemma reals_inBoundary (b : Boundary reals) (p : Point reals) :
  inBoundary b p = true <->
  bx b <= px p /\ px p < bx b + width b
  /\ by_ b <= py p /\ py p < by_ b + height b.
Proof.
  unfold inBoundary. rewrite !andb_true_iff, !reals_leb, !reals_ltb.
  simpl. tauto.
Qed.

(** Over the real numbers the four quadrants cover the region. *)
Lemma real_tiling : tiling reals.
Proof.
  intros b p Hp. apply reals_inBoundary in Hp.
  destruct Hp as (H1 & H2 & H3 & H4).
  unfold in_quadrants, quadrants. rewrite !orb_true_iff, !reals_inBoundary.
  simpl.
  destruct (Rlt_dec (px p) (bx b + width b / 2)),
           (Rlt_dec (py p) (by_ b + height b / 2)).
  - left; left; left. repeat split; lra.
  - left; right. repeat split; lra.
  - left; left; right. repeat split; lra.
  - right. repeat split; lra.
Qed.


Lemma reals_ordered : ordered reals.
Proof. intros a b H. apply Rltb_lt in H. by apply Rleb_false. Qed.

(** The comparisons of binary64, by their specification. *)
Lemma SFltb_not_ge (a b : SpecFloat.spec_float) :
  SpecFloat.SFltb a b = true -> SpecFloat.SFleb b a = false.
Proof.
  unfold SpecFloat.SFltb, SpecFloat.SFleb.
  destruct a as [[]|[]| |[] m1 e1], b as [[]|[]| |[] m2 e2]; simpl; try done.
  all: rewrite (BinInt.Z.compare_antisym e1 e2);
    destruct (BinInt.Z.compare e1 e2); simpl; try done.
  all: change (PosDef.Pos.compare_cont Eq m2 m1) with (BinPos.Pos.compare m2 m1);
    change (PosDef.Pos.compare_cont Eq m1 m2) with (BinPos.Pos.compare m1 m2);
    rewrite (BinPos.Pos.compare_antisym m1 m2);
    destruct (BinPos.Pos.compare m1 m2); simpl; done.
Qed.

Lemma doubles_ordered : ordered doubles.
Proof.
  intros a b. simpl. rewrite FloatAxioms.ltb_spec, FloatAxioms.leb_spec.
  apply SFltb_not_ge.
Qed.

(** In doubles the quadrants do not cover the region: (1, 1) is the one
    position of [[1, 1 + 2^-52)] squared, half the width is [2^-53], and [1 +
    2^-53] rounds to 1, so the western quadrants are [[1, 1)] and the eastern
    ones begin at 1 and end at 1. *)
Lemma doubles_not_tiling : ~ tiling doubles.
Proof.
  intros Ht.
  assert (Hin : inBoundary DoubleRuns.narrow (DoubleRuns.at_1_1 0) = true)
    by (vm_compute; reflexivity).
  apply Ht in Hin. vm_compute in Hin. discriminate Hin.
Qed.

(** ** Runs in doubles *)

Lemma three_tree_run :
  insert_all (new_QuadTree DoubleRuns.region 1) DoubleRuns.three_points
  = Some (DoubleRuns.three_tree, DoubleRuns.three_points).
Proof. vm_compute. reflexivity. Qed.

Lemma three_tree_wf : wf 1 DoubleRuns.three_tree.
Proof.
  unfold DoubleRuns.three_tree.
  constructor; try reflexivity; constructor; simpl; lia.
Qed.

(** With capacity 0 nothing is ever stored: in doubles an in-region insert
    subdivides until the regions are empty and returns false. *)
Lemma capacity_zero_run :
  exists t',
    insert (new_QuadTree DoubleRuns.region 0) (DoubleRuns.at_1_1 0)
    = Some (t', false)
    /\ all_points t' = [] /\ depth t' = 56%nat.
Proof.
  eexists. split; [vm_compute; reflexivity|].
  split; vm_compute; reflexivity.
Qed.

(** In the world of [game.js] with its capacity 4, the players that join at
    (400, 300) and stay there: 25 of them make the index 6 levels deep,
    beyond the configured [maxDepth] of 5. *)
Lemma game_depth_run :
  exists t acc,
    insert_all (new_QuadTree DoubleRuns.world_800 4)
      (replicate 25 DoubleRuns.at_400_300) = Some (t, acc)
    /\ length acc = 25%nat /\ depth t = 6%nat.
Proof.
  do 2 eexists. split; [vm_compute; reflexivity|].
  split; vm_compute; reflexivity.
Qed.

(** There, 220 of them are indexed and the next one is not. *)
Lemma game_stack_run :
  exists t acc t',
    insert_all (new_QuadTree DoubleRuns.world_800 4)
      (replicate 220 DoubleRuns.at_400_300) = Some (t, acc)
    /\ length acc = 220%nat
    /\ inBoundary (boundary t) DoubleRuns.at_400_300 = true
    /\ insert t DoubleRuns.at_400_300 = Some (t', false).
Proof.
  do 3 eexists. split; [vm_compute; reflexivity|].
  split; [vm_compute; reflexivity|].
  split; vm_compute; reflexivity.
Qed.

(** ** Properties of the index in every arithmetic *)

(** C4, as the code has it (insert failure semantics).  In every arithmetic,
    on every node of a tree built with a positive capacity, [insert(point)]
    returns, with the same result for any more fuel.  A point outside the
    node's region (inclusive low, exclusive high on both axes) is rejected
    and the tree is the tree before the call.  [insert] returns true only for
    a point of the region, and then the tree holds exactly one more point,
    the inserted one.  When it returns false the tree holds the points it
    held, though nodes on the way may have been subdivided: the tree never
    gets shallower.  An undivided node with room takes every point of its
    region; in general [insert] returns true exactly when the point, on its
    way down, reaches a leaf with room or a full leaf one of whose four
    quadrants contains it ([accepts]).  Where the quadrants cover the region,
    as they do over the real numbers, that is every point of the region, and
    a rejected insert leaves the tree unchanged. *)
Theorem insert_failure_semantics (A : Arith) C (t : QuadTree A) (p : Point A) :
  (1 <= C)%nat -> wf C t ->
  exists t' res,
    insert t p = Some (t', res)
    /\ (forall fuel, (depth t + 2 <= fuel)%nat ->
          insert_fuel fuel t p = Some (t', res))
    /\ wf C t' /\ boundary t' = boundary t /\ (depth t <= depth t')%nat
    /\ (inBoundary (boundary t) p = false -> res = false /\ t' = t)
    /\ (res = true ->
        inBoundary (boundary t) p = true
        /\ all_points t' ≡ₚ p :: all_points t)
    /\ (res = false -> all_points t' = all_points t)
    /\ (divided t = false -> (length (points t) < C)%nat ->
        res = inBoundary (boundary t) p)
    /\ res = accepts t p
    /\ (tiling A ->
        res = inBoundary (boundary t) p /\ (res = false -> t' = t)).
Proof.
  intros HC Hwf.
  destruct (insert_accepts C t p HC Hwf) as (t' & E & W & B & O & T & F & D & _).
  exists t', (accepts t p). split; [done|]. split.
  { intros fuel Hfuel.
    destruct (insert_fuel_accepts C t HC Hwf fuel p Hfuel) as (t2 & E2 & _).
    rewrite E2. f_equal. eapply insert_fuel_same; eauto. }
  split; [done|]. split; [done|]. split; [done|]. split.
  { intros Hout. split; [|by apply O]. destruct t; simpl in *; by rewrite Hout. }
  split.
  { intros Hacc. split; [by apply accepts_inBoundary|by apply T]. }
  split; [done|]. split.
  { intros Hdiv Hroom. destruct Hwf as [b ps Hlen|]; [|done]. simpl in *.
    apply Nat.ltb_lt in Hroom. rewrite Hroom. simpl. by rewrite andb_true_r. }
  split; [done|]. intros Ht. rewrite (accepts_tiling C) by done.
  split; [done|apply O].
Qed.

Lemma insert_failure_semantics_witness :
  exists t' res,
    insert DoubleRuns.three_tree (DoubleRuns.at_1_1 3) = Some (t', res)
    /\ (forall fuel, (depth DoubleRuns.three_tree + 2 <= fuel)%nat ->
          insert_fuel fuel DoubleRuns.three_tree (DoubleRuns.at_1_1 3)
          = Some (t', res))
    /\ wf 1 t' /\ boundary t' = boundary DoubleRuns.three_tree
    /\ (depth DoubleRuns.three_tree <= depth t')%nat
    /\ (inBoundary (boundary DoubleRuns.three_tree) (DoubleRuns.at_1_1 3)
        = false -> res = false /\ t' = DoubleRuns.three_tree)
    /\ (res = true ->
        inBoundary (boundary DoubleRuns.three_tree) (DoubleRuns.at_1_1 3)
        = true
        /\ all_points t'
           ≡ₚ DoubleRuns.at_1_1 3 :: all_points DoubleRuns.three_tree)
    /\ (res = false -> all_points t' = all_points DoubleRuns.three_tree)
    /\ (divided DoubleRuns.three_tree = false ->
        (length (points DoubleRuns.three_tree) < 1)%nat ->
        res = inBoundary (boundary DoubleRuns.three_tree)
                (DoubleRuns.at_1_1 3))
    /\ res = accepts DoubleRuns.three_tree (DoubleRuns.at_1_1 3)
    /\ (tiling doubles ->
        res = inBoundary (boundary DoubleRuns.three_tree)
                (DoubleRuns.at_1_1 3)
        /\ (res = false -> t' = DoubleRuns.three_tree)).
Proof.
  apply (insert_failure_semantics doubles 1 DoubleRuns.three_tree
           (DoubleRuns.at_1_1 3)).
  - lia.
  - apply three_tree_wf.
Defined.

(** C4 as stated fails in the doubles of the code.  With capacity 1 on the
    region [[0, 8)] squared, 56 inserts of (1, 1) are accepted, one per
    level, and leave a leaf of width [2^-52] around (1, 1).  The next insert
    of (1, 1), a point of the root's region, returns false, and the tree is
    not the tree before the call: the full leaf has been subdivided into four
    empty regions and the tree is one level deeper. *)
Lemma insert_failure_semantics_counterexample :
  exists t acc t',
    insert_all (new_QuadTree DoubleRuns.region 1) (DoubleRuns.stack 56)
    = Some (t, acc)
    /\ acc = DoubleRuns.stack 56
    /\ wf 1 t
    /\ inBoundary (boundary t) (DoubleRuns.at_1_1 56) = true
    /\ insert t (DoubleRuns.at_1_1 56) = Some (t', false)
    /\ t' <> t /\ depth t = 55%nat /\ depth t' = 56%nat.
Proof.
  destruct (insert_all_accepts (A := doubles) 1 (DoubleRuns.stack 56)
              (le_n 1) (new_QuadTree DoubleRuns.region 1)
              (wf_fresh _ _)) as (t & acc & E & W & _).
  exists t, acc. revert E W.
  assert (Hrun : exists t0,
            insert_all (new_QuadTree DoubleRuns.region 1) (DoubleRuns.stack 56)
            = Some (t0, DoubleRuns.stack 56)
            /\ inBoundary (boundary t0) (DoubleRuns.at_1_1 56) = true
            /\ (exists t', insert t0 (DoubleRuns.at_1_1 56) = Some (t', false)
                           /\ depth t' = 56%nat)
            /\ depth t0 = 55%nat).
  { eexists. split; [vm_compute; reflexivity|].
    split; [vm_compute; reflexivity|].
    split; [|vm_compute; reflexivity].
    eexists. split; vm_compute; reflexivity. }
  destruct Hrun as (t0 & E0 & Hin & (t' & Hins & Hd') & Hd).
  intros E W. rewrite E0 in E. injection E as <- <-.
  exists t'. split; [exact E0|]. split; [reflexivity|].
  split; [exact W|]. split; [exact Hin|]. split; [exact Hins|].
  split; [|split; [exact Hd|exact Hd']].
  intros Heq. rewrite Heq in Hd'. lia.
Qed.

(** X1 (the quadrants never overlap).  In an arithmetic where [x < y]
    excludes [y <= x], as over the real numbers and in doubles, a point lies
    in at most one of the four regions that [subdivide()] makes; where the
    quadrants moreover cover the region, as over the real numbers, a point
    of the region lies in exactly one. *)
Theorem quadrants_disjoint (A : Arith) (b : Boundary A) (p : Point A)
    bnw bne bsw bse :
  ordered A -> quadrants b = (bnw, bne, bsw, bse) ->
  (length (List.filter (fun r => inBoundary r p) [bnw; bne; bsw; bse])
   <= 1)%nat
  /\ (tiling A -> inBoundary b p = true ->
      length (List.filter (fun r => inBoundary r p) [bnw; bne; bsw; bse])
      = 1%nat).
Proof.
  intros Ho Hq. pose proof (quadrants_at_most_one b p _ _ _ _ Ho Hq) as H1.
  split; [done|]. intros Ht Hp. specialize (Ht b p Hp).
  unfold in_quadrants in Ht. rewrite Hq in Ht. simpl in *.
  destruct (inBoundary bnw p), (inBoundary bne p), (inBoundary bsw p),
    (inBoundary bse p); simpl in *; try done; lia.
Qed.

Lemma quadrants_disjoint_witness :
  (length (List.filter (fun r => inBoundary r (DoubleRuns.at_1_1 0))
             [DoubleRuns.region_nw; DoubleRuns.region_ne;
              DoubleRuns.region_sw; DoubleRuns.region_se]) <= 1)%nat
  /\ (tiling doubles ->
      inBoundary DoubleRuns.region (DoubleRuns.at_1_1 0) = true ->
      length (List.filter (fun r => inBoundary r (DoubleRuns.at_1_1 0))
                [DoubleRuns.region_nw; DoubleRuns.region_ne;
                 DoubleRuns.region_sw; DoubleRuns.region_se])
      = 1%nat).
Proof.
  apply (quadrants_disjoint doubles DoubleRuns.region (DoubleRuns.at_1_1 0)
           DoubleRuns.region_nw DoubleRuns.region_ne
           DoubleRuns.region_sw DoubleRuns.region_se).
  - apply doubles_ordered.
  - reflexivity.
Defined.



End QuadTreeATheory.

(** * The store in every arithmetic *)

Module LightSeedATheory.
Import Arith LightSeedA.
Import LightSeed(array_get, array_set).

Section Over.
Context {A : Arith}.
Implicit Types (s : LightSeed A) (arr : list (option (Peer A))).


(** The rebuild offers the records' points to [insert] in the order of the
    slots. *)
Lemma forEach_insert_points (qt : QuadTreeA.QuadTree A) arr :
  forEach_insert qt arr
  = fst <$> QuadTreeA.insert_all qt (map point_of (live arr)).
Proof.
  revert qt. induction arr as [|[peer|] arr IH]; intros qt; simpl; [done| |].
  - unfold live. simpl. fold (live arr).
    change (QuadTreeA.mkPoint (x peer) (y peer) (idx peer))
      with (point_of peer).
    destruct (QuadTreeA.insert qt (point_of peer)) as [[qt' ok]|]; [|done].
    rewrite IH. destruct (QuadTreeA.insert_all qt' _) as [[qt'' acc]|]; done.
  - apply IH.
Qed.

Lemma slots_ok_write arr id (rec : Peer A) :
  slots_ok arr -> idx rec = id -> slots_ok (array_set arr id rec).
Proof.
  intros Hs Hid i peer. destruct (decide (id = i)) as [<-|Hne].
  - rewrite LightSeedTheory.array_get_set_eq. by intros [= <-].
  - rewrite LightSeedTheory.array_get_set_ne by done. apply Hs.
Qed.





Lemma world_points_sub w arr :
  world_points w arr ⊆+ map point_of (live arr).
Proof.
  unfold world_points. apply sublist_submseteq.
  induction (map point_of (live arr)) as [|q l IH]; simpl; [done|].
  destruct (QuadTreeA.inBoundary _ q); by constructor.
Qed.

Lemma elem_of_world_points w arr q :
  q ∈ world_points w arr ->
  QuadTreeA.inBoundary (boundary w) q = true
  /\ exists peer, q = point_of peer /\ peer ∈ live arr.
Proof.
  unfold world_points. intros Hq.
  apply list_elem_of_In, List.filter_In in Hq as [Hq Hin].
  split; [done|]. apply list_elem_of_In, list_elem_of_fmap in Hq. done.
Qed.

(** What the rebuild of [updatePeer] leaves in the index, from the store
    [arr] that it reads: points of records inside the world, no record
    twice; all of them where the quadrants tile or the root has room. *)
Lemma rebuild_spec C w arr :
  (1 <= C)%nat ->
  exists qt,
    forEach_insert (QuadTreeA.new_QuadTree (boundary w) C) arr = Some qt
    /\ QuadTreeA.wf C qt /\ QuadTreeA.boundary qt = boundary w
    /\ QuadTreeA.all_points qt ⊆+ world_points w arr
    /\ QuadTreeA.points qt = take C (world_points w arr)
    /\ (QuadTreeA.tiling A \/ (length (world_points w arr) <= C)%nat ->
        QuadTreeA.all_points qt ≡ₚ world_points w arr).
Proof.
  intros HC. rewrite forEach_insert_points.
  destruct (QuadTreeATheory.insert_all_accepts C (map point_of (live arr)) HC
              (QuadTreeA.new_QuadTree (boundary w) C)
              (QuadTreeATheory.wf_fresh _ _))
    as (qt & acc & E & W & B & S & P & _ & _ & T).
  pose proof (QuadTreeATheory.insert_all_root C _ HC _ _ _
                (QuadTreeATheory.wf_fresh _ _) E) as Hroot.
  rewrite E. exists qt. simpl in *.
  split; [done|]. split; [done|]. split; [done|]. split; [|split; [done|]].
  - rewrite P. by apply sublist_submseteq.
  - intros [Ht|Hroom].
    + rewrite P. unfold world_points. by rewrite <- T.
    + unfold QuadTreeA.new_QuadTree in E.
      rewrite QuadTreeATheory.insert_all_room in E by (simpl; exact Hroom).
      injection E as <- <-. done.
Qed.

Lemma updatePeer_spec s id x y vx vy tdf latency :
  (1 <= capacity s)%nat ->
  exists qt,
    updatePeer s id x y vx vy tdf latency
    = Some (mkLightSeed (worldSize s) (capacity s) qt
              (array_set (peers s) id (mkPeer id x y vx vy tdf latency)))
    /\ QuadTreeA.wf (capacity s) qt
    /\ QuadTreeA.boundary qt = boundary (worldSize s)
    /\ QuadTreeA.all_points qt ⊆+
       world_points (worldSize s)
         (array_set (peers s) id (mkPeer id x y vx vy tdf latency))
    /\ QuadTreeA.points qt
       = take (capacity s)
           (world_points (worldSize s)
              (array_set (peers s) id (mkPeer id x y vx vy tdf latency)))
    /\ (QuadTreeA.tiling A
        \/ (length (world_points (worldSize s)
              (array_set (peers s) id (mkPeer id x y vx vy tdf latency)))
            <= capacity s)%nat ->
        QuadTreeA.all_points qt ≡ₚ
        world_points (worldSize s)
          (array_set (peers s) id (mkPeer id x y vx vy tdf latency))).
Proof.
  intros HC. unfold updatePeer.
  destruct (rebuild_spec (capacity s) (worldSize s)
              (array_set (peers s) id (mkPeer id x y vx vy tdf latency)) HC)
    as (qt & E & W & B & S & R & P).
  rewrite E. by exists qt.
Qed.

Lemma slots_ok_new w C : slots_ok (peers (new_LightSeed (A := A) w C)).
Proof. intros i peer H. unfold array_get in H. simpl in H. done. Qed.

Lemma slots_ok_insertPeer s id x y s' :
  slots_ok (peers s) -> insertPeer s id x y = Some s' -> slots_ok (peers s').
Proof.
  intros Hs. unfold insertPeer.
  destruct (QuadTreeA.insert _ _) as [[qt ok]|]; [|done]. intros [= <-].
  simpl. by apply slots_ok_write.
Qed.

Lemma index_ok_fresh w C : index_ok (new_LightSeed (A := A) w C).
Proof. split; [apply QuadTreeATheory.wf_fresh|done]. Qed.

Lemma slots_ok_updatePeer s id x y vx vy tdf latency s' :
  slots_ok (peers s) ->
  updatePeer s id x y vx vy tdf latency = Some s' -> slots_ok (peers s').
Proof.
  intros Hs. unfold updatePeer.
  destruct (forEach_insert _ _); [|done]. intros [= <-]. simpl.
  by apply slots_ok_write.
Qed.

End Over.

(** ** Runs in doubles *)

Lemma pair_state_run : DoubleRuns.pair_run = Some DoubleRuns.pair_state.
Proof. vm_compute. reflexivity. Qed.


Lemma pair_state_index_ok : index_ok DoubleRuns.pair_state.
Proof.
  split; [|reflexivity]. simpl.
  constructor; try reflexivity; constructor; simpl; lia.
Qed.

Lemma crowd_slots_ok c n s :
  DoubleRuns.crowd c n = Some s -> slots_ok (peers s).
Proof.
  revert s. induction n as [|n IH]; intros s; simpl.
  - intros [= <-]. apply slots_ok_new.
  - destruct (DoubleRuns.crowd c n) as [s0|]; [|done].
    apply slots_ok_updatePeer. by apply IH.
Qed.

(** ** Properties of the store in every arithmetic *)




(** X19 (what the rebuild indexes).  In every arithmetic, after [updatePeer]
    (capacity positive) the index is a quadtree over the world that holds
    only points of records whose position is inside the world, no record
    twice: the points of earlier insertions are gone, and no point of the
    index lies on the position of a record outside [[0, worldSize)], so that
    such a participant is absent from every query.  The root holds the
    points of the first [capacity] records inside the world, in the order of
    the slots.  The index holds the points of all the records inside the
    world where the quadrants cover the region, as over the real numbers, and
    whenever these records are at most [capacity] many. *)
Theorem updatePeer_index (A : Arith) (s : LightSeed A) id
    x y vx vy tdf latency :
  (1 <= capacity s)%nat ->
  exists s',
    updatePeer s id x y vx vy tdf latency = Some s'
    /\ index_ok s'
    /\ QuadTreeA.all_points (quadtree s')
       ⊆+ world_points (worldSize s') (peers s')
    /\ (forall peer q,
          peer ∈ live (peers s') ->
          QuadTreeA.inBoundary (boundary (worldSize s')) (point_of peer)
          = false ->
          q ∈ QuadTreeA.all_points (quadtree s') ->
          ~ (QuadTreeA.px q = LightSeedA.x peer
             /\ QuadTreeA.py q = LightSeedA.y peer))
    /\ QuadTreeA.points (quadtree s')
       = take (capacity s) (world_points (worldSize s') (peers s'))
    /\ (QuadTreeA.tiling A
        \/ (length (world_points (worldSize s') (peers s')) <= capacity s)%nat
        -> QuadTreeA.all_points (quadtree s')
           ≡ₚ world_points (worldSize s') (peers s')).
Proof.
  intros HC.
  destruct (updatePeer_spec s id x y vx vy tdf latency HC)
    as (qt & E & W & B & S & R & P).
  eexists. split; [exact E|]. simpl. split; [by split|]. split; [done|].
  split; [|by split].
  intros peer q _ Hout Hq [Hx Hy].
  eapply elem_of_submseteq in Hq; [|exact S].
  apply elem_of_world_points in Hq as [Hin _].
  rewrite (QuadTreeATheory.inBoundary_coords _ q (point_of peer)) in Hin
    by done.
  congruence.
Qed.

Lemma updatePeer_index_witness :
  exists s',
    updatePeer DoubleRuns.pair_state 1 DoubleRuns.nine DoubleRuns.nine
      (zero doubles) (zero doubles) (one doubles) (zero doubles) = Some s'
    /\ index_ok s'
    /\ QuadTreeA.all_points (quadtree s')
       ⊆+ world_points (worldSize s') (peers s')
    /\ (forall peer q,
          peer ∈ live (peers s') ->
          QuadTreeA.inBoundary (boundary (worldSize s')) (point_of peer)
          = false ->
          q ∈ QuadTreeA.all_points (quadtree s') ->
          ~ (QuadTreeA.px q = LightSeedA.x peer
             /\ QuadTreeA.py q = LightSeedA.y peer))
    /\ QuadTreeA.points (quadtree s')
       = take (capacity DoubleRuns.pair_state)
           (world_points (worldSize s') (peers s'))
    /\ (QuadTreeA.tiling doubles
        \/ (length (world_points (worldSize s') (peers s'))
            <= capacity DoubleRuns.pair_state)%nat
        -> QuadTreeA.all_points (quadtree s')
           ≡ₚ world_points (worldSize s') (peers s')).
Proof.
  apply (updatePeer_index doubles DoubleRuns.pair_state 1
           DoubleRuns.nine DoubleRuns.nine
           (zero doubles) (zero doubles) (one doubles) (zero doubles)).
  simpl. lia.
Defined.

(** X22 ([insertPeer] only adds).  In every arithmetic, on an engine whose
    index is a quadtree of positive capacity over the world, [insertPeer]
    returns and removes no point of the index: the index then holds the
    points it held, and besides them the point [(x, y, id)] or nothing.  The
    point is added for coordinates inside the world when the root is an
    undivided node with room, and, where the quadrants cover the region as
    over the real numbers, for all coordinates inside the world; for
    coordinates outside the world the index is the index before the call.
    The earlier point of a re-inserted identifier thus stays in the index.
    The participant array gets the length [max(length, id + 1)]. *)
Theorem insertPeer_index (A : Arith) (s : LightSeed A) id x y :
  (1 <= capacity s)%nat -> index_ok s ->
  exists s',
    insertPeer s id x y = Some s'
    /\ index_ok s'
    /\ (QuadTreeA.all_points (quadtree s') = QuadTreeA.all_points (quadtree s)
        \/ QuadTreeA.all_points (quadtree s')
           ≡ₚ QuadTreeA.mkPoint x y id :: QuadTreeA.all_points (quadtree s))
    /\ (QuadTreeA.inBoundary (boundary (worldSize s))
          (QuadTreeA.mkPoint x y id) = true ->
        QuadTreeA.tiling A
        \/ (QuadTreeA.divided (quadtree s) = false
            /\ (length (QuadTreeA.points (quadtree s)) < capacity s)%nat) ->
        QuadTreeA.all_points (quadtree s')
        ≡ₚ QuadTreeA.mkPoint x y id :: QuadTreeA.all_points (quadtree s))
    /\ (QuadTreeA.inBoundary (boundary (worldSize s))
          (QuadTreeA.mkPoint x y id) = false ->
        quadtree s' = quadtree s)
    /\ length (peers s') = Nat.max (length (peers s)) (S id).
Proof.
  intros HC [Hwf Hb]. unfold insertPeer.
  destruct (QuadTreeATheory.insert_accepts _ (quadtree s)
              (QuadTreeA.mkPoint x y id) HC Hwf)
    as (qt & E & W & B & O & T & F & _).
  rewrite E. eexists. split; [reflexivity|]. simpl.
  split; [split; simpl; congruence|]. split.
  { destruct (QuadTreeA.accepts (quadtree s) _); [right|left]; auto. }
  split; [|split; [rewrite <- Hb; exact O|apply LightSeedTheory.array_set_length]].
  intros Hin Hcase. apply T. rewrite <- Hb in Hin. destruct Hcase as [Ht|[Hd Hr]].
  - by rewrite (QuadTreeATheory.accepts_tiling (capacity s)).
  - destruct Hwf as [b ps Hlen|]; [|done]. simpl in *. rewrite Hin.
    apply Nat.ltb_lt in Hr. by rewrite Hr.
Qed.

Lemma insertPeer_index_witness :
  exists s',
    insertPeer DoubleRuns.pair_state 0 DoubleRuns.five DoubleRuns.five
    = Some s'
    /\ index_ok s'
    /\ (QuadTreeA.all_points (quadtree s')
        = QuadTreeA.all_points (quadtree DoubleRuns.pair_state)
        \/ QuadTreeA.all_points (quadtree s')
           ≡ₚ QuadTreeA.mkPoint DoubleRuns.five DoubleRuns.five 0
              :: QuadTreeA.all_points (quadtree DoubleRuns.pair_state))
    /\ (QuadTreeA.inBoundary (boundary (worldSize DoubleRuns.pair_state))
          (QuadTreeA.mkPoint DoubleRuns.five DoubleRuns.five 0) = true ->
        QuadTreeA.tiling doubles
        \/ (QuadTreeA.divided (quadtree DoubleRuns.pair_state) = false
            /\ (length (QuadTreeA.points (quadtree DoubleRuns.pair_state))
                < capacity DoubleRuns.pair_state)%nat) ->
        QuadTreeA.all_points (quadtree s')
        ≡ₚ QuadTreeA.mkPoint DoubleRuns.five DoubleRuns.five 0
           :: QuadTreeA.all_points (quadtree DoubleRuns.pair_state))
    /\ (QuadTreeA.inBoundary (boundary (worldSize DoubleRuns.pair_state))
          (QuadTreeA.mkPoint DoubleRuns.five DoubleRuns.five 0) = false ->
        quadtree s' = quadtree DoubleRuns.pair_state)
    /\ length (peers s')
       = Nat.max (length (peers DoubleRuns.pair_state)) 1.
Proof.
  apply (insertPeer_index doubles DoubleRuns.pair_state 0
           DoubleRuns.five DoubleRuns.five).
  - simpl. lia.
  - apply pair_state_index_ok.
Defined.

End LightSeedATheory.
